(** * CUDA primitives of CTranslate2: a shallow embedding of
      [src/primitives/gpu_cuda.cu] and the properties of its operations.

    Device buffers are lists; a buffer's length is the number of elements
    its allocation holds.  Values of type [size_t] are integers reduced
    modulo [2^64] wherever the source computes them; values of type [int]
    are reduced to the signed 32-bit range; an integer element type is a
    signed integer of [w] bits, and the element type [float] is IEEE 754
    binary32 as [SpecFloat] specifies it.  An access past the end of a
    buffer is undefined in the source: the operations return [None] there,
    and every statement that a call produces a result is proved as an
    equation [... = Some _].  The runtime and library calls are taken to
    succeed: the throwing branch of [CUDA_CHECK] and [CUBLAS_CHECK] is not
    part of the model. *)

From Stdlib Require Import ZArith List Lia Bool Permutation Sorted.
From Stdlib Require SpecFloat.
Import ListNotations.

Set Implicit Arguments.

(** ** Machine integers *)

Module Machine.
Local Open Scope Z_scope.

Definition SIZE_MAX : Z := 2 ^ 64 - 1.
Definition INT_MAX : Z := 2 ^ 31 - 1.

(** Arithmetic on [size_t] is modulo [2^64]. *)
Definition to_size_t (z : Z) : Z := z mod 2 ^ 64.
Definition size_mul (a b : Z) : Z := to_size_t (a * b).
Definition size_add (a b : Z) : Z := to_size_t (a + b).

(** Conversion to a signed integer of [w] bits (two's complement). *)
Definition to_signed (w : Z) (z : Z) : Z :=
  (z + 2 ^ (w - 1)) mod 2 ^ w - 2 ^ (w - 1).
Definition to_int (z : Z) : Z := to_signed 32 z.

Definition fits_size_t (z : Z) : Prop := 0 <= z <= SIZE_MAX.
Definition fits_int (z : Z) : Prop := 0 <= z <= INT_MAX.
Definition representable (w : Z) (z : Z) : Prop :=
  - 2 ^ (w - 1) <= z < 2 ^ (w - 1).
End Machine.

(** ** The option monad of in-range device accesses *)

Definition bind {A B : Type} (m : option A) (f : A -> option B) : option B :=
  match m with
  | Some a => f a
  | None => None
  end.

Notation "x <- m ;; k" := (bind m (fun x => k))
  (at level 61, m at next level, right associativity).

Lemma bind_some {A B : Type} (m : option A) (f : A -> option B) b :
  bind m f = Some b -> exists a, m = Some a /\ f a = Some b.
Proof. destruct m as [a|]; simpl; [eauto | discriminate]. Qed.

(** ** Buffers and the transform helpers *)

Module Buffers.

Fixpoint zip_with {A B C : Type} (op : A -> B -> C)
         (a : list A) (b : list B) : list C :=
  match a, b with
  | x :: a', y :: b' => op x y :: zip_with op a' b'
  | _, _ => []
  end.

Section Ops.
Context {T : Type}.

(** [thrust::fill_n(x, size, a)]. *)
Definition fill (x : list T) (a : T) (size : nat) : option (list T) :=
  if size <=? length x
  then Some (repeat a size ++ skipn size x)
  else None.

(** [cudaMemcpyAsync(y, x, size * sizeof (T), ...)]: the first [size]
    elements of [y] are overwritten by those of [x]. *)
Definition copy (x y : list T) (size : nat) : option (list T) :=
  if (size <=? length x) && (size <=? length y)
  then Some (firstn size x ++ skipn size y)
  else None.

(** [thrust::transform(x, x + size, y, op)]. *)
Definition unary_transform (x y : list T) (size : nat) (op : T -> T)
  : option (list T) :=
  if (size <=? length x) && (size <=? length y)
  then Some (map op (firstn size x) ++ skipn size y)
  else None.

(** [thrust::transform(a, a + size, b, c, op)]. *)
Definition binary_transform (a b c : list T) (size : nat)
           (op : T -> T -> T) : option (list T) :=
  if (size <=? length a) && (size <=? length b) && (size <=? length c)
  then Some (zip_with op (firstn size a) (firstn size b) ++ skipn size c)
  else None.
End Ops.

(** *** Facts about the buffer operations *)

Lemma zip_with_length {A B C : Type} (op : A -> B -> C) a b :
  length (zip_with op a b) = Nat.min (length a) (length b).
Proof.
  revert b; induction a as [|x a IH]; intros [|y b]; simpl; auto.
Qed.

Lemma firstn_prefix {T : Type} (n : nat) (p s : list T) :
  length p = n -> firstn n (p ++ s) = p.
Proof.
  intros <-. rewrite firstn_app, Nat.sub_diag, firstn_all. simpl.
  apply app_nil_r.
Qed.

Lemma skipn_prefix {T : Type} (n : nat) (p s : list T) :
  length p = n -> skipn n (p ++ s) = s.
Proof.
  intros <-. rewrite skipn_app, Nat.sub_diag, skipn_all. reflexivity.
Qed.

Lemma firstn_length_le {T : Type} (n : nat) (l : list T) :
  n <= length l -> length (firstn n l) = n.
Proof. intros H. rewrite length_firstn. lia. Qed.

Lemma copy_some {T : Type} (x y : list T) (size : nat) :
  size <= length x -> size <= length y ->
  copy x y size = Some (firstn size x ++ skipn size y).
Proof.
  intros Hx Hy. unfold copy.
  apply Nat.leb_le in Hx, Hy. rewrite Hx, Hy. reflexivity.
Qed.

Lemma copy_inv {T : Type} (x y y' : list T) (size : nat) :
  copy x y size = Some y' ->
  size <= length x /\ size <= length y /\
  y' = firstn size x ++ skipn size y.
Proof.
  unfold copy. destruct (size <=? length x) eqn:Ex; simpl; try discriminate.
  destruct (size <=? length y) eqn:Ey; simpl; try discriminate.
  apply Nat.leb_le in Ex, Ey. intros [= <-]. auto.
Qed.

Lemma copy_length {T : Type} (x y y' : list T) (size : nat) :
  copy x y size = Some y' -> length y' = length y.
Proof.
  intros H. apply copy_inv in H as (Hx & Hy & ->).
  rewrite length_app, length_firstn, length_skipn. lia.
Qed.

Lemma fill_some {T : Type} (x : list T) (a : T) (size : nat) :
  size <= length x -> fill x a size = Some (repeat a size ++ skipn size x).
Proof.
  intros Hx. unfold fill. apply Nat.leb_le in Hx. rewrite Hx. reflexivity.
Qed.

Lemma binary_transform_some {T : Type} (a b c : list T) size op :
  size <= length a -> size <= length b -> size <= length c ->
  binary_transform a b c size op =
  Some (zip_with op (firstn size a) (firstn size b) ++ skipn size c).
Proof.
  intros Ha Hb Hc. unfold binary_transform.
  apply Nat.leb_le in Ha, Hb, Hc. rewrite Ha, Hb, Hc. reflexivity.
Qed.

End Buffers.

(** ** Elementwise primitives: [fill], [copy], [add], [sub] *)

Module Elementwise.
Import Machine Buffers.

(** The integer instantiations of the element type [T]: a signed integer
    of [w] bits, kept in [Z]; [thrust::plus<T>] and [thrust::minus<T>]
    compute in two's complement. *)
Section IntegerType.
Variable w : Z.

Definition plus (a b : Z) : Z := to_signed w (a + b).
Definition minus (a b : Z) : Z := to_signed w (a - b).

(** [primitives<Device::CUDA>::add(const T* a, const T* b, T* c, size)]. *)
Definition add (a b c : list Z) (size : nat) : option (list Z) :=
  binary_transform a b c size plus.

(** [primitives<Device::CUDA>::sub(const T* a, const T* b, T* c, size)]. *)
Definition sub (a b c : list Z) (size : nat) : option (list Z) :=
  binary_transform a b c size minus.
End IntegerType.

Local Open Scope Z_scope.

Lemma to_signed_representable w z :
  0 < w -> representable w z -> to_signed w z = z.
Proof.
  unfold representable, to_signed. intros Hw Hz.
  assert (E : 2 ^ w = 2 * 2 ^ (w - 1)).
  { replace w with (Z.succ (w - 1)) at 1 by lia.
    rewrite Z.pow_succ_r by lia. reflexivity. }
  rewrite Z.mod_small by lia. lia.
Qed.

Lemma minus_plus_cancel w x y :
  0 < w -> representable w x -> minus w (plus w x y) y = x.
Proof.
  intros Hw Hx. unfold minus, plus.
  rewrite <- (to_signed_representable Hw Hx) at 2.
  unfold to_signed. f_equal.
  replace ((x + y + 2 ^ (w - 1)) mod 2 ^ w - 2 ^ (w - 1) - y + 2 ^ (w - 1))
    with ((x + y + 2 ^ (w - 1)) mod 2 ^ w - y) by lia.
  rewrite Zminus_mod_idemp_l. f_equal. lia.
Qed.

Lemma zip_minus_plus_cancel w (a b : list Z) :
  0 < w -> Forall (representable w) a -> (length a <= length b)%nat ->
  zip_with (minus w) (zip_with (plus w) a b) b = a.
Proof.
  intros Hw Ha. revert b.
  induction Ha as [|x a Hx Ha IH]; intros [|y b] Hlen; simpl in *;
    try reflexivity; try lia.
  rewrite minus_plus_cancel by assumption. f_equal. apply IH. lia.
Qed.

(** C8.  For every integer element type (signed, [w] bits) and every size
    [n], zero and one included, [add(a, b, c, n)] followed by
    [sub(c, b, c2, n)] produces a result, and the first [n] elements of
    [c2] are then exactly those of [a]; the elements of [c2] past [n] are
    untouched. *)
Theorem add_sub_roundtrip (w : Z) (a b c c2 : list Z) (n : nat) :
  0 < w ->
  Forall (representable w) (firstn n a) ->
  (n <= length a)%nat -> (n <= length b)%nat ->
  (n <= length c)%nat -> (n <= length c2)%nat ->
  exists c1 c2',
    add w a b c n = Some c1 /\
    sub w c1 b c2 n = Some c2' /\
    firstn n c2' = firstn n a /\
    skipn n c2' = skipn n c2.
Proof.
  intros Hw Hrep Ha Hb Hc Hc2.
  set (s := zip_with (plus w) (firstn n a) (firstn n b)).
  assert (Hs : length s = n).
  { unfold s. rewrite zip_with_length, !length_firstn. lia. }
  exists (s ++ skipn n c).
  exists (zip_with (minus w) s (firstn n b) ++ skipn n c2).
  assert (Hd : zip_with (minus w) s (firstn n b) = firstn n a).
  { unfold s. apply zip_minus_plus_cancel; auto.
    rewrite !length_firstn. lia. }
  split; [|split; [|split]].
  - unfold add. apply binary_transform_some; assumption.
  - unfold sub. rewrite binary_transform_some.
    + rewrite firstn_prefix by assumption. reflexivity.
    + rewrite length_app, length_skipn. lia.
    + assumption.
    + assumption.
  - rewrite Hd. apply firstn_prefix. rewrite length_firstn. lia.
  - rewrite Hd. apply skipn_prefix. rewrite length_firstn. lia.
Qed.

(** The round trip on two 8-bit buffers whose sums overflow. *)
Lemma add_sub_roundtrip_witness :
  exists c1 c2',
    add 8 [100; -128; 7] [100; -1; 0] [0; 0; 0] 3 = Some c1 /\
    sub 8 c1 [100; -1; 0] [5; 5; 5; 5] 3 = Some c2' /\
    firstn 3 c2' = firstn 3 [100; -128; 7] /\
    skipn 3 c2' = skipn 3 [5; 5; 5; 5].
Proof.
  apply (@add_sub_roundtrip 8 [100; -128; 7] [100; -1; 0] [0; 0; 0]
                            [5; 5; 5; 5] 3).
  - lia.
  - simpl. repeat constructor; unfold representable; simpl; lia.
  - simpl; lia.
  - simpl; lia.
  - simpl; lia.
  - simpl; lia.
Defined.

Local Close Scope Z_scope.

(** C9.  [fill(x, a, n)] sets each of the [n] elements of [x] to [a], and
    [copy(x, y, n)] followed by [copy(y, x, n)] then gives back [x] as it
    was after the fill: every one of its [n] elements still equals [a]. *)
Theorem fill_copy_copy {T : Type} (x y : list T) (a : T) (n : nat) :
  n <= length x -> n <= length y ->
  exists x1 y1 x2,
    fill x a n = Some x1 /\
    firstn n x1 = repeat a n /\
    copy x1 y n = Some y1 /\
    copy y1 x1 n = Some x2 /\
    x2 = x1 /\
    forall i, i < n -> nth_error x2 i = Some a.
Proof.
  intros Hx Hy.
  set (x1 := repeat a n ++ skipn n x).
  assert (Hp : firstn n x1 = repeat a n).
  { apply firstn_prefix, repeat_length. }
  assert (Hl : length x1 = length x).
  { unfold x1. rewrite length_app, repeat_length, length_skipn. lia. }
  exists x1, (firstn n x1 ++ skipn n y), x1.
  split; [apply fill_some; assumption|].
  split; [assumption|].
  split; [apply copy_some; lia|].
  split.
  { rewrite copy_some.
    - rewrite firstn_prefix by (apply firstn_length_le; lia).
      rewrite firstn_skipn. reflexivity.
    - rewrite length_app, length_firstn, length_skipn. lia.
    - lia. }
  split; [reflexivity|].
  intros i Hi. unfold x1.
  rewrite nth_error_app1 by (rewrite repeat_length; assumption).
  apply nth_error_repeat. assumption.
Qed.

Lemma fill_copy_copy_witness :
  exists x1 y1 x2,
    fill [1; 2; 3; 4] 9 3 = Some x1 /\
    firstn 3 x1 = repeat 9 3 /\
    copy x1 [0; 0; 0] 3 = Some y1 /\
    copy y1 x1 3 = Some x2 /\
    x2 = x1 /\
    forall i, i < 3 -> nth_error x2 i = Some 9.
Proof.
  apply (@fill_copy_copy nat [1; 2; 3; 4] [0; 0; 0] 9 3); simpl; lia.
Defined.

End Elementwise.

(** ** [add] and [sub] on floats *)

Module FloatElementwise.
Import SpecFloat Buffers.
Local Open Scope Z_scope.

(** The element type [float]: IEEE 754 binary32, a significand of 24
    bits and exponents below 128. *)
Definition prec : Z := 24.
Definition emax : Z := 128.
Definition float : Type := spec_float.

(** [thrust::plus<float>] and [thrust::minus<float>]: the sum and the
    difference rounded to the nearest float, ties to even. *)
Definition plus (a b : float) : float := SFadd prec emax a b.
Definition minus (a b : float) : float := SFsub prec emax a b.

(** [add] and [sub] at [T = float]. *)
Definition add (a b c : list float) (size : nat) : option (list float) :=
  binary_transform a b c size plus.

Definition sub (a b c : list float) (size : nat) : option (list float) :=
  binary_transform a b c size minus.

(** The value of a finite float in units of [2^-149], the smallest
    positive float: an integer. *)
Definition scaled (x : float) : Z :=
  match x with
  | S754_finite s m e =>
      (if s then -1 else 1) * Z.pos m * 2 ^ (e + 149)
  | _ => 0
  end.

(** [x] is [y] up to the relative tolerance [p / q]. *)
Definition within_tolerance (p q : Z) (x y : float) : Prop :=
  q * Z.abs (scaled x - scaled y) <= p * Z.abs (scaled y).

(** The floats 0.1, 1e8, 2^26 and 2^100. *)
Definition tenth : float := S754_finite false 13421773 (-27).
Definition hundred_million : float := S754_finite false 12500000 3.
Definition two_26 : float := S754_finite false 8388608 3.
Definition two_100 : float := S754_finite false 8388608 77.

(** C8 as stated fails at [T = float]: [add] followed by [sub] returns
    zero for [a = 0.1] and [b = 1e8], which no relative tolerance below
    one admits, and zero for [a = 2^26] and [b = 2^100], an absolute
    error of [2^26]. *)
Lemma add_sub_float_counterexample :
  valid_binary prec emax tenth = true /\
  valid_binary prec emax hundred_million = true /\
  (exists c1 c2,
     add [tenth] [hundred_million] [S754_zero false] 1 = Some c1 /\
     sub c1 [hundred_million] [S754_zero false] 1 = Some c2 /\
     c2 = [S754_zero false] /\
     forall p q, 0 <= p < q ->
       ~ within_tolerance p q (S754_zero false) tenth) /\
  valid_binary prec emax two_26 = true /\
  valid_binary prec emax two_100 = true /\
  (exists c1 c2,
     add [two_26] [two_100] [S754_zero false] 1 = Some c1 /\
     sub c1 [two_100] [S754_zero false] 1 = Some c2 /\
     c2 = [S754_zero false] /\
     Z.abs (scaled (S754_zero false) - scaled two_26)
     = 2 ^ 26 * 2 ^ 149).
Proof.
  split; [reflexivity|]. split; [reflexivity|]. split.
  { exists [hundred_million], [S754_zero false].
    split; [vm_compute; reflexivity|].
    split; [vm_compute; reflexivity|].
    split; [reflexivity|].
    intros p q Hpq. unfold within_tolerance.
    change (scaled (S754_zero false)) with 0.
    assert (Hv : 0 < scaled tenth) by (vm_compute; reflexivity).
    rewrite Z.sub_0_l, Z.abs_opp, Z.abs_eq by lia. nia. }
  split; [reflexivity|]. split; [reflexivity|].
  exists [two_100], [S754_zero false].
  split; [vm_compute; reflexivity|].
  split; [vm_compute; reflexivity|].
  split; [reflexivity|]. vm_compute. reflexivity.
Qed.

End FloatElementwise.

(** ** Calls to the CUDA runtime and its libraries *)

Module Device.
Import Machine.
Local Open Scope Z_scope.

(** The calls a primitive issues, in the order it issues them. *)
Inductive cuda_call : Type :=
| cudaFree
| cudaMalloc (bytes : Z)
| cudaMemcpyAsync (bytes : Z)
| thrust_sequence (n : nat)
| thrust_sort_by_key (n : nat)
| cublasSgemmBatched_call (batchCount : Z).

Definition is_allocation (c : cuda_call) : bool :=
  match c with
  | cudaFree | cudaMalloc _ => true
  | _ => false
  end.

(** [cudaMalloc(&p, bytes)] for a buffer of elements of [elem_size]
    bytes each: the buffer holds [bytes / elem_size] elements, of
    unspecified contents [junk]. *)
Definition device_alloc {A : Type} (junk : A) (bytes elem_size : Z)
  : list A :=
  repeat junk (Z.to_nat (bytes / elem_size)).

Definition sizeof_int : Z := 4.
Definition sizeof_pointer : Z := 8.
End Device.

(** ** Top-k selection *)

Module TopK.
Import Machine Buffers Device.

Section Selector.
(** The element type [T], its size and [thrust::greater<T>]; the index
    type [I] is [int], as the instantiations of the source have it. *)
Variable T : Type.
Variable sizeof_T : Z.
Variable greater : T -> T -> bool.
(** Contents of freshly allocated device memory. *)
Variable uninit : T.
Variable uninit_index : Z.

(** The [static thread_local] variables of [topk]; a null pointer is
    the empty buffer. *)
Record statics : Type := {
  keys : list T;
  values : list Z;
  alloc_size : nat
}.

Definition initial : statics :=
  {| keys := []; values := []; alloc_size := 0 |}.

(** [thrust::sequence(values, values + size)]: [values[i] = (int) i]. *)
Definition sequence (values : list Z) (size : nat) : option (list Z) :=
  if size <=? length values
  then Some (map (fun i => to_int (Z.of_nat i)) (seq 0 size)
             ++ skipn size values)
  else None.

(** [thrust::sort_by_key(keys, keys + size, values, comp)].  Thrust
    implements it by its stable sort; here it is a stable insertion
    sort of the key-value pairs: a new pair goes behind exactly the
    leading pairs whose key is strictly [comp]-before its own, so pairs
    with equivalent keys keep the order they had. *)
Fixpoint insert (comp : T -> T -> bool) (kv : T * Z) (s : list (T * Z))
  : list (T * Z) :=
  match s with
  | [] => [kv]
  | kv' :: s' =>
      if comp (fst kv') (fst kv) then kv' :: insert comp kv s'
      else kv :: s
  end.

Definition stable_sort (comp : T -> T -> bool) (l : list (T * Z))
  : list (T * Z) :=
  fold_right (insert comp) [] l.

Definition sort_by_key (keys : list T) (values : list Z) (size : nat)
           (comp : T -> T -> bool) : option (list T * list Z) :=
  if (size <=? length keys) && (size <=? length values)
  then
    let s := stable_sort comp
               (combine (firstn size keys) (firstn size values)) in
    Some (map fst s ++ skipn size keys, map snd s ++ skipn size values)
  else None.

(** Lines 87-93: the scratch buffers are replaced when [size] exceeds
    the cached capacity. *)
Definition reserve (st : statics) (size : nat)
  : statics * list cuda_call :=
  if alloc_size st <? size
  then
    let key_bytes := size_mul (Z.of_nat size) sizeof_T in
    let value_bytes := size_mul (Z.of_nat size) sizeof_int in
    ({| keys := device_alloc uninit key_bytes sizeof_T;
        values := device_alloc uninit_index value_bytes sizeof_int;
        alloc_size := size |},
     [cudaFree; cudaMalloc key_bytes; cudaFree; cudaMalloc value_bytes])
  else (st, []).

Record topk_result : Type := {
  statics_after : statics;
  val_after : list T;
  ind_after : list Z;
  issued : list cuda_call
}.

(** [primitives<Device::CUDA>::topk(x, val, ind, k, size)]. *)
Definition topk (st : statics) (x val : list T) (ind : list Z)
           (k size : nat) : option topk_result :=
  let '(st1, allocs) := reserve st size in
  keys1 <- copy x (keys st1) size ;;
  values1 <- sequence (values st1) size ;;
  kv <- sort_by_key keys1 values1 size greater ;;
  val' <- copy (fst kv) val k ;;
  ind' <- copy (snd kv) ind k ;;
  Some {| statics_after :=
            {| keys := fst kv; values := snd kv;
               alloc_size := alloc_size st1 |};
          val_after := val';
          ind_after := ind';
          issued :=
            allocs ++
            [cudaMemcpyAsync (size_mul (Z.of_nat size) sizeof_T);
             thrust_sequence size;
             thrust_sort_by_key size;
             cudaMemcpyAsync (size_mul (Z.of_nat k) sizeof_T);
             cudaMemcpyAsync (size_mul (Z.of_nat k) sizeof_int)] |}.

(** A call of [topk] with its arguments, and a thread's history of
    calls run from a state of the statics. *)
Record topk_call : Type := {
  arg_x : list T;
  arg_val : list T;
  arg_ind : list Z;
  arg_k : nat;
  arg_size : nat
}.

Definition call (st : statics) (c : topk_call) : option topk_result :=
  topk st (arg_x c) (arg_val c) (arg_ind c) (arg_k c) (arg_size c).

Fixpoint run (st : statics) (history : list topk_call)
  : option statics :=
  match history with
  | [] => Some st
  | c :: history' =>
      r <- call st c ;;
      run (statics_after r) history'
  end.

(** The largest size requested by a history. *)
Definition max_size (history : list topk_call) : nat :=
  fold_left Nat.max (map arg_size history) 0.

(** *** The sort *)

Lemma insert_perm comp kv s : Permutation (insert comp kv s) (kv :: s).
Proof.
  induction s as [|kv' s IH]; simpl.
  - apply Permutation_refl.
  - destruct (comp (fst kv') (fst kv)).
    + eapply Permutation_trans; [apply perm_skip, IH | apply perm_swap].
    + apply Permutation_refl.
Qed.

Lemma stable_sort_perm comp l : Permutation (stable_sort comp l) l.
Proof.
  induction l as [|kv l IH]; simpl.
  - apply Permutation_refl.
  - eapply Permutation_trans; [apply insert_perm | apply perm_skip, IH].
Qed.

Lemma stable_sort_length comp l : length (stable_sort comp l) = length l.
Proof. apply Permutation_length, stable_sort_perm. Qed.

(** [thrust::greater<T>] is a strict weak ordering. *)
Hypothesis greater_irrefl : forall a, greater a a = false.
Hypothesis greater_trans :
  forall a b c, greater a b = true -> greater b c = true ->
                greater a c = true.
Hypothesis greater_neg_trans :
  forall a b c, greater a b = false -> greater b c = false ->
                greater a c = false.

(** The order of the result: a greater key first, and among keys none
    of which is greater than the other, the smaller index first. *)
Definition before (a b : T * Z) : Prop :=
  greater (fst a) (fst b) = true \/
  (greater (fst b) (fst a) = false /\ (snd a < snd b)%Z).

Definition index_lt (a b : T * Z) : Prop := (snd a < snd b)%Z.

Lemma greater_asym a b : greater a b = true -> greater b a = false.
Proof.
  intros Hab. destruct (greater b a) eqn:Hba; [|reflexivity].
  rewrite <- (greater_irrefl a). symmetry. eauto.
Qed.

Lemma before_not_greater a b : before a b -> greater (fst b) (fst a) = false.
Proof. intros [H|[H _]]; [apply greater_asym|]; assumption. Qed.

Lemma before_tie a b :
  before a b -> greater (fst a) (fst b) = false -> (snd a < snd b)%Z.
Proof. intros [H|[_ H]] E; [congruence | assumption]. Qed.

Lemma insert_sorted kv s :
  StronglySorted before s ->
  Forall (index_lt kv) s ->
  StronglySorted before (insert greater kv s).
Proof.
  induction 1 as [|kv' s Hs IH Hall]; intros Hidx; simpl.
  - repeat constructor.
  - inversion Hidx as [|? ? Hkv' Hidx']; subst.
    destruct (greater (fst kv') (fst kv)) eqn:E.
    + constructor; [apply IH; assumption|].
      eapply Permutation_Forall;
        [apply Permutation_sym, insert_perm|].
      constructor; [left; assumption | assumption].
    + constructor; [constructor; assumption|].
      constructor; [right; split; assumption|].
      rewrite Forall_forall in Hall, Hidx' |- *.
      intros e He. right. split; [|apply Hidx'; assumption].
      destruct (Hall e He) as [G|[G _]].
      * destruct (greater (fst e) (fst kv)) eqn:F; [|reflexivity].
        rewrite <- E. symmetry. eauto.
      * eauto.
Qed.

Lemma stable_sort_sorted l :
  StronglySorted index_lt l -> StronglySorted before (stable_sort greater l).
Proof.
  induction 1 as [|kv l Hl IH Hall]; simpl.
  - constructor.
  - apply insert_sorted; [assumption|].
    eapply Permutation_Forall;
      [apply Permutation_sym, stable_sort_perm | assumption].
Qed.

Lemma StronglySorted_nth {A : Type} (R : A -> A -> Prop) (l : list A) d :
  StronglySorted R l ->
  forall i j, i < j -> j < length l -> R (nth i l d) (nth j l d).
Proof.
  induction 1 as [|a l Hl IH Hall]; intros i j Hij Hj; simpl in *.
  - lia.
  - destruct j as [|j]; [lia|]. destruct i as [|i].
    + rewrite Forall_forall in Hall. apply Hall, nth_In. lia.
    + apply IH; lia.
Qed.

(** *** Keys paired with the positions [start, start + 1, ...] *)

Definition positions (start n : nat) : list Z :=
  map Z.of_nat (seq start n).

Lemma In_combine_positions (xs : list T) start n v i :
  In (v, i) (combine xs (positions start n)) <->
  exists p, p < n /\ i = Z.of_nat (start + p) /\ nth_error xs p = Some v.
Proof.
  unfold positions. revert start n.
  induction xs as [|x xs IH]; intros start [|n]; simpl.
  - split; [tauto|]. intros (p & Hp & _); lia.
  - split; [tauto|]. intros (p & _ & _ & Hp). destruct p; discriminate.
  - split; [tauto|]. intros (p & Hp & _); lia.
  - rewrite IH. split.
    + intros [E|(p & Hp & Hi & Hnth)].
      * injection E as Ev Ei. exists 0. rewrite Nat.add_0_r.
        subst. repeat split. lia.
      * exists (S p). subst i.
        repeat split; [lia | f_equal; lia | assumption].
    + intros ([|p] & Hp & Hi & Hnth); simpl in Hnth.
      * left. rewrite Nat.add_0_r in Hi. congruence.
      * right. exists p. subst i.
        repeat split; [lia | f_equal; lia | assumption].
Qed.

Lemma combine_positions_sorted (xs : list T) start n :
  StronglySorted index_lt (combine xs (positions start n)).
Proof.
  revert start n. induction xs as [|x xs IH]; intros start [|n];
    try (simpl; constructor).
  - apply (IH (S start) n).
  - apply Forall_forall. intros [v i] Hin.
    apply (In_combine_positions xs (S start) n) in Hin.
    destruct Hin as (p & _ & -> & _). unfold index_lt. simpl. lia.
Qed.

Lemma sequence_positions size :
  (Z.of_nat size <= INT_MAX + 1)%Z ->
  map (fun i => to_int (Z.of_nat i)) (seq 0 size) = positions 0 size.
Proof.
  intros Hsize. unfold positions. apply map_ext_in.
  intros i Hi. apply in_seq in Hi.
  unfold to_int, to_signed, INT_MAX in *.
  rewrite Z.mod_small; lia.
Qed.

(** *** Evaluation of a call *)

Hypothesis sizeof_T_pos : (0 < sizeof_T)%Z.

(** The scratch pointers address at least [alloc_size] elements. *)
Definition wf (st : statics) : Prop :=
  alloc_size st <= length (keys st) /\
  alloc_size st <= length (values st).

(** The byte counts of the scratch buffers for [size] elements are
    values of [size_t]. *)
Definition allocatable (size : nat) : Prop :=
  fits_size_t (Z.of_nat size * sizeof_T) /\
  fits_size_t (Z.of_nat size * sizeof_int).

(** The key-index pairs of [x], sorted. *)
Definition sorted_pairs (x : list T) (size : nat) : list (T * Z) :=
  stable_sort greater
    (combine (firstn size x)
             (map (fun i => to_int (Z.of_nat i)) (seq 0 size))).

Lemma device_alloc_length {A : Type} (junk : A) (n : nat) (sz : Z) :
  (0 < sz)%Z -> fits_size_t (Z.of_nat n * sz) ->
  length (device_alloc junk (size_mul (Z.of_nat n) sz) sz) = n.
Proof.
  unfold fits_size_t, SIZE_MAX, device_alloc, size_mul, to_size_t.
  intros Hsz Hfit. rewrite repeat_length.
  rewrite Z.mod_small by lia. rewrite Z.div_mul by lia.
  apply Nat2Z.id.
Qed.

Lemma initial_wf : wf initial.
Proof. split; simpl; lia. Qed.

Lemma reserve_capacity st size :
  alloc_size (fst (reserve st size)) = Nat.max (alloc_size st) size.
Proof.
  unfold reserve. destruct (alloc_size st <? size) eqn:E; simpl.
  - apply Nat.ltb_lt in E. lia.
  - apply Nat.ltb_ge in E. lia.
Qed.

Lemma reserve_bounds st size :
  wf st -> allocatable size ->
  size <= length (keys (fst (reserve st size))) /\
  size <= length (values (fst (reserve st size))).
Proof.
  intros [Hk Hv] [Hfk Hfv]. unfold reserve.
  destruct (alloc_size st <? size) eqn:E; simpl.
  - rewrite !device_alloc_length; (assumption || (unfold sizeof_int; lia)
                                   || auto).
  - apply Nat.ltb_ge in E. lia.
Qed.

Lemma sorted_pairs_length x size :
  size <= length x -> length (sorted_pairs x size) = size.
Proof.
  intros Hx. unfold sorted_pairs.
  rewrite stable_sort_length, length_combine, length_firstn,
    length_map, length_seq. lia.
Qed.

Lemma topk_eval st x val ind k size :
  let st1 := fst (reserve st size) in
  let s := sorted_pairs x size in
  size <= length x ->
  size <= length (keys st1) -> size <= length (values st1) ->
  k <= length (keys st1) -> k <= length (values st1) ->
  k <= length val -> k <= length ind ->
  topk st x val ind k size =
  Some {| statics_after :=
            {| keys := map fst s ++ skipn size (keys st1);
               values := map snd s ++ skipn size (values st1);
               alloc_size := alloc_size st1 |};
          val_after :=
            firstn k (map fst s ++ skipn size (keys st1)) ++ skipn k val;
          ind_after :=
            firstn k (map snd s ++ skipn size (values st1))
            ++ skipn k ind;
          issued :=
            snd (reserve st size) ++
            [cudaMemcpyAsync (size_mul (Z.of_nat size) sizeof_T);
             thrust_sequence size;
             thrust_sort_by_key size;
             cudaMemcpyAsync (size_mul (Z.of_nat k) sizeof_T);
             cudaMemcpyAsync (size_mul (Z.of_nat k) sizeof_int)] |}.
Proof.
  intros st1 s Hx Hks Hvs Hkk Hkv Hval Hind.
  assert (Hs : length s = size) by (apply sorted_pairs_length; exact Hx).
  unfold topk. subst st1.
  destruct (reserve st size) as [st1 allocs]; simpl fst in *;
    simpl snd in *.
  rewrite copy_some by assumption. simpl bind.
  unfold sequence. apply Nat.leb_le in Hvs as Hvs'. rewrite Hvs'.
  simpl bind. unfold sort_by_key.
  assert (L1 : length (firstn size x ++ skipn size (keys st1))
               = length (keys st1)).
  { rewrite length_app, length_firstn, length_skipn. lia. }
  assert (L2 : length (map (fun i => to_int (Z.of_nat i)) (seq 0 size)
                       ++ skipn size (values st1))
               = length (values st1)).
  { rewrite length_app, length_map, length_seq, length_skipn. lia. }
  rewrite L1, L2.
  apply Nat.leb_le in Hks as Hks'. rewrite Hks', Hvs'. simpl bind.
  rewrite !firstn_prefix
    by (rewrite ?length_firstn, ?length_map, ?length_seq; lia).
  rewrite !skipn_prefix
    by (rewrite ?length_firstn, ?length_map, ?length_seq; lia).
  fold (sorted_pairs x size). fold s. cbv zeta. simpl fst. simpl snd.
  rewrite !copy_some;
    try assumption;
    try (rewrite length_app, length_map, length_skipn, Hs; lia).
  reflexivity.
Qed.

(** *** What a call with [k <= size] returns *)

Lemma map_snd_combine {A B : Type} (l1 : list A) (l2 : list B) :
  length l2 <= length l1 -> map snd (combine l1 l2) = l2.
Proof.
  revert l2. induction l1 as [|a l1 IH]; intros [|b l2] H; simpl in *;
    try reflexivity; try lia.
  f_equal. apply IH. lia.
Qed.

Lemma positions_NoDup start n : NoDup (positions start n).
Proof.
  unfold positions. apply Finite.Injective_map_NoDup.
  - intros a b. apply Nat2Z.inj.
  - apply seq_NoDup.
Qed.

Lemma sorted_pairs_perm x size :
  (Z.of_nat size <= INT_MAX + 1)%Z ->
  Permutation (sorted_pairs x size)
              (combine (firstn size x) (positions 0 size)).
Proof.
  intros Hint. unfold sorted_pairs. rewrite sequence_positions by exact Hint.
  apply stable_sort_perm.
Qed.

Lemma sorted_pairs_sorted x size :
  (Z.of_nat size <= INT_MAX + 1)%Z ->
  StronglySorted before (sorted_pairs x size).
Proof.
  intros Hint. unfold sorted_pairs. rewrite sequence_positions by exact Hint.
  apply stable_sort_sorted, combine_positions_sorted.
Qed.

Lemma sorted_pairs_In x size v i :
  (Z.of_nat size <= INT_MAX + 1)%Z -> size <= length x ->
  In (v, i) (sorted_pairs x size) <->
  exists p, p < size /\ i = Z.of_nat p /\ nth_error x p = Some v.
Proof.
  intros Hint Hx. split.
  - intros Hin.
    apply (Permutation_in _ (@sorted_pairs_perm x size Hint)) in Hin.
    apply In_combine_positions in Hin as (p & Hp & -> & Hnth).
    exists p. rewrite nth_error_firstn in Hnth.
    apply Nat.ltb_lt in Hp as Hp'. rewrite Hp' in Hnth. auto.
  - intros (p & Hp & -> & Hnth).
    apply (Permutation_in _ (Permutation_sym (@sorted_pairs_perm x size Hint))).
    apply In_combine_positions. exists p.
    rewrite nth_error_firstn.
    apply Nat.ltb_lt in Hp as Hp'. rewrite Hp'. auto.
Qed.

Lemma sorted_pairs_indices_NoDup x size :
  (Z.of_nat size <= INT_MAX + 1)%Z -> size <= length x ->
  NoDup (map snd (sorted_pairs x size)).
Proof.
  intros Hint Hx.
  apply (Permutation_NoDup
           (Permutation_map snd
              (Permutation_sym (@sorted_pairs_perm x size Hint)))).
  rewrite map_snd_combine.
  - apply positions_NoDup.
  - unfold positions. rewrite length_map, length_seq, length_firstn. lia.
Qed.

(** The call returns, and its outputs are the first [k] sorted pairs. *)
Lemma topk_outputs st x val ind k size :
  wf st -> allocatable size ->
  k <= size -> size <= length x ->
  k <= length val -> k <= length ind ->
  exists r,
    topk st x val ind k size = Some r /\
    firstn k (val_after r) = map fst (firstn k (sorted_pairs x size)) /\
    firstn k (ind_after r) = map snd (firstn k (sorted_pairs x size)) /\
    skipn k (val_after r) = skipn k val /\
    skipn k (ind_after r) = skipn k ind /\
    alloc_size (statics_after r) = Nat.max (alloc_size st) size /\
    wf (statics_after r) /\
    issued r = snd (reserve st size) ++
               [cudaMemcpyAsync (size_mul (Z.of_nat size) sizeof_T);
                thrust_sequence size;
                thrust_sort_by_key size;
                cudaMemcpyAsync (size_mul (Z.of_nat k) sizeof_T);
                cudaMemcpyAsync (size_mul (Z.of_nat k) sizeof_int)].
Proof.
  intros Hwf Halloc Hk Hx Hval Hind.
  destruct (reserve_bounds Hwf Halloc) as [Bk Bv].
  pose proof (sorted_pairs_length x Hx) as Hs.
  eexists. split; [apply topk_eval; (assumption || lia)|]. simpl.
  assert (P1 : forall (rest : list T),
             firstn k (map fst (sorted_pairs x size) ++ rest)
             = map fst (firstn k (sorted_pairs x size))).
  { intros rest. rewrite firstn_app, length_map, Hs.
    replace (k - size) with 0 by lia. simpl.
    rewrite app_nil_r. apply firstn_map. }
  assert (P2 : forall (rest : list Z),
             firstn k (map snd (sorted_pairs x size) ++ rest)
             = map snd (firstn k (sorted_pairs x size))).
  { intros rest. rewrite firstn_app, length_map, Hs.
    replace (k - size) with 0 by lia. simpl.
    rewrite app_nil_r. apply firstn_map. }
  rewrite P1, P2.
  assert (Lk : length (firstn k (sorted_pairs x size)) = k).
  { rewrite length_firstn, Hs. lia. }
  repeat split.
  - apply firstn_prefix. rewrite length_map. exact Lk.
  - apply firstn_prefix. rewrite length_map. exact Lk.
  - apply skipn_prefix. rewrite length_map. exact Lk.
  - apply skipn_prefix. rewrite length_map. exact Lk.
  - apply reserve_capacity.
  - simpl. rewrite length_app, length_map, length_skipn, Hs,
      reserve_capacity.
    destruct Hwf as [W1 W2]. unfold reserve in *.
    destruct (Nat.ltb_spec (alloc_size st) size); simpl in *; lia.
  - simpl. rewrite length_app, length_map, length_skipn, Hs,
      reserve_capacity.
    destruct Hwf as [W1 W2]. unfold reserve in *.
    destruct (Nat.ltb_spec (alloc_size st) size); simpl in *; lia.
Qed.

Lemma nth_map_fst j (l : list (T * Z)) :
  nth j (map fst l) uninit = fst (nth j l (uninit, 0%Z)).
Proof. apply (map_nth fst l (uninit, 0%Z) j). Qed.

Lemma nth_map_snd j (l : list (T * Z)) :
  nth j (map snd l) 0%Z = snd (nth j l (uninit, 0%Z)).
Proof. apply (map_nth snd l (uninit, 0%Z) j). Qed.

Lemma nth_firstn_lt {A : Type} j k (l : list A) d :
  j < k -> nth j (firstn k l) d = nth j l d.
Proof.
  intros H. rewrite nth_firstn. apply Nat.ltb_lt in H. rewrite H.
  reflexivity.
Qed.

(** C3.  For every input [x] of size [size] and every [k <= size], the
    call returns; its [k] values are elements of [x] at the [k]
    distinct positions returned as indices, in descending order, two
    entries none of whose values is greater than the other come with
    the smaller original index first, and no element of [x] that was
    not selected is greater than a selected one (an unselected element
    that ties with a selected one has the larger index). *)
Theorem topk_largest_descending_stable st x val ind k size :
  wf st -> allocatable size -> (Z.of_nat size <= INT_MAX + 1)%Z ->
  k <= size -> size <= length x ->
  k <= length val -> k <= length ind ->
  exists r,
    topk st x val ind k size = Some r /\
    let vs := firstn k (val_after r) in
    let ids := firstn k (ind_after r) in
    length vs = k /\ length ids = k /\ NoDup ids /\
    (forall j, j < k ->
       exists p, p < size /\ nth j ids 0%Z = Z.of_nat p /\
                 nth_error x p = Some (nth j vs uninit)) /\
    (forall i j, i < j -> j < k ->
       greater (nth j vs uninit) (nth i vs uninit) = false) /\
    (forall i j, i < j -> j < k ->
       greater (nth i vs uninit) (nth j vs uninit) = false ->
       (nth i ids 0 < nth j ids 0)%Z) /\
    (forall p v, p < size -> nth_error x p = Some v ->
       ~ In (Z.of_nat p) ids ->
       forall j, j < k ->
         greater v (nth j vs uninit) = false /\
         (greater (nth j vs uninit) v = false ->
          (nth j ids 0 < Z.of_nat p)%Z)).
Proof.
  intros Hwf Halloc Hint Hk Hx Hval Hind.
  destruct (@topk_outputs st x val ind k size Hwf Halloc Hk Hx Hval Hind)
    as (r & Hr & Hv & Hi & _).
  exists r. split; [exact Hr|]. cbv zeta. rewrite Hv, Hi.
  set (s := sorted_pairs x size).
  set (d := (uninit, 0%Z)).
  pose proof (sorted_pairs_length x Hx) as Hs. fold s in Hs.
  pose proof (@sorted_pairs_sorted x size Hint) as Hsorted. fold s in Hsorted.
  assert (Lk : length (firstn k s) = k)
    by (rewrite length_firstn; lia).
  assert (Hnth : forall j, j < k ->
            nth j (map fst (firstn k s)) uninit = fst (nth j s d) /\
            nth j (map snd (firstn k s)) 0%Z = snd (nth j s d)).
  { intros j Hj. rewrite nth_map_fst, nth_map_snd.
    fold d. rewrite nth_firstn_lt by exact Hj. auto. }
  split; [rewrite length_map; exact Lk|].
  split; [rewrite length_map; exact Lk|].
  split.
  { rewrite <- firstn_map.
    pose proof (@sorted_pairs_indices_NoDup x size Hint Hx) as N. fold s in N.
    rewrite <- (firstn_skipn k (map snd s)) in N.
    exact (NoDup_app_remove_r _ _ N). }
  split.
  { intros j Hj. destruct (Hnth j Hj) as [-> ->].
    assert (Hin : In (nth j s d) s) by (apply nth_In; lia).
    destruct (nth j s d) as [v i] eqn:E.
    apply (@sorted_pairs_In x size v i Hint Hx) in Hin.
    destruct Hin as (p & Hp & -> & Hxp). exists p. auto. }
  split.
  { intros i j Hij Hj.
    destruct (Hnth i ltac:(lia)) as [-> _].
    destruct (Hnth j Hj) as [-> _].
    apply before_not_greater, StronglySorted_nth; (assumption || lia). }
  split.
  { intros i j Hij Hj.
    destruct (Hnth i ltac:(lia)) as [-> ->].
    destruct (Hnth j Hj) as [-> ->].
    apply before_tie, StronglySorted_nth; (assumption || lia). }
  intros p v Hp Hxp Hnot j Hj.
  assert (Hin : In (v, Z.of_nat p) s).
  { apply (@sorted_pairs_In x size v (Z.of_nat p) Hint Hx). exists p. auto. }
  destruct (In_nth s (v, Z.of_nat p) d Hin) as (q & Hq & Eq).
  assert (Hkq : k <= q).
  { destruct (Nat.le_gt_cases k q) as [|Hlt]; [assumption|].
    exfalso. apply Hnot.
    replace (Z.of_nat p) with (nth q (map snd (firstn k s)) 0%Z).
    - apply nth_In. rewrite length_map. lia.
    - destruct (Hnth q Hlt) as [_ ->]. rewrite Eq. reflexivity. }
  destruct (Hnth j Hj) as [-> ->].
  assert (B : before (nth j s d) (nth q s d)).
  { apply StronglySorted_nth; (assumption || lia). }
  rewrite Eq in B. split.
  - apply (before_not_greater B).
  - intros G. apply (before_tie B G).
Qed.

(** *** The scratch cache along a history of calls *)

Lemma sequence_inv vs size vs' :
  sequence vs size = Some vs' ->
  size <= length vs /\ length vs' = length vs.
Proof.
  unfold sequence. destruct (Nat.leb_spec size (length vs)) as [H|H];
    [|discriminate].
  intros [= <-]. split; [assumption|].
  rewrite length_app, length_map, length_seq, length_skipn. lia.
Qed.

Lemma sort_by_key_inv ks vs size comp kv :
  sort_by_key ks vs size comp = Some kv ->
  size <= length ks /\ size <= length vs /\
  length (fst kv) = length ks /\ length (snd kv) = length vs.
Proof.
  unfold sort_by_key.
  destruct (Nat.leb_spec size (length ks)) as [Hk|Hk];
    [|discriminate].
  destruct (Nat.leb_spec size (length vs)) as [Hv|Hv];
    [|discriminate].
  simpl. intros [= <-]. simpl.
  rewrite !length_app, !length_map, !length_skipn, stable_sort_length,
    length_combine, !length_firstn.
  lia.
Qed.

(** A call that returns leaves the statics well formed, with the
    larger of the old capacity and the requested size as capacity. *)
Lemma topk_statics st x val ind k size r :
  wf st -> topk st x val ind k size = Some r ->
  wf (statics_after r) /\
  alloc_size (statics_after r) = Nat.max (alloc_size st) size.
Proof.
  intros [Wk Wv]. unfold topk.
  pose proof (reserve_capacity st size) as Hcap.
  assert (Hst1 : alloc_size st < size \/
                 fst (reserve st size) = st).
  { unfold reserve.
    destruct (Nat.ltb_spec (alloc_size st) size); simpl; auto. }
  destruct (reserve st size) as [st1 allocs]; simpl fst in *.
  intros H.
  apply bind_some in H as (keys1 & Hc & H).
  apply bind_some in H as (values1 & Hq & H).
  apply bind_some in H as (kv & Hsort & H).
  apply bind_some in H as (val' & _ & H).
  apply bind_some in H as (ind' & _ & H).
  injection H as <-. simpl.
  apply copy_length in Hc.
  apply sequence_inv in Hq as [_ Hq].
  apply sort_by_key_inv in Hsort as (S1 & S2 & L1 & L2).
  unfold wf; simpl. rewrite L1, L2, Hc, Hq in *.
  destruct Hst1 as [Hlt | ->]; lia.
Qed.

Lemma run_statics h : forall st st',
  wf st -> run st h = Some st' ->
  wf st' /\
  alloc_size st' = fold_left Nat.max (map arg_size h) (alloc_size st).
Proof.
  induction h as [|c h IH]; intros st st' Hwf; simpl.
  - intros [= <-]. auto.
  - intros H. apply bind_some in H as (r & Hr & H).
    destruct (topk_statics _ _ _ _ _ Hwf Hr) as [Hwf' Hcap].
    destruct (IH _ _ Hwf' H) as [Hwf'' Hcap''].
    split; [assumption|]. rewrite Hcap'', Hcap. reflexivity.
Qed.

(** A call whose accesses are all in range. *)
Definition call_ok (c : topk_call) : Prop :=
  allocatable (arg_size c) /\
  arg_k c <= arg_size c /\ arg_size c <= length (arg_x c) /\
  arg_k c <= length (arg_val c) /\ arg_k c <= length (arg_ind c).

Lemma run_total h : forall st,
  wf st -> Forall call_ok h -> exists st', run st h = Some st'.
Proof.
  induction h as [|c h IH]; intros st Hwf Hok; simpl.
  - eauto.
  - inversion Hok as [|? ? (Ha & Hk & Hx & Hv & Hi) Hok']; subst.
    destruct (@topk_outputs st (arg_x c) (arg_val c) (arg_ind c)
                (arg_k c) (arg_size c) Hwf Ha Hk Hx Hv Hi)
      as (r & Hr & _ & _ & _ & _ & _ & Hwf' & _).
    unfold call. rewrite Hr. simpl. apply IH; assumption.
Qed.

Lemma reserve_reuse st size :
  size <= alloc_size st -> reserve st size = (st, []).
Proof.
  intros H. unfold reserve.
  destruct (Nat.ltb_spec (alloc_size st) size); [lia | reflexivity].
Qed.

Lemma reserve_grow st size :
  alloc_size st < size ->
  reserve st size =
  ({| keys := device_alloc uninit
                (size_mul (Z.of_nat size) sizeof_T) sizeof_T;
      values := device_alloc uninit_index
                  (size_mul (Z.of_nat size) sizeof_int) sizeof_int;
      alloc_size := size |},
   [cudaFree; cudaMalloc (size_mul (Z.of_nat size) sizeof_T);
    cudaFree; cudaMalloc (size_mul (Z.of_nat size) sizeof_int)]).
Proof.
  intros H. unfold reserve.
  destruct (Nat.ltb_spec (alloc_size st) size); [reflexivity | lia].
Qed.

(** C10 (as amended).  For [k <= size], two histories of calls on a
    thread that end with [topk] on the same [x], [k] and [size] (and
    the same output buffers) both return, with identical values and
    indices: the statics left by the earlier calls do not influence
    the result. *)
Theorem topk_history_independent h1 h2 st1 st2 x val ind k size :
  run initial h1 = Some st1 -> run initial h2 = Some st2 ->
  allocatable size ->
  k <= size -> size <= length x ->
  k <= length val -> k <= length ind ->
  exists r1 r2,
    topk st1 x val ind k size = Some r1 /\
    topk st2 x val ind k size = Some r2 /\
    val_after r1 = val_after r2 /\
    ind_after r1 = ind_after r2.
Proof.
  intros H1 H2 Halloc Hk Hx Hval Hind.
  destruct (run_statics h1 initial_wf H1) as [W1 _].
  destruct (run_statics h2 initial_wf H2) as [W2 _].
  destruct (@topk_outputs st1 x val ind k size W1 Halloc Hk Hx Hval Hind)
    as (r1 & E1 & V1 & I1 & SV1 & SI1 & _).
  destruct (@topk_outputs st2 x val ind k size W2 Halloc Hk Hx Hval Hind)
    as (r2 & E2 & V2 & I2 & SV2 & SI2 & _).
  exists r1, r2. repeat split; try assumption.
  - rewrite <- (firstn_skipn k (val_after r1)),
      <- (firstn_skipn k (val_after r2)).
    congruence.
  - rewrite <- (firstn_skipn k (ind_after r1)),
      <- (firstn_skipn k (ind_after r2)).
    congruence.
Qed.

Lemma firstn_app_beyond {A : Type} (k : nat) (p q : list A) :
  length p <= k -> firstn k (p ++ q) = p ++ firstn (k - length p) q.
Proof.
  intros H. rewrite firstn_app, firstn_all2 by exact H. reflexivity.
Qed.

(** C2 (as amended).  [topk] does not compare [k] with [size].  For
    [k > size] with the copy-out inside the cached scratch buffers and
    the output buffers, the call returns normally: it issues the
    copy-in, the sequence, the sort and the two copy-outs of [k]
    elements, allocates nothing, and overwrites the first [k] entries
    of both outputs, the first [size] with the sorted pairs of [x] and
    the following [k - size] with what the scratch buffers held. *)
Theorem topk_k_beyond_size_runs st x val ind k size :
  wf st -> size < k -> k <= alloc_size st -> size <= length x ->
  k <= length val -> k <= length ind ->
  exists r,
    topk st x val ind k size = Some r /\
    issued r = [cudaMemcpyAsync (size_mul (Z.of_nat size) sizeof_T);
                thrust_sequence size;
                thrust_sort_by_key size;
                cudaMemcpyAsync (size_mul (Z.of_nat k) sizeof_T);
                cudaMemcpyAsync (size_mul (Z.of_nat k) sizeof_int)] /\
    alloc_size (statics_after r) = alloc_size st /\
    firstn size (val_after r) = map fst (sorted_pairs x size) /\
    firstn size (ind_after r) = map snd (sorted_pairs x size) /\
    firstn (k - size) (skipn size (val_after r))
    = firstn (k - size) (skipn size (keys st)) /\
    firstn (k - size) (skipn size (ind_after r))
    = firstn (k - size) (skipn size (values st)).
Proof.
  intros [Wk Wv] Hlt Hcap Hx Hval Hind.
  pose proof (sorted_pairs_length x Hx) as Hs.
  assert (Hre : reserve st size = (st, []))
    by (apply reserve_reuse; lia).
  eexists. split.
  { apply topk_eval; rewrite ?Hre; simpl; lia. }
  rewrite Hre. simpl.
  set (s := sorted_pairs x size) in *.
  assert (Lf : length (map fst s) = size) by (rewrite length_map; exact Hs).
  assert (Ls : length (map snd s) = size) by (rewrite length_map; exact Hs).
  rewrite (@firstn_app_beyond T k (map fst s)) by lia.
  rewrite (@firstn_app_beyond Z k (map snd s)) by lia.
  rewrite Lf, Ls.
  rewrite <- !app_assoc.
  rewrite !firstn_prefix, !skipn_prefix by assumption.
  repeat split.
  - apply firstn_prefix. rewrite length_firstn, length_skipn. lia.
  - apply firstn_prefix. rewrite length_firstn, length_skipn. lia.
Qed.

Lemma size_mul_small x y :
  fits_size_t (x * y)%Z -> size_mul x y = (x * y)%Z.
Proof.
  unfold fits_size_t, SIZE_MAX, size_mul, to_size_t. intros H.
  apply Z.mod_small. lia.
Qed.

(** One call on well-formed statics: the capacity becomes the larger
    of the old capacity and the requested size; a request within the
    capacity allocates nothing and keeps the buffers, a larger one
    frees both buffers and allocates them for exactly [size]
    elements. *)
Lemma topk_cache_step st c :
  wf st -> call_ok c ->
  exists r,
    call st c = Some r /\ wf (statics_after r) /\
    alloc_size (statics_after r)
    = Nat.max (alloc_size st) (arg_size c) /\
    (arg_size c <= alloc_size st ->
     existsb is_allocation (issued r) = false /\
     length (keys (statics_after r)) = length (keys st) /\
     length (values (statics_after r)) = length (values st)) /\
    (alloc_size st < arg_size c ->
     firstn 4 (issued r)
     = [cudaFree; cudaMalloc (Z.of_nat (arg_size c) * sizeof_T)%Z;
        cudaFree; cudaMalloc (Z.of_nat (arg_size c) * sizeof_int)%Z] /\
     length (keys (statics_after r)) = arg_size c /\
     length (values (statics_after r)) = arg_size c).
Proof.
  intros Hwf (Ha & Hk & Hx & Hv & Hi).
  destruct (reserve_bounds Hwf Ha) as [Bk Bv].
  pose proof (sorted_pairs_length (arg_x c) Hx) as Hs.
  destruct (@topk_outputs st (arg_x c) (arg_val c) (arg_ind c)
              (arg_k c) (arg_size c) Hwf Ha Hk Hx Hv Hi)
    as (r & Hr & _ & _ & _ & _ & Hcap & Hwf' & _).
  exists r. split; [exact Hr|]. split; [exact Hwf'|].
  split; [exact Hcap|].
  unfold call in Hr. rewrite topk_eval in Hr by lia.
  injection Hr as <-. cbn [statics_after issued keys values].
  rewrite !length_app, !length_map, !length_skipn, Hs.
  split.
  - intros Hle. rewrite reserve_reuse in * by exact Hle.
    cbn [fst snd] in *. split; [reflexivity|]. lia.
  - intros Hlt. rewrite reserve_grow in * by exact Hlt.
    cbn [fst snd keys values] in *.
    destruct Ha as [Fk Fv].
    rewrite !device_alloc_length;
      try assumption; try (unfold sizeof_int; lia).
    rewrite !size_mul_small by assumption.
    split; [reflexivity|]. lia.
Qed.

End Selector.

(** *** The instantiation at [T = int] (32 bits) *)

(** [thrust::greater<int>]. *)
Definition int_greater (a b : Z) : bool := (a >? b)%Z.

Lemma int_greater_irrefl a : int_greater a a = false.
Proof. unfold int_greater. rewrite Z.gtb_ltb. apply Z.ltb_irrefl. Qed.

Lemma int_greater_trans a b c :
  int_greater a b = true -> int_greater b c = true ->
  int_greater a c = true.
Proof. unfold int_greater. rewrite !Z.gtb_ltb, !Z.ltb_lt. lia. Qed.

Lemma int_greater_neg_trans a b c :
  int_greater a b = false -> int_greater b c = false ->
  int_greater a c = false.
Proof. unfold int_greater. rewrite !Z.gtb_ltb, !Z.ltb_ge. lia. Qed.

Lemma allocatable_small sz n :
  (0 < sz <= 16)%Z -> n <= 1000 -> allocatable sz n.
Proof.
  unfold allocatable, fits_size_t, SIZE_MAX, sizeof_int. intros Hsz Hn.
  assert (2 ^ 64 = 18446744073709551616)%Z by reflexivity. nia.
Qed.

Definition int_topk := topk 4 int_greater 0%Z 0%Z.
Definition int_run := run 4 int_greater 0%Z 0%Z.

Definition mk_call (x : list Z) (k : nat) : topk_call Z :=
  {| arg_x := x; arg_val := repeat 0%Z k; arg_ind := repeat 0%Z k;
     arg_k := k; arg_size := length x |}.

Lemma topk_largest_descending_stable_witness :
  exists r,
    int_topk (initial Z) [2; 7; 2; 7; 1]%Z [0; 0; 0]%Z [0; 0; 0]%Z 3 5
    = Some r /\
    val_after r = [7; 7; 2]%Z /\ ind_after r = [1; 3; 0]%Z.
Proof.
  destruct (@topk_largest_descending_stable Z 4 int_greater 0%Z 0%Z
              int_greater_irrefl int_greater_trans int_greater_neg_trans
              ltac:(lia) (initial Z) [2; 7; 2; 7; 1]%Z
              [0; 0; 0]%Z [0; 0; 0]%Z 3 5)
    as (r & Hr & _).
  - apply initial_wf.
  - apply allocatable_small; lia.
  - unfold INT_MAX. simpl. lia.
  - lia.
  - simpl; lia.
  - simpl; lia.
  - simpl; lia.
  - exists r. split; [exact Hr|].
    unfold int_topk. vm_compute in Hr. injection Hr as <-. split; reflexivity.
Defined.

(** C4.  On [x = [3,1,4,1,5,9,2,6]] with [k = 3] and [size = 8], [topk]
    returns the values [[9,6,5]] and the indices [[5,7,4]], whatever the
    state of the scratch cache and the previous contents of the output
    buffers. *)
Theorem topk_example junk junk_index st val ind :
  wf st -> 3 <= length val -> 3 <= length ind ->
  exists r,
    topk 4 int_greater junk junk_index st
         [3; 1; 4; 1; 5; 9; 2; 6]%Z val ind 3 8 = Some r /\
    firstn 3 (val_after r) = [9; 6; 5]%Z /\
    firstn 3 (ind_after r) = [5; 7; 4]%Z.
Proof.
  intros Hwf Hval Hind.
  destruct (@topk_outputs Z 4 int_greater junk junk_index ltac:(lia)
              st [3; 1; 4; 1; 5; 9; 2; 6]%Z val ind 3 8)
    as (r & Hr & Hv & Hi & _);
    try assumption; try (simpl; lia).
  - apply allocatable_small; lia.
  - exists r. split; [exact Hr|]. rewrite Hv, Hi. split; reflexivity.
Qed.

Lemma topk_example_witness :
  exists r,
    topk 4 int_greater 0%Z 0%Z (initial Z)
         [3; 1; 4; 1; 5; 9; 2; 6]%Z [0; 0; 0]%Z [0; 0; 0]%Z 3 8 = Some r /\
    firstn 3 (val_after r) = [9; 6; 5]%Z /\
    firstn 3 (ind_after r) = [5; 7; 4]%Z.
Proof.
  apply (@topk_example 0%Z 0%Z (initial Z) [0; 0; 0]%Z [0; 0; 0]%Z).
  - apply initial_wf.
  - simpl; lia.
  - simpl; lia.
Defined.

(** The statics left by a first call of size 3. *)
Definition after_987 : statics Z :=
  {| keys := [9; 8; 7]%Z; values := [0; 1; 2]%Z; alloc_size := 3 |}.
Definition after_543 : statics Z :=
  {| keys := [5; 4; 3]%Z; values := [0; 1; 2]%Z; alloc_size := 3 |}.

Lemma after_987_reached :
  int_run (initial Z) [mk_call [9; 8; 7]%Z 3] = Some after_987.
Proof. reflexivity. Qed.

Lemma after_543_reached :
  int_run (initial Z) [mk_call [5; 4; 3]%Z 3] = Some after_543.
Proof. reflexivity. Qed.

(** C2 as stated fails: after a call of size 3, a call with
    [k = 3 > size = 2] is not rejected; it returns, having issued five
    device operations and overwritten both output buffers. *)
Lemma topk_k_beyond_size_counterexample :
  int_run (initial Z) [mk_call [9; 8; 7]%Z 3] = Some after_987 /\
  exists r,
    int_topk after_987 [1; 2]%Z [0; 0; 0]%Z [0; 0; 0]%Z 3 2 = Some r /\
    issued r = [cudaMemcpyAsync 8; thrust_sequence 2; thrust_sort_by_key 2;
                cudaMemcpyAsync 12; cudaMemcpyAsync 12] /\
    val_after r = [2; 1; 7]%Z /\ val_after r <> [0; 0; 0]%Z /\
    ind_after r = [1; 0; 2]%Z /\ ind_after r <> [0; 0; 0]%Z.
Proof.
  split; [reflexivity|].
  eexists. split; [reflexivity|]. simpl.
  repeat split; discriminate.
Qed.

Lemma topk_k_beyond_size_runs_witness :
  exists r,
    int_topk after_987 [1; 2]%Z [0; 0; 0]%Z [0; 0; 0]%Z 3 2 = Some r /\
    firstn 2 (val_after r) = [2; 1]%Z /\
    firstn 1 (skipn 2 (val_after r)) = [7]%Z.
Proof.
  destruct (@topk_k_beyond_size_runs Z 4 int_greater 0%Z 0%Z after_987
              [1; 2]%Z [0; 0; 0]%Z [0; 0; 0]%Z 3 2)
    as (r & Hr & _ & _ & Hv & _ & Hs & _).
  - split; simpl; lia.
  - lia.
  - simpl; lia.
  - simpl; lia.
  - simpl; lia.
  - simpl; lia.
  - exists r. split; [exact Hr|]. split; [exact Hv | exact Hs].
Defined.

(** C10 as stated fails for [k > size]: the same final call
    [topk([1,2], k = 3, size = 2)] returns different values after two
    histories, because the third value is the stale third key. *)
Lemma topk_history_counterexample :
  int_run (initial Z) [mk_call [9; 8; 7]%Z 3] = Some after_987 /\
  int_run (initial Z) [mk_call [5; 4; 3]%Z 3] = Some after_543 /\
  exists r1 r2,
    int_topk after_987 [1; 2]%Z [0; 0; 0]%Z [0; 0; 0]%Z 3 2 = Some r1 /\
    int_topk after_543 [1; 2]%Z [0; 0; 0]%Z [0; 0; 0]%Z 3 2 = Some r2 /\
    val_after r1 = [2; 1; 7]%Z /\ val_after r2 = [2; 1; 3]%Z /\
    val_after r1 <> val_after r2.
Proof.
  split; [reflexivity|]. split; [reflexivity|].
  eexists. eexists. split; [reflexivity|]. split; [reflexivity|].
  simpl. repeat split; discriminate.
Qed.

Lemma topk_history_independent_witness :
  exists r1 r2,
    int_topk after_987 [1; 2; 3]%Z [0; 0]%Z [0; 0]%Z 2 3 = Some r1 /\
    int_topk after_543 [1; 2; 3]%Z [0; 0]%Z [0; 0]%Z 2 3 = Some r2 /\
    val_after r1 = val_after r2 /\ ind_after r1 = ind_after r2.
Proof.
  apply (@topk_history_independent Z 4 int_greater 0%Z 0%Z ltac:(lia)
           [mk_call [9; 8; 7]%Z 3] [mk_call [5; 4; 3]%Z 3]
           after_987 after_543 [1; 2; 3]%Z [0; 0]%Z [0; 0]%Z 2 3).
  - reflexivity.
  - reflexivity.
  - apply allocatable_small; lia.
  - lia.
  - simpl; lia.
  - simpl; lia.
  - simpl; lia.
Defined.

End TopK.

(** ** Transposition by index permutation *)

Module Transpose.
Import Machine.
Local Open Scope Z_scope.

(** [arr[i]] for an array of [size_t]. *)
Definition at_index (arr : list Z) (i : Z) : Z := nth (Z.to_nat i) arr 0.

(** The elements of [x] at the positions [idx], in that order. *)
Fixpoint gather {T : Type} (x : list T) (idx : list Z) : option (list T) :=
  match idx with
  | [] => Some []
  | i :: idx' =>
      v <- nth_error x (Z.to_nat i) ;;
      vs <- gather x idx' ;;
      Some (v :: vs)
  end.

(** [permute(x, y, size, perm_fun)]: [y[i] = x[perm_fun(i)]] for every
    [i < size]. *)
Definition permute {T : Type} (x y : list T) (size : Z)
           (perm_fun : Z -> Z) : option (list T) :=
  let n := Z.to_nat size in
  if (n <=? length y)%nat
  then
    vs <- gather x (map (fun i => perm_fun (Z.of_nat i)) (seq 0 n)) ;;
    Some (vs ++ skipn n y)
  else None.

(** [perm_indices_2d<T>::operator()]. *)
Definition perm_indices_2d (rows cols : Z) (i : Z) : Z :=
  let i0 := i / rows in
  let i1 := i mod rows in
  size_add (size_mul i1 cols) i0.

(** [primitives<Device::CUDA>::transpose_2d(a, dims, b)]. *)
Definition transpose_2d {T : Type} (a : list T) (dims : list Z)
           (b : list T) : option (list T) :=
  permute a b (size_mul (at_index dims 0) (at_index dims 1))
          (perm_indices_2d (at_index dims 0) (at_index dims 1)).

(** The members of [perm_indices_3d<T>]. *)
Record perm_indices_3d : Type := {
  a3_ps0 : Z; a3_ps1 : Z; a3_ps2 : Z;
  b3_d0 : Z; b3_d1 : Z; b3_d2 : Z;
  b3_s0 : Z; b3_s1 : Z; b3_s2 : Z
}.

(** The constructor [perm_indices_3d(dims, perm)]. *)
Definition make_perm_indices_3d (dims perm : list Z) : perm_indices_3d :=
  let a_stride :=
    [size_mul (at_index dims 1) (at_index dims 2); at_index dims 2; 1] in
  let d0 := at_index dims (at_index perm 0) in
  let d1 := at_index dims (at_index perm 1) in
  let d2 := at_index dims (at_index perm 2) in
  {| a3_ps0 := at_index a_stride (at_index perm 0);
     a3_ps1 := at_index a_stride (at_index perm 1);
     a3_ps2 := at_index a_stride (at_index perm 2);
     b3_d0 := d0; b3_d1 := d1; b3_d2 := d2;
     b3_s0 := size_mul d1 d2; b3_s1 := d2; b3_s2 := 1 |}.

(** [perm_indices_3d<T>::operator()]. *)
Definition apply_perm_indices_3d (f : perm_indices_3d) (i : Z) : Z :=
  let i0 := i / b3_s0 f in
  let i1 := i / b3_s1 f mod b3_d1 f in
  let i2 := i mod b3_d2 f in
  size_add (size_add (size_mul i0 (a3_ps0 f)) (size_mul i1 (a3_ps1 f)))
           (size_mul i2 (a3_ps2 f)).

(** [primitives<Device::CUDA>::transpose_3d(a, dims, perm, b)]. *)
Definition transpose_3d {T : Type} (a : list T) (dims perm : list Z)
           (b : list T) : option (list T) :=
  permute a b
          (size_mul (size_mul (at_index dims 0) (at_index dims 1))
                    (at_index dims 2))
          (apply_perm_indices_3d (make_perm_indices_3d dims perm)).

(** The members of [perm_indices_4d<T>]. *)
Record perm_indices_4d : Type := {
  a4_ps0 : Z; a4_ps1 : Z; a4_ps2 : Z; a4_ps3 : Z;
  b4_d0 : Z; b4_d1 : Z; b4_d2 : Z; b4_d3 : Z;
  b4_s0 : Z; b4_s1 : Z; b4_s2 : Z; b4_s3 : Z
}.

(** The constructor [perm_indices_4d(dims, perm)]. *)
Definition make_perm_indices_4d (dims perm : list Z) : perm_indices_4d :=
  let a_stride :=
    [size_mul (size_mul (at_index dims 1) (at_index dims 2))
              (at_index dims 3);
     size_mul (at_index dims 2) (at_index dims 3);
     at_index dims 3;
     1] in
  let d0 := at_index dims (at_index perm 0) in
  let d1 := at_index dims (at_index perm 1) in
  let d2 := at_index dims (at_index perm 2) in
  let d3 := at_index dims (at_index perm 3) in
  {| a4_ps0 := at_index a_stride (at_index perm 0);
     a4_ps1 := at_index a_stride (at_index perm 1);
     a4_ps2 := at_index a_stride (at_index perm 2);
     a4_ps3 := at_index a_stride (at_index perm 3);
     b4_d0 := d0; b4_d1 := d1; b4_d2 := d2; b4_d3 := d3;
     b4_s0 := size_mul (size_mul d1 d2) d3;
     b4_s1 := size_mul d2 d3;
     b4_s2 := d3;
     b4_s3 := 1 |}.

(** [perm_indices_4d<T>::operator()]; the returned expression is
    [i0 * _a_ps0 + i1 * _a_ps1 + i2 * _a_ps2 * i3 * _a_ps3]. *)
Definition apply_perm_indices_4d (f : perm_indices_4d) (i : Z) : Z :=
  let i0 := i / b4_s0 f in
  let i1 := i / b4_s1 f mod b4_d1 f in
  let i2 := i / b4_s2 f mod b4_d2 f in
  let i3 := i mod b4_d3 f in
  size_add (size_add (size_mul i0 (a4_ps0 f)) (size_mul i1 (a4_ps1 f)))
           (size_mul (size_mul (size_mul i2 (a4_ps2 f)) i3) (a4_ps3 f)).

(** [primitives<Device::CUDA>::transpose_4d(a, dims, perm, b)]. *)
Definition transpose_4d {T : Type} (a : list T) (dims perm : list Z)
           (b : list T) : option (list T) :=
  permute a b
          (size_mul (size_mul (size_mul (at_index dims 0) (at_index dims 1))
                              (at_index dims 2))
                    (at_index dims 3))
          (apply_perm_indices_4d (make_perm_indices_4d dims perm)).

(** The inverse of a permutation of [0 .. N-1]: position [perm[i]] of the
    inverse holds [i]. *)
Definition index_of (perm : list Z) (j : Z) : Z :=
  match find (fun i => at_index perm (Z.of_nat i) =? j)
             (seq 0 (length perm)) with
  | Some i => Z.of_nat i
  | None => 0
  end.

Definition inverse (perm : list Z) : list Z :=
  map (fun j => index_of perm (Z.of_nat j)) (seq 0 (length perm)).

(** The shape of the transposed tensor: [dims[perm[i]]] on axis [i]. *)
Definition permuted_dims (dims perm : list Z) : list Z :=
  map (at_index dims) perm.

(** The linear index of the coordinates [(x0, x1, x2)] in a row-major
    tensor whose two inner extents are [d1] and [d2]. *)
Definition ravel (d1 d2 x0 x1 x2 : Z) : Z := x0 * (d1 * d2) + x1 * d2 + x2.

(** The permutations of [{0, 1, 2}]. *)
Definition permutations_3 : list (list Z) :=
  [[0; 1; 2]; [0; 2; 1]; [1; 0; 2]; [1; 2; 0]; [2; 0; 1]; [2; 1; 0]].

(** *** Composition of two permuting passes *)

Lemma gather_some {T : Type} (x : list T) (idx : list Z) :
  (forall i, In i idx -> 0 <= i < Z.of_nat (length x)) ->
  exists vs,
    gather x idx = Some vs /\ length vs = length idx /\
    forall j, (j < length idx)%nat ->
              nth_error vs j = nth_error x (Z.to_nat (nth j idx 0)).
Proof.
  induction idx as [|i idx IH]; intros Hin.
  - exists []. simpl. repeat split. intros j Hj. lia.
  - destruct IH as (vs & Hvs & Hlen & Hnth).
    { intros i' Hi'. apply Hin. right. exact Hi'. }
    destruct (nth_error x (Z.to_nat i)) as [v|] eqn:E.
    + exists (v :: vs). simpl. rewrite E, Hvs. simpl.
      repeat split; [lia|].
      intros [|j] Hj; simpl; [symmetry; exact E | apply Hnth; lia].
    + apply nth_error_None in E.
      specialize (Hin i (or_introl eq_refl)). lia.
Qed.

Lemma permute_some {T : Type} (x y : list T) (size : Z) (f : Z -> Z) :
  (Z.to_nat size <= length y)%nat ->
  (forall i, 0 <= i < size -> 0 <= f i < Z.of_nat (length x)) ->
  exists vs,
    permute x y size f = Some (vs ++ skipn (Z.to_nat size) y) /\
    length vs = Z.to_nat size /\
    forall j, (j < Z.to_nat size)%nat ->
              nth_error vs j = nth_error x (Z.to_nat (f (Z.of_nat j))).
Proof.
  intros Hy Hf. unfold permute.
  apply Nat.leb_le in Hy as Hy'. rewrite Hy'.
  destruct (@gather_some T x
              (map (fun i => f (Z.of_nat i)) (seq 0 (Z.to_nat size))))
    as (vs & Hvs & Hlen & Hnth).
  { intros i Hi. apply in_map_iff in Hi as (j & <- & Hj).
    apply in_seq in Hj. apply Hf. lia. }
  rewrite length_map, length_seq in Hlen, Hnth.
  exists vs. rewrite Hvs. simpl. repeat split; [exact Hlen|].
  intros j Hj. rewrite (Hnth j Hj). f_equal. f_equal.
  rewrite (nth_indep _ 0 (f (Z.of_nat 0)))
    by (rewrite length_map, length_seq; exact Hj).
  rewrite (map_nth (fun i => f (Z.of_nat i))), seq_nth by exact Hj.
  reflexivity.
Qed.

(** Two passes whose index functions stay below [size] and compose to the
    identity give back the first [size] elements. *)
Lemma permute_roundtrip {T : Type} (x y z : list T) (size : Z)
      (f g : Z -> Z) :
  0 <= size ->
  size <= Z.of_nat (length x) -> size <= Z.of_nat (length y) ->
  size <= Z.of_nat (length z) ->
  (forall i, 0 <= i < size -> 0 <= f i < size) ->
  (forall i, 0 <= i < size -> 0 <= g i < size) ->
  (forall i, 0 <= i < size -> f (g i) = i) ->
  exists y1 z1,
    permute x y size f = Some y1 /\
    permute y1 z size g = Some z1 /\
    firstn (Z.to_nat size) z1 = firstn (Z.to_nat size) x.
Proof.
  intros Hsize Hx Hy Hz Hf Hg Hfg.
  destruct (@permute_some T x y size f) as (vs & Hp1 & Lvs & Nvs);
    [lia | intros i Hi; specialize (Hf i Hi); lia |].
  set (y1 := vs ++ skipn (Z.to_nat size) y) in *.
  assert (Ly1 : length y1 = length y).
  { unfold y1. rewrite length_app, length_skipn. lia. }
  destruct (@permute_some T y1 z size g) as (ws & Hp2 & Lws & Nws);
    [lia | intros i Hi; specialize (Hg i Hi); lia |].
  exists y1, (ws ++ skipn (Z.to_nat size) z).
  split; [exact Hp1|]. split; [exact Hp2|].
  rewrite firstn_app, Lws, Nat.sub_diag, firstn_all2 by lia.
  simpl. rewrite app_nil_r.
  apply nth_error_ext. intros j. rewrite nth_error_firstn.
  destruct (Nat.ltb_spec j (Z.to_nat size)) as [Hj|Hj].
  - rewrite (Nws j Hj).
    specialize (Hg (Z.of_nat j) ltac:(lia)).
    unfold y1. rewrite nth_error_app1 by lia.
    rewrite Nvs by lia. rewrite Z2Nat.id by lia.
    rewrite Hfg by lia. rewrite Nat2Z.id. reflexivity.
  - apply nth_error_None. lia.
Qed.

(** *** Unwrapped index arithmetic *)

Lemma to_size_t_small z : 0 <= z <= SIZE_MAX -> to_size_t z = z.
Proof.
  unfold SIZE_MAX, to_size_t. intros H. apply Z.mod_small. lia.
Qed.

Lemma div_mod_pair q t r :
  0 <= t < r -> (q * r + t) / r = q /\ (q * r + t) mod r = t.
Proof.
  intros H. split.
  - rewrite Z.add_comm, Z.div_add by lia. rewrite Z.div_small by lia. lia.
  - rewrite Z.add_comm, Z.mod_add by lia. apply Z.mod_small. lia.
Qed.

Lemma perm_indices_2d_exact rows cols i :
  0 < rows -> 0 < cols -> rows * cols <= SIZE_MAX -> 0 <= i < rows * cols ->
  perm_indices_2d rows cols i = (i mod rows) * cols + i / rows /\
  0 <= (i mod rows) * cols + i / rows < rows * cols.
Proof.
  intros Hr Hc Hfit Hi.
  pose proof (Z.mod_pos_bound i rows Hr) as Hmod.
  assert (Hdiv : 0 <= i / rows < cols).
  { split; [apply Z.div_pos; lia|].
    apply Z.div_lt_upper_bound; lia. }
  assert (Hb : 0 <= i mod rows * cols + i / rows < rows * cols) by nia.
  split; [|exact Hb].
  unfold perm_indices_2d, size_add, size_mul.
  rewrite (@to_size_t_small (i mod rows * cols)) by nia.
  apply to_size_t_small. lia.
Qed.

(** Round trip on two axes: transposing a [rows] by [cols] matrix and then
    the [cols] by [rows] result reproduces the matrix. *)
Lemma transpose_2d_roundtrip {T : Type} (a b a0 : list T) (rows cols : Z) :
  0 < rows -> 0 < cols -> rows * cols <= SIZE_MAX ->
  rows * cols <= Z.of_nat (length a) ->
  rows * cols <= Z.of_nat (length b) ->
  rows * cols <= Z.of_nat (length a0) ->
  exists b1 a1,
    transpose_2d a [rows; cols] b = Some b1 /\
    transpose_2d b1 [cols; rows] a0 = Some a1 /\
    firstn (Z.to_nat (rows * cols)) a1 = firstn (Z.to_nat (rows * cols)) a.
Proof.
  intros Hr Hc Hfit La Lb La0. unfold transpose_2d.
  change (at_index [rows; cols] 0) with rows.
  change (at_index [rows; cols] 1) with cols.
  change (at_index [cols; rows] 0) with cols.
  change (at_index [cols; rows] 1) with rows.
  unfold size_mul. rewrite (Z.mul_comm cols rows).
  rewrite to_size_t_small by nia.
  apply permute_roundtrip; try lia.
  - intros i Hi.
    destruct (@perm_indices_2d_exact rows cols i Hr Hc Hfit Hi) as [-> Hb].
    exact Hb.
  - intros i Hi.
    destruct (@perm_indices_2d_exact cols rows i Hc Hr) as [-> Hb]; lia.
  - intros i Hi.
    destruct (@perm_indices_2d_exact cols rows i Hc Hr) as [E Hb];
      [lia | lia |].
    rewrite E.
    destruct (@perm_indices_2d_exact rows cols
                (i mod cols * rows + i / cols) Hr Hc Hfit) as [-> _];
      [lia|].
    assert (Hq : 0 <= i / cols < rows).
    { split; [apply Z.div_pos; lia|].
      apply Z.div_lt_upper_bound; lia. }
    destruct (@div_mod_pair (i mod cols) (i / cols) rows Hq) as [-> ->].
    pose proof (Z.div_mod i cols ltac:(lia)). lia.
Qed.

(** *** Three axes *)

Lemma unravel3 d1 d2 x0 x1 x2 :
  0 <= x1 < d1 -> 0 <= x2 < d2 ->
  ravel d1 d2 x0 x1 x2 / (d1 * d2) = x0 /\
  ravel d1 d2 x0 x1 x2 / d2 mod d1 = x1 /\
  ravel d1 d2 x0 x1 x2 mod d2 = x2.
Proof.
  intros H1 H2. unfold ravel.
  replace (x0 * (d1 * d2) + x1 * d2 + x2) with ((x0 * d1 + x1) * d2 + x2)
    by ring.
  destruct (@div_mod_pair (x0 * d1 + x1) x2 d2 H2) as [Ed Em].
  destruct (@div_mod_pair x0 x1 d1 H1) as [Ed' Em'].
  rewrite (Z.mul_comm d1 d2), <- Z.div_div by lia.
  rewrite Ed, Ed', Em, Em'. auto.
Qed.

Lemma ravel3 d0 d1 d2 i :
  0 < d1 -> 0 < d2 -> 0 <= i < d0 * d1 * d2 ->
  i = ravel d1 d2 (i / (d1 * d2)) (i / d2 mod d1) (i mod d2) /\
  0 <= i / (d1 * d2) < d0 /\
  0 <= i / d2 mod d1 < d1 /\
  0 <= i mod d2 < d2.
Proof.
  intros H1 H2 Hi. unfold ravel.
  pose proof (Z.mod_pos_bound i d2 H2) as B2.
  pose proof (Z.mod_pos_bound (i / d2) d1 H1) as B1.
  pose proof (Z.div_mod i d2 ltac:(lia)) as E2.
  pose proof (Z.div_mod (i / d2) d1 ltac:(lia)) as E1.
  rewrite (Z.mul_comm d1 d2), <- Z.div_div by lia.
  assert (0 <= i / d2 / d1 < d0).
  { split; [apply Z.div_pos; [apply Z.div_pos|]; lia|].
    apply Z.div_lt_upper_bound; [lia|].
    apply Z.div_lt_upper_bound; [lia|]. nia. }
  repeat split; lia.
Qed.

Lemma ravel_bound d0 d1 d2 x0 x1 x2 :
  0 <= x0 < d0 -> 0 <= x1 < d1 -> 0 <= x2 < d2 ->
  0 <= ravel d1 d2 x0 x1 x2 < d0 * d1 * d2.
Proof.
  unfold ravel. intros H0 H1 H2.
  assert (A1 : 0 <= x1 * d2 + x2 < d1 * d2) by nia.
  assert (A0 : 0 <= x0 * (d1 * d2) <= (d0 - 1) * (d1 * d2)).
  { split; [apply Z.mul_nonneg_nonneg; nia|].
    apply Z.mul_le_mono_nonneg_r; nia. }
  nia.
Qed.

Lemma at3_0 (a b c : Z) : at_index [a; b; c] 0 = a.
Proof. reflexivity. Qed.
Lemma at3_1 (a b c : Z) : at_index [a; b; c] 1 = b.
Proof. reflexivity. Qed.
Lemma at3_2 (a b c : Z) : at_index [a; b; c] 2 = c.
Proof. reflexivity. Qed.

Lemma apply_perm_indices_3d_exact f i :
  0 <= i / b3_s0 f * a3_ps0 f ->
  0 <= i / b3_s1 f mod b3_d1 f * a3_ps1 f ->
  0 <= i mod b3_d2 f * a3_ps2 f ->
  i / b3_s0 f * a3_ps0 f + i / b3_s1 f mod b3_d1 f * a3_ps1 f
  + i mod b3_d2 f * a3_ps2 f <= SIZE_MAX ->
  apply_perm_indices_3d f i
  = i / b3_s0 f * a3_ps0 f + i / b3_s1 f mod b3_d1 f * a3_ps1 f
    + i mod b3_d2 f * a3_ps2 f.
Proof.
  intros H0 H1 H2 Hs. unfold apply_perm_indices_3d, size_add, size_mul.
  rewrite (@to_size_t_small (i / b3_s0 f * a3_ps0 f)) by lia.
  rewrite (@to_size_t_small (i / b3_s1 f mod b3_d1 f * a3_ps1 f)) by lia.
  rewrite (@to_size_t_small (i mod b3_d2 f * a3_ps2 f)) by lia.
  rewrite (@to_size_t_small (i / b3_s0 f * a3_ps0 f
                             + i / b3_s1 f mod b3_d1 f * a3_ps1 f)) by lia.
  apply to_size_t_small. lia.
Qed.


Ltac fields_3d :=
  cbn [a3_ps0 a3_ps1 a3_ps2 b3_d0 b3_d1 b3_d2 b3_s0 b3_s1 b3_s2] in *.

Lemma descriptor_exact D0 D1 D2 S0 S1 S2 bound i :
  0 < D1 -> 0 < D2 -> 0 <= i < D0 * D1 * D2 ->
  bound <= SIZE_MAX + 1 ->
  (forall y0 y1 y2, 0 <= y0 < D0 -> 0 <= y1 < D1 -> 0 <= y2 < D2 ->
      0 <= y0 * S0 /\ 0 <= y1 * S1 /\ 0 <= y2 * S2 /\
      y0 * S0 + y1 * S1 + y2 * S2 < bound) ->
  let f := {| a3_ps0 := S0; a3_ps1 := S1; a3_ps2 := S2;
              b3_d0 := D0; b3_d1 := D1; b3_d2 := D2;
              b3_s0 := D1 * D2; b3_s1 := D2; b3_s2 := 1 |} in
  apply_perm_indices_3d f i
  = i / (D1 * D2) * S0 + i / D2 mod D1 * S1 + i mod D2 * S2 /\
  0 <= apply_perm_indices_3d f i < bound.
Proof.
  intros H1 H2 Hi Hfit Hw f.
  destruct (@ravel3 D0 D1 D2 i H1 H2 Hi) as (_ & B0 & B1 & B2).
  destruct (Hw _ _ _ B0 B1 B2) as (N0 & N1 & N2 & Hlt).
  assert (E : apply_perm_indices_3d f i
              = i / (D1 * D2) * S0 + i / D2 mod D1 * S1 + i mod D2 * S2).
  { apply apply_perm_indices_3d_exact; unfold f; fields_3d; lia. }
  split; [exact E|]. rewrite E. lia.
Qed.

(** The weighted sum of three in-range coordinates, whatever the order of
    the axes, is a linear index of the tensor. *)
Ltac ravel_bound_by D0 D1 D2 y0 y1 y2 B0 B1 B2 :=
  let RB := fresh "RB" in
  pose proof (@ravel_bound D0 D1 D2 y0 y1 y2 B0 B1 B2) as RB;
  unfold ravel in RB; lia.

Ltac weights_in_range :=
  let y0 := fresh "y" in
  let y1 := fresh "y" in
  let y2 := fresh "y" in
  let B0 := fresh "B" in
  let B1 := fresh "B" in
  let B2 := fresh "B" in
  intros y0 y1 y2 B0 B1 B2;
  repeat split; try (apply Z.mul_nonneg_nonneg; nia);
  match type of B0 with
  | _ <= _ < ?D0 =>
      match type of B1 with
      | _ <= _ < ?D1 =>
          match type of B2 with
          | _ <= _ < ?D2 =>
              first
                [ ravel_bound_by D0 D1 D2 y0 y1 y2 B0 B1 B2
                | ravel_bound_by D0 D2 D1 y0 y2 y1 B0 B2 B1
                | ravel_bound_by D1 D0 D2 y1 y0 y2 B1 B0 B2
                | ravel_bound_by D1 D2 D0 y1 y2 y0 B1 B2 B0
                | ravel_bound_by D2 D0 D1 y2 y0 y1 B2 B0 B1
                | ravel_bound_by D2 D1 D0 y2 y1 y0 B2 B1 B0 ]
          end
      end
  end.

Lemma descriptor_at_ravel D0 D1 D2 S0 S1 S2 bound y0 y1 y2 :
  0 <= y0 < D0 -> 0 <= y1 < D1 -> 0 <= y2 < D2 ->
  bound <= SIZE_MAX + 1 ->
  (forall y0 y1 y2, 0 <= y0 < D0 -> 0 <= y1 < D1 -> 0 <= y2 < D2 ->
      0 <= y0 * S0 /\ 0 <= y1 * S1 /\ 0 <= y2 * S2 /\
      y0 * S0 + y1 * S1 + y2 * S2 < bound) ->
  apply_perm_indices_3d
    {| a3_ps0 := S0; a3_ps1 := S1; a3_ps2 := S2;
       b3_d0 := D0; b3_d1 := D1; b3_d2 := D2;
       b3_s0 := D1 * D2; b3_s1 := D2; b3_s2 := 1 |}
    (ravel D1 D2 y0 y1 y2)
  = y0 * S0 + y1 * S1 + y2 * S2.
Proof.
  intros B0 B1 B2 Hfit Hw.
  pose proof (@ravel_bound D0 D1 D2 y0 y1 y2 B0 B1 B2) as RB.
  destruct (@descriptor_exact D0 D1 D2 S0 S1 S2 bound
              (ravel D1 D2 y0 y1 y2)) as [E _]; try assumption; try lia.
  rewrite E.
  destruct (@unravel3 D1 D2 y0 y1 y2 B1 B2) as (-> & -> & ->).
  reflexivity.
Qed.

(** A weighted sum of the coordinates is the linear index of the permuted
    coordinates in the permuted shape. *)
Ltac as_ravel D1 D2 x0 x1 x2 :=
  match goal with
  | |- apply_perm_indices_3d _ ?t = _ =>
      first
        [ replace t with (ravel D1 D2 x0 x1 x2) by (unfold ravel; ring)
        | replace t with (ravel D1 D2 x0 x2 x1) by (unfold ravel; ring)
        | replace t with (ravel D1 D2 x1 x0 x2) by (unfold ravel; ring)
        | replace t with (ravel D1 D2 x1 x2 x0) by (unfold ravel; ring)
        | replace t with (ravel D1 D2 x2 x0 x1) by (unfold ravel; ring)
        | replace t with (ravel D1 D2 x2 x1 x0) by (unfold ravel; ring) ]
  end.

Ltac reduce_descriptors :=
  unfold permuted_dims, make_perm_indices_3d; cbn [map];
  repeat (rewrite at3_0 || rewrite at3_1 || rewrite at3_2);
  unfold size_mul; rewrite ?to_size_t_small by nia.

Lemma perm_indices_3d_inverse d0 d1 d2 perm :
  0 < d0 -> 0 < d1 -> 0 < d2 -> d0 * d1 * d2 <= SIZE_MAX ->
  In perm permutations_3 ->
  let f := apply_perm_indices_3d (make_perm_indices_3d [d0; d1; d2] perm) in
  let g := apply_perm_indices_3d
             (make_perm_indices_3d (permuted_dims [d0; d1; d2] perm)
                                   (inverse perm)) in
  (forall i, 0 <= i < d0 * d1 * d2 -> 0 <= f i < d0 * d1 * d2) /\
  (forall i, 0 <= i < d0 * d1 * d2 -> 0 <= g i < d0 * d1 * d2) /\
  (forall i, 0 <= i < d0 * d1 * d2 -> f (g i) = i).
Proof.
  intros H0 H1 H2 Hfit Hperm f g. subst f g.
  unfold permutations_3 in Hperm. simpl In in Hperm.
  repeat (destruct Hperm as [<- | Hperm]); [.. | contradiction];
    match goal with
    | |- context [inverse ?p] =>
        let v := eval vm_compute in (inverse p) in
        change (inverse p) with v
    end;
    reduce_descriptors.
  all: split; [|split]; intros i Hi.
  all: try (apply descriptor_exact; try lia; weights_in_range).
  all: destruct (@ravel3 d0 d1 d2 i H1 H2 Hi) as (E & X0 & X1 & X2).
  all: match goal with
       | |- apply_perm_indices_3d _
              (apply_perm_indices_3d
                 (Build_perm_indices_3d ?S0 ?S1 ?S2 _ _ _ _ _ _) ?j) = _ =>
           destruct (@descriptor_exact d0 d1 d2 S0 S1 S2 (d0 * d1 * d2) j)
             as [Eg _];
           [lia | lia | lia | lia | weights_in_range |];
           rewrite Eg; clear Eg
       end.
  all: set (x0 := i / (d1 * d2)) in *; set (x1 := i / d2 mod d1) in *;
    set (x2 := i mod d2) in *; clearbody x0 x1 x2.
  all: match goal with
       | |- apply_perm_indices_3d
              (Build_perm_indices_3d ?S0 ?S1 ?S2 ?D0 ?D1 ?D2 _ _ _) _ = _ =>
           as_ravel D1 D2 x0 x1 x2;
           rewrite (@descriptor_at_ravel D0 D1 D2 S0 S1 S2 (d0 * d1 * d2));
           [ unfold ravel in E; lia | lia | lia | lia | lia
           | weights_in_range ]
       end.
Qed.

Lemma transpose_3d_sizes d0 d1 d2 perm :
  0 < d0 -> 0 < d1 -> 0 < d2 -> d0 * d1 * d2 <= SIZE_MAX ->
  In perm permutations_3 ->
  size_mul (size_mul (at_index [d0; d1; d2] 0) (at_index [d0; d1; d2] 1))
           (at_index [d0; d1; d2] 2) = d0 * d1 * d2 /\
  size_mul (size_mul (at_index (permuted_dims [d0; d1; d2] perm) 0)
                     (at_index (permuted_dims [d0; d1; d2] perm) 1))
           (at_index (permuted_dims [d0; d1; d2] perm) 2) = d0 * d1 * d2.
Proof.
  intros H0 H1 H2 Hfit Hperm.
  unfold permutations_3 in Hperm. simpl In in Hperm.
  repeat (destruct Hperm as [<- | Hperm]); [.. | contradiction];
    unfold permuted_dims; cbn [map];
    repeat (rewrite at3_0 || rewrite at3_1 || rewrite at3_2);
    unfold size_mul;
    repeat match goal with
           | |- context [to_size_t (?x * ?y)] =>
               lazymatch x with
               | context [to_size_t] => fail
               | _ => rewrite (@to_size_t_small (x * y)) by nia
               end
           end;
    split; ring.
Qed.

(** Round trip on three axes: transposing by any permutation of the axes
    and then by its inverse reproduces the tensor. *)
Lemma transpose_3d_roundtrip {T : Type} (a b a0 : list T) (d0 d1 d2 : Z)
      (perm : list Z) :
  0 < d0 -> 0 < d1 -> 0 < d2 -> d0 * d1 * d2 <= SIZE_MAX ->
  In perm permutations_3 ->
  d0 * d1 * d2 <= Z.of_nat (length a) ->
  d0 * d1 * d2 <= Z.of_nat (length b) ->
  d0 * d1 * d2 <= Z.of_nat (length a0) ->
  exists b1 a1,
    transpose_3d a [d0; d1; d2] perm b = Some b1 /\
    transpose_3d b1 (permuted_dims [d0; d1; d2] perm) (inverse perm) a0
    = Some a1 /\
    firstn (Z.to_nat (d0 * d1 * d2)) a1
    = firstn (Z.to_nat (d0 * d1 * d2)) a.
Proof.
  intros H0 H1 H2 Hfit Hperm La Lb La0. unfold transpose_3d.
  destruct (@transpose_3d_sizes d0 d1 d2 perm H0 H1 H2 Hfit Hperm)
    as [-> ->].
  destruct (@perm_indices_3d_inverse d0 d1 d2 perm H0 H1 H2 Hfit Hperm)
    as (Hf & Hg & Hfg).
  apply permute_roundtrip; (assumption || nia).
Qed.

(** The 2x3 matrix [[1,2,3],[4,5,6]] transposed is [[1,4],[2,5],[3,6]]. *)
Example transpose_2d_example :
  transpose_2d [1; 2; 3; 4; 5; 6] [2; 3] [0; 0; 0; 0; 0; 0]
  = Some [1; 4; 2; 5; 3; 6].
Proof. reflexivity. Qed.

Example transpose_3d_example :
  (b <- transpose_3d [1; 2; 3; 4; 5; 6; 7; 8; 9; 10; 11; 12] [2; 2; 3]
                     [1; 2; 0] (repeat 0 12) ;;
   transpose_3d b (permuted_dims [2; 2; 3] [1; 2; 0]) (inverse [1; 2; 0])
                (repeat 0 12))
  = Some [1; 2; 3; 4; 5; 6; 7; 8; 9; 10; 11; 12].
Proof. reflexivity. Qed.

(** *** Four axes *)

(** C1 fails for N = 4.  On the 1x1x2x2 tensor [[10,20,30,40]] the
    identity permutation, whose inverse is itself, does not reproduce
    the tensor: output index 1 reads input index 0, because the fourth
    term is multiplied into the third instead of added, and the round
    trip returns [[10,10,10,10]].  On a 1x1x2x4 tensor with the last two
    axes exchanged, output index 7 reads input index 12, past the end of
    the 8 elements. *)
Theorem transpose_4d_roundtrip_defect :
  inverse [0; 1; 2; 3] = [0; 1; 2; 3] /\
  apply_perm_indices_4d (make_perm_indices_4d [1; 1; 2; 2] [0; 1; 2; 3]) 1
  = 0 /\
  transpose_4d [10; 20; 30; 40] [1; 1; 2; 2] [0; 1; 2; 3] [0; 0; 0; 0]
  = Some [10; 10; 10; 30] /\
  (b <- transpose_4d [10; 20; 30; 40] [1; 1; 2; 2] [0; 1; 2; 3]
                     [0; 0; 0; 0] ;;
   transpose_4d b (permuted_dims [1; 1; 2; 2] [0; 1; 2; 3])
                (inverse [0; 1; 2; 3]) [0; 0; 0; 0])
  = Some [10; 10; 10; 10] /\
  apply_perm_indices_4d (make_perm_indices_4d [1; 1; 2; 4] [0; 1; 3; 2]) 7
  = 12 /\
  transpose_4d [1; 2; 3; 4; 5; 6; 7; 8] [1; 1; 2; 4] [0; 1; 3; 2]
               (repeat 0 8) = None.
Proof. repeat split; reflexivity. Qed.

End Transpose.

(** ** Matrix multiplication through cuBLAS *)

Module Gemm.
Import Machine Buffers Device.
Local Open Scope Z_scope.

Inductive cublasOperation_t : Type := CUBLAS_OP_N | CUBLAS_OP_T.

Section Scalars.
(** The scalars ([float] in the source) with their zero, sum and
    product. *)
Variable R : Type.
Variable zero : R.
Variables fadd fmul : R -> R -> R.

(** Device memory holding scalars, addressed in units of one scalar;
    a [float*] is an address. *)
Definition memory : Type := Z -> R.

(** Element [(r, c)] of [op(X)] for a column-major matrix at address
    [X] with leading dimension [ld]. *)
Definition op_elem (mem : memory) (trans : cublasOperation_t)
           (X ld r c : Z) : R :=
  match trans with
  | CUBLAS_OP_N => mem (X + (r + c * ld))
  | CUBLAS_OP_T => mem (X + (c + r * ld))
  end.

(** [f 0 * g 0 + ... + f (k-1) * g (k-1)], summed from the left. *)
Definition dot (k : Z) (f : Z -> R) : R :=
  fold_left (fun acc l => fadd acc (f (Z.of_nat l)))
            (seq 0 (Z.to_nat k)) zero.

(** [cublasSgemm]: [C = alpha * op(A) * op(B) + beta * C] on
    column-major matrices, [op(A)] of [m] by [k], [op(B)] of [k] by
    [n], [C] of [m] by [n] with leading dimension [ldc]. *)
Definition cublasSgemm (transa transb : cublasOperation_t) (m n k : Z)
           (alpha : R) (A lda B ldb : Z) (beta : R) (C ldc : Z)
           (mem : memory) : memory :=
  fun p =>
    let off := p - C in
    let i := off mod ldc in
    let j := off / ldc in
    if (0 <=? off) && (i <? m) && (j <? n)
    then fadd (fmul alpha
                    (dot k (fun l => fmul (op_elem mem transa A lda i l)
                                          (op_elem mem transb B ldb l j))))
              (fmul beta (mem p))
    else mem p.

(** [primitives<Device::CUDA>::gemm]. *)
Definition gemm (a b : Z) (transpose_a transpose_b : bool) (m n k : Z)
           (alpha beta : R) (c : Z) (mem : memory) : memory :=
  let lda := to_int (if transpose_a then m else k) in
  let ldb := to_int (if transpose_b then k else n) in
  let ldc := to_int n in
  let transa := if transpose_a then CUBLAS_OP_T else CUBLAS_OP_N in
  let transb := if transpose_b then CUBLAS_OP_T else CUBLAS_OP_N in
  cublasSgemm transb transa (to_int n) (to_int m) (to_int k)
              alpha b ldb a lda beta c ldc mem.

(** The row-major contract: element [(i, l)] of [op(x)], where [op(x)]
    has [rows] rows and [cols] columns and [x] is stored row-major,
    transposed when the flag is set. *)
Definition row_major_op (mem : memory) (transpose : bool)
           (x rows cols i l : Z) : R :=
  if transpose then mem (x + (l * rows + i))
  else mem (x + (i * cols + l)).

(** [c = alpha * op(a) * op(b) + beta * c] on the row-major [m] by [n]
    matrix at [c]. *)
Definition gemm_spec (a b : Z) (transpose_a transpose_b : bool)
           (m n k : Z) (alpha beta : R) (c : Z) (mem : memory)
  : memory :=
  fun p =>
    let off := p - c in
    if (0 <=? off) && (off <? m * n)
    then
      let i := off / n in
      let j := off mod n in
      fadd (fmul alpha
              (dot k (fun l =>
                        fmul (row_major_op mem transpose_a a m k i l)
                             (row_major_op mem transpose_b b k n l j))))
           (fmul beta (mem p))
    else mem p.

(** [cublasSgemmBatched]: the product of every batch entry, on the
    operands its three pointer arrays name. *)
Definition cublasSgemmBatched (transa transb : cublasOperation_t)
           (m n k : Z) (alpha : R) (Aarray : list Z) (lda : Z)
           (Barray : list Z) (ldb : Z) (beta : R) (Carray : list Z)
           (ldc : Z) (batchCount : Z) (mem : memory) : option memory :=
  let count := Z.to_nat batchCount in
  if ((count <=? length Aarray) && (count <=? length Barray)
      && (count <=? length Carray))%nat
  then
    Some (fold_left
            (fun mem i =>
               cublasSgemm transa transb m n k alpha
                           (nth i Aarray 0) lda (nth i Barray 0) ldb
                           beta (nth i Carray 0) ldc mem)
            (seq 0 count) mem)
  else None.

(** The [static thread_local] variables of [gemm_batch]; [alloc_size]
    counts bytes. *)
Record statics : Type := {
  a_array_device : list Z;
  b_array_device : list Z;
  c_array_device : list Z;
  alloc_size : Z
}.

Definition initial : statics :=
  {| a_array_device := []; b_array_device := []; c_array_device := [];
     alloc_size := 0 |}.

(** Lines 297-307: the pointer tables are replaced when the batch
    needs more bytes than are cached. *)
Definition reserve (st : statics) (array_size : Z)
  : statics * list cuda_call :=
  if alloc_size st <? array_size
  then
    ({| a_array_device := device_alloc 0 array_size sizeof_pointer;
        b_array_device := device_alloc 0 array_size sizeof_pointer;
        c_array_device := device_alloc 0 array_size sizeof_pointer;
        alloc_size := array_size |},
     [cudaFree; cudaFree; cudaFree;
      cudaMalloc array_size; cudaMalloc array_size;
      cudaMalloc array_size])
  else (st, []).

(** The host pointer table [base + i * rows * cols], [i < batch_size]. *)
Definition pointer_table (base : Z) (batch_size : nat) (rows cols : Z)
  : list Z :=
  map (fun i => base + size_mul (size_mul (Z.of_nat i) rows) cols)
      (seq 0 batch_size).

Record gemm_batch_result : Type := {
  statics_after : statics;
  memory_after : memory;
  issued : list cuda_call
}.

(** [primitives<Device::CUDA>::gemm_batch]. *)
Definition gemm_batch (st : statics) (a b : Z)
           (transpose_a transpose_b : bool) (batch_size : nat)
           (m n k : Z) (alpha beta : R) (c : Z) (mem : memory)
  : option gemm_batch_result :=
  let lda := to_int (if transpose_a then m else k) in
  let ldb := to_int (if transpose_b then k else n) in
  let ldc := to_int n in
  let transa := if transpose_a then CUBLAS_OP_T else CUBLAS_OP_N in
  let transb := if transpose_b then CUBLAS_OP_T else CUBLAS_OP_N in
  let a_array := pointer_table a batch_size m k in
  let b_array := pointer_table b batch_size k n in
  let c_array := pointer_table c batch_size m n in
  let array_size := size_mul (Z.of_nat batch_size) sizeof_pointer in
  let '(st1, allocs) := reserve st array_size in
  a_dev <- copy a_array (a_array_device st1) batch_size ;;
  b_dev <- copy b_array (b_array_device st1) batch_size ;;
  c_dev <- copy c_array (c_array_device st1) batch_size ;;
  mem' <- cublasSgemmBatched transb transa (to_int n) (to_int m)
            (to_int k) alpha b_dev ldb a_dev lda beta c_dev ldc
            (to_int (Z.of_nat batch_size)) mem ;;
  Some {| statics_after :=
            {| a_array_device := a_dev; b_array_device := b_dev;
               c_array_device := c_dev; alloc_size := alloc_size st1 |};
          memory_after := mem';
          issued :=
            allocs ++
            [cudaMemcpyAsync array_size; cudaMemcpyAsync array_size;
             cudaMemcpyAsync array_size;
             cublasSgemmBatched_call (to_int (Z.of_nat batch_size))] |}.

(** A thread's history of [gemm_batch] calls, by their batch sizes. *)
Record gemm_batch_call : Type := {
  arg_a : Z; arg_b : Z;
  arg_transpose_a : bool; arg_transpose_b : bool;
  arg_batch_size : nat;
  arg_m : Z; arg_n : Z; arg_k : Z;
  arg_alpha : R; arg_beta : R;
  arg_c : Z
}.

Definition call (st : statics) (mem : memory) (g : gemm_batch_call)
  : option gemm_batch_result :=
  gemm_batch st (arg_a g) (arg_b g) (arg_transpose_a g)
             (arg_transpose_b g) (arg_batch_size g)
             (arg_m g) (arg_n g) (arg_k g)
             (arg_alpha g) (arg_beta g) (arg_c g) mem.

Fixpoint run (st : statics) (mem : memory)
         (history : list gemm_batch_call) : option (statics * memory) :=
  match history with
  | [] => Some (st, mem)
  | g :: history' =>
      r <- call st mem g ;;
      run (statics_after r) (memory_after r) history'
  end.

(** The bytes a call requests for each pointer table. *)
Definition requested (g : gemm_batch_call) : Z :=
  size_mul (Z.of_nat (arg_batch_size g)) sizeof_pointer.

(** The largest number of bytes requested by a history. *)
Definition max_requested (history : list gemm_batch_call) : Z :=
  fold_left Z.max (map requested history) 0.

(** *** The parameter mapping of [gemm] *)

Lemma to_int_small z : fits_int z -> to_int z = z.
Proof.
  unfold fits_int, INT_MAX, to_int, to_signed. intros Hz.
  change (2 ^ (32 - 1)) with 2147483648.
  change (2 ^ 32) with 4294967296.
  change (2 ^ 31) with 2147483648 in Hz.
  rewrite Z.mod_small; lia.
Qed.

Lemma fold_left_ext_in {A B : Type} (f g : A -> B -> A) (l : list B) :
  (forall acc x, In x l -> f acc x = g acc x) ->
  forall a, fold_left f l a = fold_left g l a.
Proof.
  induction l as [|x l IH]; intros H a; simpl; [reflexivity|].
  rewrite H by (left; reflexivity).
  apply IH. intros acc y Hy. apply H. right. exact Hy.
Qed.

Lemma dot_ext k f g :
  (forall l, 0 <= l < k -> f l = g l) -> dot k f = dot k g.
Proof.
  intros H. unfold dot. apply fold_left_ext_in.
  intros acc l Hl. apply in_seq in Hl. rewrite H; [reflexivity | lia].
Qed.

Hypothesis fmul_comm : forall x y, fmul x y = fmul y x.

(** C5.  For dimensions within [int], [gemm] leaves in memory exactly
    what the row-major contract [c = alpha * op(a) * op(b) + beta * c]
    prescribes: the call of the column-major routine with the operands
    and their flags swapped and [m], [n] swapped computes it. *)
Theorem gemm_row_major a b transpose_a transpose_b m n k alpha beta c
        mem :
  fits_int m -> fits_int n -> fits_int k ->
  forall p,
    gemm a b transpose_a transpose_b m n k alpha beta c mem p
    = gemm_spec a b transpose_a transpose_b m n k alpha beta c mem p.
Proof.
  intros Hm Hn Hk p. unfold gemm, gemm_spec, cublasSgemm.
  assert (Hlda : to_int (if transpose_a then m else k)
                 = if transpose_a then m else k)
    by (destruct transpose_a; apply to_int_small; assumption).
  assert (Hldb : to_int (if transpose_b then k else n)
                 = if transpose_b then k else n)
    by (destruct transpose_b; apply to_int_small; assumption).
  rewrite Hlda, Hldb, !to_int_small by assumption.
  cbv zeta. set (off := p - c).
  unfold fits_int in *.
  destruct (Z.leb_spec 0 off) as [Hoff|Hoff]; simpl; [|reflexivity].
  destruct (Z.eq_dec n 0) as [->|Hn0].
  { rewrite Z.mod_0_r.
    destruct (Z.ltb_spec off 0); [lia|].
    destruct (Z.ltb_spec off (m * 0)); [lia|]. reflexivity. }
  pose proof (Z.mod_pos_bound off n ltac:(lia)) as Hmod.
  pose proof (Z.div_mod off n Hn0) as Hdiv.
  destruct (Z.ltb_spec (off mod n) n); [|lia]. simpl.
  destruct (Z.ltb_spec (off / n) m) as [Hi|Hi];
    destruct (Z.ltb_spec off (m * n)) as [Ho|Ho];
    try reflexivity; try (exfalso; nia).
  f_equal. f_equal. apply dot_ext. intros l Hl.
  rewrite fmul_comm. unfold op_elem, row_major_op.
  destruct transpose_a, transpose_b; f_equal; f_equal; lia.
Qed.

(** *** The batched product *)

(** The cached pointer tables hold at least [alloc_size] bytes. *)
Definition wf (st : statics) : Prop :=
  alloc_size st <= sizeof_pointer * Z.of_nat (length (a_array_device st))
  /\ alloc_size st
     <= sizeof_pointer * Z.of_nat (length (b_array_device st))
  /\ alloc_size st
     <= sizeof_pointer * Z.of_nat (length (c_array_device st)).

Lemma batch_initial_wf : wf initial.
Proof. unfold wf, sizeof_pointer; simpl; lia. Qed.

Lemma size_mul_mul x y z :
  fits_size_t (x * y * z) -> size_mul (size_mul x y) z = x * y * z.
Proof.
  unfold fits_size_t, SIZE_MAX, size_mul, to_size_t. intros H.
  rewrite Z.mul_mod_idemp_l by (apply Z.pow_nonzero; lia).
  apply Z.mod_small. lia.
Qed.

Lemma pointer_table_length base batch_size rows cols :
  length (pointer_table base batch_size rows cols) = batch_size.
Proof. unfold pointer_table. rewrite length_map. apply length_seq. Qed.

Lemma pointer_table_nth base batch_size rows cols i :
  (i < batch_size)%nat ->
  nth i (pointer_table base batch_size rows cols) 0
  = base + size_mul (size_mul (Z.of_nat i) rows) cols.
Proof.
  intros Hi. unfold pointer_table.
  rewrite (nth_indep _ 0
             (base + size_mul (size_mul (Z.of_nat 0) rows) cols))
    by (rewrite length_map, length_seq; exact Hi).
  rewrite (map_nth (fun i => base
                             + size_mul (size_mul (Z.of_nat i) rows) cols)).
  rewrite seq_nth by exact Hi. reflexivity.
Qed.

Lemma batch_reserve_capacity st array_size :
  alloc_size (fst (reserve st array_size))
  = Z.max (alloc_size st) array_size.
Proof.
  unfold reserve.
  destruct (Z.ltb_spec (alloc_size st) array_size); simpl; lia.
Qed.

Lemma batch_reserve_reuse st array_size :
  array_size <= alloc_size st -> reserve st array_size = (st, []).
Proof.
  intros H. unfold reserve.
  destruct (Z.ltb_spec (alloc_size st) array_size); [lia | reflexivity].
Qed.

Lemma batch_reserve_grow st array_size :
  alloc_size st < array_size ->
  reserve st array_size =
  ({| a_array_device := device_alloc 0 array_size sizeof_pointer;
      b_array_device := device_alloc 0 array_size sizeof_pointer;
      c_array_device := device_alloc 0 array_size sizeof_pointer;
      alloc_size := array_size |},
   [cudaFree; cudaFree; cudaFree;
    cudaMalloc array_size; cudaMalloc array_size;
    cudaMalloc array_size]).
Proof.
  intros H. unfold reserve.
  destruct (Z.ltb_spec (alloc_size st) array_size); [reflexivity | lia].
Qed.

Lemma batch_reserve_bounds st batch_size :
  wf st -> fits_size_t (Z.of_nat batch_size * sizeof_pointer) ->
  let st1 := fst (reserve st (size_mul (Z.of_nat batch_size)
                                       sizeof_pointer)) in
  (batch_size <= length (a_array_device st1))%nat /\
  (batch_size <= length (b_array_device st1))%nat /\
  (batch_size <= length (c_array_device st1))%nat.
Proof.
  intros (Wa & Wb & Wc) Hfit. unfold reserve.
  assert (E : size_mul (Z.of_nat batch_size) sizeof_pointer
              = Z.of_nat batch_size * sizeof_pointer).
  { unfold size_mul, to_size_t. apply Z.mod_small.
    unfold fits_size_t, SIZE_MAX in Hfit. lia. }
  destruct (Z.ltb_spec (alloc_size st)
              (size_mul (Z.of_nat batch_size) sizeof_pointer)) as [H|H];
    simpl.
  - unfold device_alloc. rewrite repeat_length, E.
    unfold sizeof_pointer. rewrite Z.div_mul by lia. lia.
  - rewrite E in H. unfold sizeof_pointer in *. lia.
Qed.

Lemma copied_table_nth base batch_size rows cols (dev : list Z) i :
  (i < batch_size)%nat ->
  nth i (firstn batch_size (pointer_table base batch_size rows cols)
         ++ skipn batch_size dev) 0
  = base + size_mul (size_mul (Z.of_nat i) rows) cols.
Proof.
  intros Hi.
  rewrite firstn_all2 by (rewrite pointer_table_length; lia).
  rewrite app_nth1 by (rewrite pointer_table_length; exact Hi).
  apply pointer_table_nth. exact Hi.
Qed.

Lemma copied_table_length base batch_size rows cols (dev : list Z) :
  (batch_size <= length dev)%nat ->
  length (firstn batch_size (pointer_table base batch_size rows cols)
          ++ skipn batch_size dev) = length dev.
Proof.
  intros H.
  rewrite length_app, length_firstn, pointer_table_length, length_skipn.
  lia.
Qed.

(** A call within the ranges of [size_t] and [int] returns; each batch
    entry is one product on the operands at the wrapped offsets. *)
Lemma gemm_batch_eval st a b transpose_a transpose_b batch_size m n k
      alpha beta c mem :
  wf st ->
  fits_size_t (Z.of_nat batch_size * sizeof_pointer) ->
  fits_int (Z.of_nat batch_size) ->
  exists r,
    gemm_batch st a b transpose_a transpose_b batch_size m n k
               alpha beta c mem = Some r /\
    memory_after r =
    fold_left
      (fun mem i =>
         gemm (a + size_mul (size_mul (Z.of_nat i) m) k)
              (b + size_mul (size_mul (Z.of_nat i) k) n)
              transpose_a transpose_b m n k alpha beta
              (c + size_mul (size_mul (Z.of_nat i) m) n) mem)
      (seq 0 batch_size) mem /\
    alloc_size (statics_after r)
    = Z.max (alloc_size st)
            (size_mul (Z.of_nat batch_size) sizeof_pointer) /\
    wf (statics_after r) /\
    issued r =
    snd (reserve st (size_mul (Z.of_nat batch_size) sizeof_pointer)) ++
    [cudaMemcpyAsync (size_mul (Z.of_nat batch_size) sizeof_pointer);
     cudaMemcpyAsync (size_mul (Z.of_nat batch_size) sizeof_pointer);
     cudaMemcpyAsync (size_mul (Z.of_nat batch_size) sizeof_pointer);
     cublasSgemmBatched_call (to_int (Z.of_nat batch_size))].
Proof.
  intros Hwf Hfit Hint.
  destruct (batch_reserve_bounds batch_size Hwf Hfit) as (Ba & Bb & Bc).
  pose proof (batch_reserve_capacity st
                (size_mul (Z.of_nat batch_size) sizeof_pointer)) as Hcap.
  assert (Hwf1 : wf (fst (reserve st (size_mul (Z.of_nat batch_size)
                                              sizeof_pointer)))).
  { unfold reserve.
    destruct (Z.ltb_spec (alloc_size st)
                (size_mul (Z.of_nat batch_size) sizeof_pointer)) as [H|H];
      cbn [fst]; [|exact Hwf].
    unfold wf, device_alloc.
    cbn [a_array_device b_array_device c_array_device alloc_size].
    rewrite repeat_length.
    unfold size_mul, to_size_t, fits_size_t, SIZE_MAX, sizeof_pointer
      in *.
    rewrite Z.mod_small by lia.
    rewrite Z.div_mul by lia. lia. }
  unfold gemm_batch.
  destruct (reserve st (size_mul (Z.of_nat batch_size) sizeof_pointer))
    as [st1 allocs]; simpl fst in *; simpl snd in *.
  rewrite !copy_some by (rewrite ?pointer_table_length; lia).
  simpl bind. unfold cublasSgemmBatched.
  rewrite (to_int_small Hint), Nat2Z.id.
  rewrite !copied_table_length by assumption.
  apply Nat.leb_le in Ba as Ea. apply Nat.leb_le in Bb as Eb.
  apply Nat.leb_le in Bc as Ec. rewrite Ea, Eb, Ec. simpl bind.
  eexists. split; [reflexivity|]. simpl.
  split; [|split; [|split]].
  - apply fold_left_ext_in. intros acc i Hi. apply in_seq in Hi.
    rewrite !copied_table_nth by lia. reflexivity.
  - exact Hcap.
  - destruct Hwf1 as (W1 & W2 & W3). unfold wf; simpl.
    rewrite !copied_table_length by assumption. auto.
  - reflexivity.
Qed.

(** C6.  For every batch size within [int] whose operands exist in
    memory, [gemm_batch] returns, and it leaves memory as
    [batch_size] successive [gemm] calls do on the operands at
    [a + i*m*k], [b + i*k*n] and [c + i*m*n], [i = 0 .. batch_size-1],
    with the same flags, dimensions, [alpha] and [beta]. *)
Theorem gemm_batch_as_gemm_calls st a b transpose_a transpose_b
        batch_size m n k alpha beta c mem :
  wf st ->
  fits_int (Z.of_nat batch_size) ->
  0 <= m -> 0 <= n -> 0 <= k ->
  fits_size_t (Z.of_nat batch_size * m * k) ->
  fits_size_t (Z.of_nat batch_size * k * n) ->
  fits_size_t (Z.of_nat batch_size * m * n) ->
  exists r,
    gemm_batch st a b transpose_a transpose_b batch_size m n k
               alpha beta c mem = Some r /\
    memory_after r =
    fold_left
      (fun mem i =>
         gemm (a + Z.of_nat i * m * k) (b + Z.of_nat i * k * n)
              transpose_a transpose_b m n k alpha beta
              (c + Z.of_nat i * m * n) mem)
      (seq 0 batch_size) mem.
Proof.
  intros Hwf Hint Hm Hn Hk Fa Fb Fc.
  assert (Hfit : fits_size_t (Z.of_nat batch_size * sizeof_pointer)).
  { unfold fits_size_t, SIZE_MAX, fits_int, INT_MAX, sizeof_pointer
      in *.
    change (2 ^ 31) with 2147483648 in Hint.
    change (2 ^ 64) with 18446744073709551616. lia. }
  destruct (@gemm_batch_eval st a b transpose_a transpose_b batch_size
              m n k alpha beta c mem Hwf Hfit Hint)
    as (r & Hr & Hmem & _).
  exists r. split; [exact Hr|]. rewrite Hmem.
  apply fold_left_ext_in. intros acc i Hi. apply in_seq in Hi.
  assert (B : forall x y, 0 <= x -> 0 <= y ->
                fits_size_t (Z.of_nat batch_size * x * y) ->
                fits_size_t (Z.of_nat i * x * y)).
  { unfold fits_size_t. intros x y Hx Hy [_ Hb]. split; [nia|].
    assert (Z.of_nat i * x * y <= Z.of_nat batch_size * x * y); [|lia].
    apply Z.mul_le_mono_nonneg_r; [assumption|].
    apply Z.mul_le_mono_nonneg_r; [assumption|]. lia. }
  rewrite !size_mul_mul by (apply B; assumption).
  reflexivity.
Qed.

(** *** The pointer-table cache along a history of calls *)

Lemma gemm_batch_statics st a b transpose_a transpose_b batch_size
      m n k alpha beta c mem r :
  wf st ->
  gemm_batch st a b transpose_a transpose_b batch_size m n k
             alpha beta c mem = Some r ->
  wf (statics_after r) /\
  alloc_size (statics_after r)
  = Z.max (alloc_size st) (size_mul (Z.of_nat batch_size) sizeof_pointer).
Proof.
  intros (Wa & Wb & Wc). unfold gemm_batch.
  set (array_size := size_mul (Z.of_nat batch_size) sizeof_pointer).
  pose proof (batch_reserve_capacity st array_size) as Hcap.
  assert (Hst1 : (alloc_size st < array_size /\
                  alloc_size (fst (reserve st array_size)) = array_size)
                 \/ fst (reserve st array_size) = st).
  { unfold reserve.
    destruct (Z.ltb_spec (alloc_size st) array_size); cbn [fst alloc_size];
      auto. }
  assert (Hle : array_size <= Z.of_nat batch_size * sizeof_pointer).
  { unfold array_size, size_mul, to_size_t, sizeof_pointer.
    apply Z.mod_le; lia. }
  destruct (reserve st array_size) as [st1 allocs]; cbn [fst] in *.
  intros H.
  apply bind_some in H as (a_dev & Ha & H).
  apply bind_some in H as (b_dev & Hb & H).
  apply bind_some in H as (c_dev & Hc & H).
  apply bind_some in H as (mem' & _ & H).
  injection H as <-.
  cbn [statics_after a_array_device b_array_device c_array_device
       alloc_size].
  pose proof (copy_length _ _ _ Ha) as La.
  pose proof (copy_length _ _ _ Hb) as Lb.
  pose proof (copy_length _ _ _ Hc) as Lc.
  apply copy_inv in Ha as (_ & Ba & _).
  apply copy_inv in Hb as (_ & Bb & _).
  apply copy_inv in Hc as (_ & Bc & _).
  split; [|exact Hcap].
  unfold wf.
  cbn [a_array_device b_array_device c_array_device alloc_size].
  rewrite La, Lb, Lc. unfold sizeof_pointer in *.
  destruct Hst1 as [[Hlt E] | ->]; lia.
Qed.

Lemma batch_run_statics h : forall st mem st' mem',
  wf st -> run st mem h = Some (st', mem') ->
  wf st' /\
  alloc_size st' = fold_left Z.max (map requested h) (alloc_size st).
Proof.
  induction h as [|g h IH]; intros st mem st' mem' Hwf; simpl.
  - intros [= <- <-]. auto.
  - intros H. apply bind_some in H as (r & Hr & H).
    destruct (gemm_batch_statics _ _ _ _ _ _ _ _ _ _ _ _ Hwf Hr)
      as [Hwf' Hcap].
    destruct (IH _ _ _ _ Hwf' H) as [Hwf'' Hcap''].
    split; [assumption|]. rewrite Hcap'', Hcap. reflexivity.
Qed.

(** A call whose batch size is within [int]. *)
Definition call_ok (g : gemm_batch_call) : Prop :=
  fits_int (Z.of_nat (arg_batch_size g)).

Lemma call_ok_fits g :
  call_ok g ->
  fits_size_t (Z.of_nat (arg_batch_size g) * sizeof_pointer).
Proof.
  unfold call_ok, fits_int, INT_MAX, fits_size_t, SIZE_MAX,
    sizeof_pointer.
  change (2 ^ 31) with 2147483648.
  change (2 ^ 64) with 18446744073709551616. lia.
Qed.

Lemma requested_eq g :
  call_ok g ->
  requested g = Z.of_nat (arg_batch_size g) * sizeof_pointer.
Proof.
  intros H. apply call_ok_fits in H.
  unfold requested, size_mul, to_size_t, fits_size_t, SIZE_MAX in *.
  apply Z.mod_small. lia.
Qed.

Lemma batch_run_total h : forall st mem,
  wf st -> Forall call_ok h -> exists st' mem',
    run st mem h = Some (st', mem').
Proof.
  induction h as [|g h IH]; intros st mem Hwf Hok; simpl.
  - eauto.
  - inversion Hok as [|? ? Hg Hok']; subst.
    destruct (@gemm_batch_eval st (arg_a g) (arg_b g)
                (arg_transpose_a g) (arg_transpose_b g)
                (arg_batch_size g) (arg_m g) (arg_n g) (arg_k g)
                (arg_alpha g) (arg_beta g) (arg_c g) mem
                Hwf (call_ok_fits Hg) Hg)
      as (r & Hr & _ & _ & Hwf' & _).
    unfold call. rewrite Hr. simpl. apply IH; assumption.
Qed.

(** One call on well-formed statics: the capacity becomes the larger
    of the old capacity and the requested bytes; a request within the
    capacity allocates nothing and keeps the three tables, a larger
    one frees them and allocates each for exactly [batch_size]
    pointers. *)
Lemma gemm_batch_cache_step st mem g :
  wf st -> call_ok g ->
  exists r,
    call st mem g = Some r /\ wf (statics_after r) /\
    alloc_size (statics_after r)
    = Z.max (alloc_size st) (requested g) /\
    (requested g <= alloc_size st ->
     existsb is_allocation (issued r) = false /\
     length (a_array_device (statics_after r))
     = length (a_array_device st) /\
     length (b_array_device (statics_after r))
     = length (b_array_device st) /\
     length (c_array_device (statics_after r))
     = length (c_array_device st)) /\
    (alloc_size st < requested g ->
     firstn 6 (issued r)
     = [cudaFree; cudaFree; cudaFree;
        cudaMalloc (Z.of_nat (arg_batch_size g) * sizeof_pointer);
        cudaMalloc (Z.of_nat (arg_batch_size g) * sizeof_pointer);
        cudaMalloc (Z.of_nat (arg_batch_size g) * sizeof_pointer)] /\
     length (a_array_device (statics_after r)) = arg_batch_size g /\
     length (b_array_device (statics_after r)) = arg_batch_size g /\
     length (c_array_device (statics_after r)) = arg_batch_size g).
Proof.
  intros Hwf Hg.
  pose proof (call_ok_fits Hg) as Hfit.
  pose proof (requested_eq Hg) as Hreq.
  destruct (@gemm_batch_eval st (arg_a g) (arg_b g)
              (arg_transpose_a g) (arg_transpose_b g)
              (arg_batch_size g) (arg_m g) (arg_n g) (arg_k g)
              (arg_alpha g) (arg_beta g) (arg_c g) mem Hwf Hfit Hg)
    as (r & Hr & _ & Hcap & Hwf' & Hiss).
  exists r. split; [exact Hr|]. split; [exact Hwf'|].
  split; [exact Hcap|].
  fold (requested g) in Hiss.
  unfold call, gemm_batch in Hr. fold (requested g) in Hr.
  split.
  - intros Hle. rewrite batch_reserve_reuse in Hiss, Hr by exact Hle.
    cbn [snd] in Hiss. rewrite Hiss. split; [reflexivity|].
    apply bind_some in Hr as (a_dev & Ha & Hr).
    apply bind_some in Hr as (b_dev & Hb & Hr).
    apply bind_some in Hr as (c_dev & Hc & Hr).
    apply bind_some in Hr as (mem' & _ & Hr).
    injection Hr as <-.
    cbn [statics_after a_array_device b_array_device c_array_device].
    rewrite (copy_length _ _ _ Ha), (copy_length _ _ _ Hb),
      (copy_length _ _ _ Hc).
    auto.
  - intros Hlt. rewrite batch_reserve_grow in Hiss, Hr by exact Hlt.
    cbn [snd] in Hiss. rewrite Hiss, Hreq. split; [reflexivity|].
    apply bind_some in Hr as (a_dev & Ha & Hr).
    apply bind_some in Hr as (b_dev & Hb & Hr).
    apply bind_some in Hr as (c_dev & Hc & Hr).
    apply bind_some in Hr as (mem' & _ & Hr).
    injection Hr as <-.
    cbn [statics_after a_array_device b_array_device c_array_device].
    rewrite (copy_length _ _ _ Ha), (copy_length _ _ _ Hb),
      (copy_length _ _ _ Hc).
    cbn [a_array_device b_array_device c_array_device].
    unfold device_alloc. rewrite repeat_length, Hreq.
    unfold sizeof_pointer. rewrite Z.div_mul by lia.
    rewrite Nat2Z.id. auto.
Qed.

End Scalars.

(** *** Integer scalars *)

(** Two 2x2 matrices at addresses 0 and 10, and an output at 20. *)
Definition example_memory : memory Z :=
  fun p => nth (Z.to_nat p)
               [1; 2; 3; 4; 0; 0; 0; 0; 0; 0;
                5; 6; 7; 8; 0; 0; 0; 0; 0; 0;
                100; 100; 100; 100] 0.

Lemma fits_int_small z : 0 <= z <= 1000 -> fits_int z.
Proof.
  unfold fits_int, INT_MAX. change (2 ^ 31) with 2147483648. lia.
Qed.

Lemma fits_size_t_small z : 0 <= z <= 1000 -> fits_size_t z.
Proof.
  unfold fits_size_t, SIZE_MAX.
  change (2 ^ 64) with 18446744073709551616. lia.
Qed.

Definition example_call (batch_size : nat) : gemm_batch_call Z :=
  {| arg_a := 0; arg_b := 10;
     arg_transpose_a := false; arg_transpose_b := false;
     arg_batch_size := batch_size;
     arg_m := 1; arg_n := 1; arg_k := 2;
     arg_alpha := 1; arg_beta := 0;
     arg_c := 20 |}.

Lemma gemm_row_major_witness :
  gemm 0 Z.add Z.mul 0 10 false false 2 2 2 1 0 20 example_memory 21
  = gemm_spec 0 Z.add Z.mul 0 10 false false 2 2 2 1 0 20
              example_memory 21 /\
  gemm 0 Z.add Z.mul 0 10 false false 2 2 2 1 0 20 example_memory 21 = 22.
Proof.
  split; [|reflexivity].
  apply (@gemm_row_major Z 0 Z.add Z.mul Z.mul_comm
           0 10 false false 2 2 2 1 0 20 example_memory).
  - apply fits_int_small; lia.
  - apply fits_int_small; lia.
  - apply fits_int_small; lia.
Defined.

Lemma gemm_batch_as_gemm_calls_witness :
  exists r,
    gemm_batch 0 Z.add Z.mul (initial) 0 10 false false 2 1 1 2 1 0 20
               example_memory = Some r /\
    memory_after r =
    fold_left
      (fun mem i =>
         gemm 0 Z.add Z.mul (0 + Z.of_nat i * 1 * 2)
              (10 + Z.of_nat i * 2 * 1) false false 1 1 2 1 0
              (20 + Z.of_nat i * 1 * 1) mem)
      (seq 0 2) example_memory.
Proof.
  apply (@gemm_batch_as_gemm_calls Z 0 Z.add Z.mul initial 0 10 false
           false 2 1 1 2 1 0 20 example_memory).
  - apply batch_initial_wf.
  - apply fits_int_small; simpl; lia.
  - lia.
  - lia.
  - lia.
  - apply fits_size_t_small; simpl; lia.
  - apply fits_size_t_small; simpl; lia.
  - apply fits_size_t_small; simpl; lia.
Defined.

End Gemm.

(** ** The scratch caches of [topk] and [gemm_batch] *)

Module ScratchCache.
Import Machine Device.

(** C7.  After any history of in-range calls of [topk] (of
    [gemm_batch]) on a thread, the cached capacity is the largest size
    requested so far.  The next call then makes it the larger of that
    and its own request, so it never decreases: a request within the
    capacity issues no [cudaFree] or [cudaMalloc] and keeps the cached
    buffers, and a larger request frees them and allocates them for
    exactly the requested size. *)
Theorem capacity_is_running_maximum
        (T : Type) (sizeof_T : Z) (greater : T -> T -> bool)
        (uninit : T) (uninit_index : Z)
        (h : list (TopK.topk_call T)) (c : TopK.topk_call T)
        (R : Type) (zero : R) (fadd fmul : R -> R -> R)
        (g : list (Gemm.gemm_batch_call R)) (gc : Gemm.gemm_batch_call R)
        (mem : Gemm.memory R) :
  (0 < sizeof_T)%Z ->
  Forall (TopK.call_ok sizeof_T) h -> TopK.call_ok sizeof_T c ->
  Forall (@Gemm.call_ok R) g -> Gemm.call_ok gc ->
  (exists st r,
      TopK.run sizeof_T greater uninit uninit_index (TopK.initial T) h
      = Some st /\
      TopK.alloc_size st = TopK.max_size h /\
      TopK.call sizeof_T greater uninit uninit_index st c = Some r /\
      TopK.alloc_size (TopK.statics_after r)
      = Nat.max (TopK.max_size h) (TopK.arg_size c) /\
      TopK.alloc_size st <= TopK.alloc_size (TopK.statics_after r) /\
      (TopK.arg_size c <= TopK.max_size h ->
       existsb is_allocation (TopK.issued r) = false /\
       length (TopK.keys (TopK.statics_after r))
       = length (TopK.keys st) /\
       length (TopK.values (TopK.statics_after r))
       = length (TopK.values st)) /\
      (TopK.max_size h < TopK.arg_size c ->
       firstn 4 (TopK.issued r)
       = [cudaFree;
          cudaMalloc (Z.of_nat (TopK.arg_size c) * sizeof_T)%Z;
          cudaFree;
          cudaMalloc (Z.of_nat (TopK.arg_size c) * sizeof_int)%Z] /\
       length (TopK.keys (TopK.statics_after r)) = TopK.arg_size c /\
       length (TopK.values (TopK.statics_after r)) = TopK.arg_size c))
  /\
  (exists st mem' r,
      Gemm.run zero fadd fmul (Gemm.initial) mem g = Some (st, mem') /\
      Gemm.alloc_size st = Gemm.max_requested g /\
      Gemm.call zero fadd fmul st mem' gc = Some r /\
      Gemm.alloc_size (Gemm.statics_after r)
      = Z.max (Gemm.max_requested g) (Gemm.requested gc) /\
      (Gemm.alloc_size st <= Gemm.alloc_size (Gemm.statics_after r))%Z /\
      ((Gemm.requested gc <= Gemm.max_requested g)%Z ->
       existsb is_allocation (Gemm.issued r) = false /\
       length (Gemm.a_array_device (Gemm.statics_after r))
       = length (Gemm.a_array_device st) /\
       length (Gemm.b_array_device (Gemm.statics_after r))
       = length (Gemm.b_array_device st) /\
       length (Gemm.c_array_device (Gemm.statics_after r))
       = length (Gemm.c_array_device st)) /\
      ((Gemm.max_requested g < Gemm.requested gc)%Z ->
       firstn 6 (Gemm.issued r)
       = [cudaFree; cudaFree; cudaFree;
          cudaMalloc
            (Z.of_nat (Gemm.arg_batch_size gc) * sizeof_pointer)%Z;
          cudaMalloc
            (Z.of_nat (Gemm.arg_batch_size gc) * sizeof_pointer)%Z;
          cudaMalloc
            (Z.of_nat (Gemm.arg_batch_size gc) * sizeof_pointer)%Z] /\
       length (Gemm.a_array_device (Gemm.statics_after r))
       = Gemm.arg_batch_size gc /\
       length (Gemm.b_array_device (Gemm.statics_after r))
       = Gemm.arg_batch_size gc /\
       length (Gemm.c_array_device (Gemm.statics_after r))
       = Gemm.arg_batch_size gc)).
Proof.
  intros Hsz Hh Hc Hg Hgc. split.
  - destruct (@TopK.run_total T sizeof_T greater uninit uninit_index Hsz
                h (TopK.initial T) (TopK.initial_wf T) Hh) as (st & Hrun).
    destruct (TopK.run_statics _ _ _ _ h (TopK.initial_wf T) Hrun)
      as [Hwf Hcap].
    change (TopK.alloc_size st = TopK.max_size h) in Hcap.
    destruct (@TopK.topk_cache_step T sizeof_T greater uninit
                uninit_index Hsz st c Hwf Hc)
      as (r & Hr & _ & Hcap' & Hreuse & Hgrow).
    exists st, r. rewrite <- Hcap.
    repeat (split; [first [assumption | lia]|]). assumption.
  - destruct (@Gemm.batch_run_total R zero fadd fmul g Gemm.initial mem
                Gemm.batch_initial_wf Hg) as (st & mem' & Hrun).
    destruct (@Gemm.batch_run_statics R zero fadd fmul g Gemm.initial mem
                st mem'
                Gemm.batch_initial_wf Hrun) as [Hwf Hcap].
    change (Gemm.alloc_size st = Gemm.max_requested g) in Hcap.
    destruct (@Gemm.gemm_batch_cache_step R zero fadd fmul st mem' gc
                Hwf Hgc)
      as (r & Hr & _ & Hcap' & Hreuse & Hgrow).
    exists st, mem', r. rewrite <- Hcap.
    repeat (split; [first [assumption | lia]|]). assumption.
Qed.

Lemma small_call_ok x k :
  k <= length x -> length x <= 1000 ->
  TopK.call_ok 4 (TopK.mk_call x k).
Proof.
  intros Hk Hx. unfold TopK.call_ok, TopK.mk_call; simpl.
  rewrite !repeat_length.
  split; [apply TopK.allocatable_small; lia | lia].
Qed.

(** Sizes 2, 5 and then 3 for [topk]; batches of 1, 2 and then 1 for
    [gemm_batch]: the last call of each reuses the cached buffers. *)
Lemma capacity_is_running_maximum_witness :
  (exists st r,
      TopK.int_run (TopK.initial Z)
                   [TopK.mk_call [1; 2]%Z 2;
                    TopK.mk_call [5; 4; 3; 2; 1]%Z 5] = Some st /\
      TopK.alloc_size st = 5 /\
      TopK.call 4 TopK.int_greater 0%Z 0%Z st
                (TopK.mk_call [7; 8; 9]%Z 3) = Some r /\
      TopK.alloc_size (TopK.statics_after r) = 5 /\
      existsb is_allocation (TopK.issued r) = false)
  /\
  (exists st mem' r,
      Gemm.run 0%Z Z.add Z.mul Gemm.initial Gemm.example_memory
               [Gemm.example_call 1; Gemm.example_call 2]
      = Some (st, mem') /\
      Gemm.alloc_size st = 16%Z /\
      Gemm.call 0%Z Z.add Z.mul st mem' (Gemm.example_call 1) = Some r /\
      Gemm.alloc_size (Gemm.statics_after r) = 16%Z /\
      existsb is_allocation (Gemm.issued r) = false).
Proof.
  destruct (@capacity_is_running_maximum
              Z 4%Z TopK.int_greater 0%Z 0%Z
              [TopK.mk_call [1; 2]%Z 2; TopK.mk_call [5; 4; 3; 2; 1]%Z 5]
              (TopK.mk_call [7; 8; 9]%Z 3)
              Z 0%Z Z.add Z.mul
              [Gemm.example_call 1; Gemm.example_call 2]
              (Gemm.example_call 1) Gemm.example_memory)
    as [(st & r & Hrun & Hcap & Hcall & Hcap' & _ & Hreuse & _)
        (gst & gmem & gr & Grun & Gcap & Gcall & Gcap' & _ & Greuse & _)].
  - lia.
  - repeat constructor; apply small_call_ok; simpl; lia.
  - apply small_call_ok; simpl; lia.
  - repeat constructor; apply Gemm.fits_int_small; simpl; lia.
  - apply Gemm.fits_int_small; simpl; lia.
  - split.
    + exists st, r. repeat split; try assumption.
      apply Hreuse. vm_compute. lia.
    + exists gst, gmem, gr. repeat split; try assumption.
      apply Greuse. vm_compute. discriminate.
Defined.

End ScratchCache.


(** ** Scalar-broadcast and pairwise arithmetic, and the sum *)

Module Arithmetic.
Import Machine Buffers Elementwise.

Section IntegerType.
Variable w : Z.

(** [thrust::multiplies<T>] on a signed integer of [w] bits. *)
Definition times (a b : Z) : Z := to_signed w (a * b)%Z.

(** [primitives<Device::CUDA>::add(T a, const T* x, T* y, size)]: the
    functor is [_1 + a]. *)
Definition add_scalar (a : Z) (x y : list Z) (size : nat)
  : option (list Z) :=
  unary_transform x y size (fun v => plus w v a).

(** [primitives<Device::CUDA>::mul(T a, const T* x, T* y, size)]: the
    functor is [_1 * a]. *)
Definition mul_scalar (a : Z) (x y : list Z) (size : nat)
  : option (list Z) :=
  unary_transform x y size (fun v => times v a).

(** [primitives<Device::CUDA>::mul(const T* a, const T* b, T* c, size)]. *)
Definition mul (a b c : list Z) (size : nat) : option (list Z) :=
  binary_transform a b c size times.

(** [primitives<Device::CUDA>::sum(array, size)]: [thrust::reduce] with
    the initial value [T()] and [thrust::plus<T>]. *)
Definition sum (array : list Z) (size : nat) : option Z :=
  if size <=? length array
  then Some (fold_left (plus w) (firstn size array) 0%Z)
  else None.

End IntegerType.

(** The sum of the elements as integers, without wrap-around. *)
Definition total (l : list Z) : Z := fold_right Z.add 0%Z l.

Local Open Scope Z_scope.

Lemma pow2_double w : 0 < w -> 2 ^ w = 2 * 2 ^ (w - 1).
Proof.
  intros Hw. replace w with (Z.succ (w - 1)) at 1 by lia.
  rewrite Z.pow_succ_r by lia. reflexivity.
Qed.

Lemma to_signed_add_l w a b :
  to_signed w (to_signed w a + b) = to_signed w (a + b).
Proof.
  unfold to_signed. f_equal.
  replace ((a + 2 ^ (w - 1)) mod 2 ^ w - 2 ^ (w - 1) + b + 2 ^ (w - 1))
    with ((a + 2 ^ (w - 1)) mod 2 ^ w + b) by lia.
  rewrite Zplus_mod_idemp_l. f_equal. lia.
Qed.

Lemma to_signed_add_r w a b :
  to_signed w (a + to_signed w b) = to_signed w (a + b).
Proof.
  rewrite (Z.add_comm a), to_signed_add_l. f_equal. lia.
Qed.

Lemma to_signed_mul_l w a b :
  to_signed w (to_signed w a * b) = to_signed w (a * b).
Proof.
  unfold to_signed. f_equal.
  replace (((a + 2 ^ (w - 1)) mod 2 ^ w - 2 ^ (w - 1)) * b + 2 ^ (w - 1))
    with ((a + 2 ^ (w - 1)) mod 2 ^ w * b + (2 ^ (w - 1) - 2 ^ (w - 1) * b))
    by ring.
  rewrite <- Zplus_mod_idemp_l, Zmult_mod_idemp_l, Zplus_mod_idemp_l.
  f_equal. ring.
Qed.

Lemma to_signed_zero w : 0 < w -> to_signed w 0 = 0.
Proof.
  intros Hw. apply to_signed_representable; [exact Hw|].
  unfold representable.
  assert (0 < 2 ^ (w - 1)) by (apply Z.pow_pos_nonneg; lia). lia.
Qed.

Lemma to_signed_range w z : 0 < w -> representable w (to_signed w z).
Proof.
  intros Hw. unfold representable, to_signed.
  pose proof (pow2_double Hw) as E.
  assert (0 < 2 ^ (w - 1)) by (apply Z.pow_pos_nonneg; lia).
  pose proof (Z.mod_pos_bound (z + 2 ^ (w - 1)) (2 ^ w) ltac:(lia)). lia.
Qed.

Lemma fold_plus_total w (l : list Z) : forall acc,
  fold_left (plus w) l (to_signed w acc) = to_signed w (acc + total l).
Proof.
  induction l as [|v l IH]; intros acc; simpl.
  - f_equal. lia.
  - unfold plus at 2. rewrite to_signed_add_l, IH. f_equal. lia.
Qed.

Lemma total_perm (l l' : list Z) : Permutation l l' -> total l = total l'.
Proof.
  induction 1; simpl; lia.
Qed.

Lemma sum_value (w : Z) (array : list Z) (size : nat) :
  0 < w -> (size <= length array)%nat ->
  sum w array size = Some (to_signed w (total (firstn size array))).
Proof.
  intros Hw Hl. unfold sum. apply Nat.leb_le in Hl. rewrite Hl.
  rewrite <- (to_signed_zero Hw) at 1. rewrite fold_plus_total.
  reflexivity.
Qed.

(** The sum is the integer sum of the first [size] elements reduced to
    [w] bits once; it therefore does not depend on the order in which the
    elements are combined. *)
Theorem sum_wraps_once (w : Z) (array array' : list Z) (size : nat) :
  0 < w -> (size <= length array)%nat -> (size <= length array')%nat ->
  sum w array size = Some (to_signed w (total (firstn size array))) /\
  (Permutation (firstn size array) (firstn size array') ->
   sum w array' size = sum w array size).
Proof.
  intros Hw Hlen Hlen'.
  split; [apply sum_value; assumption|].
  intros Hperm. rewrite !sum_value by assumption.
  rewrite (total_perm Hperm). reflexivity.
Qed.

Lemma sum_wraps_once_witness :
  sum 8 [100; 100; -50] 3 = Some (to_signed 8 (total [100; 100; -50])) /\
  (Permutation [100; 100; -50] [-50; 100; 100] ->
   sum 8 [-50; 100; 100; 7] 3 = sum 8 [100; 100; -50] 3).
Proof.
  apply (@sum_wraps_once 8 [100; 100; -50] [-50; 100; 100; 7] 3);
    simpl; lia.
Defined.

Lemma unary_transform_some {T : Type} (x y : list T) size op :
  (size <= length x)%nat -> (size <= length y)%nat ->
  unary_transform x y size op
  = Some (map op (firstn size x) ++ skipn size y).
Proof.
  intros Hx Hy. unfold unary_transform.
  apply Nat.leb_le in Hx, Hy. rewrite Hx, Hy. reflexivity.
Qed.

Lemma total_zip_plus w (l1 l2 : list Z) :
  length l1 = length l2 ->
  to_signed w (total (zip_with (plus w) l1 l2))
  = to_signed w (total l1 + total l2).
Proof.
  revert l2. induction l1 as [|x l1 IH]; intros [|y l2] Hlen;
    simpl in *; try discriminate; [reflexivity|].
  unfold plus at 1. rewrite to_signed_add_l.
  rewrite <- to_signed_add_r, IH by lia. rewrite to_signed_add_r.
  f_equal. lia.
Qed.

Lemma total_repeat a n : total (repeat a n) = Z.of_nat n * a.
Proof.
  induction n as [|n IH]; [reflexivity|].
  cbn [repeat total fold_right]. fold (total (repeat a n)). rewrite IH.
  lia.
Qed.

(** The sum of a pairwise sum is the sum of the two sums, in [w] bits. *)
Theorem sum_of_add (w : Z) (a b c : list Z) (n : nat) :
  0 < w ->
  (n <= length a)%nat -> (n <= length b)%nat -> (n <= length c)%nat ->
  exists c1 sa sb,
    add w a b c n = Some c1 /\
    sum w a n = Some sa /\ sum w b n = Some sb /\
    sum w c1 n = Some (plus w sa sb).
Proof.
  intros Hw Ha Hb Hc.
  set (z := zip_with (plus w) (firstn n a) (firstn n b)).
  assert (Lz : length z = n).
  { unfold z. rewrite zip_with_length, !length_firstn. lia. }
  exists (z ++ skipn n c).
  exists (to_signed w (total (firstn n a))).
  exists (to_signed w (total (firstn n b))).
  assert (Lc1 : (n <= length (z ++ skipn n c))%nat).
  { rewrite length_app, length_skipn. lia. }
  pose proof (@sum_value w a n Hw Ha) as Ea.
  pose proof (@sum_value w b n Hw Hb) as Eb.
  pose proof (@sum_value w (z ++ skipn n c) n Hw Lc1) as Ec.
  split; [unfold add; apply binary_transform_some; assumption|].
  split; [exact Ea|]. split; [exact Eb|].
  rewrite Ec, firstn_prefix by exact Lz. f_equal.
  unfold z. rewrite total_zip_plus by (rewrite !length_firstn; lia).
  unfold plus. rewrite to_signed_add_l, to_signed_add_r. reflexivity.
Qed.

Lemma sum_of_add_witness :
  exists c1 sa sb,
    add 8 [100; 27] [100; 1] [0; 0] 2 = Some c1 /\
    sum 8 [100; 27] 2 = Some sa /\ sum 8 [100; 1] 2 = Some sb /\
    sum 8 c1 2 = Some (plus 8 sa sb).
Proof.
  apply (@sum_of_add 8 [100; 27] [100; 1] [0; 0] 2); simpl; lia.
Defined.

(** After [fill(x, a, n)] the sum of [x] is [n * a] reduced to [w]
    bits. *)
Theorem sum_of_fill (w : Z) (x : list Z) (a : Z) (n : nat) :
  0 < w -> (n <= length x)%nat ->
  exists x1,
    fill x a n = Some x1 /\
    sum w x1 n = Some (to_signed w (Z.of_nat n * a)).
Proof.
  intros Hw Hx. exists (repeat a n ++ skipn n x).
  split; [apply fill_some; exact Hx|].
  assert (L : (n <= length (repeat a n ++ skipn n x))%nat).
  { rewrite length_app, repeat_length, length_skipn. lia. }
  pose proof (@sum_value w _ n Hw L) as E.
  rewrite E, firstn_prefix by apply repeat_length.
  rewrite total_repeat. reflexivity.
Qed.

Lemma sum_of_fill_witness :
  exists x1,
    fill [1; 2; 3; 4] 100 3 = Some x1 /\
    sum 8 x1 3 = Some (to_signed 8 (Z.of_nat 3 * 100)).
Proof.
  apply (@sum_of_fill 8 [1; 2; 3; 4] 100 3); simpl; lia.
Defined.

Lemma map_zip_with {A B C D : Type} (f : C -> D) (g : A -> B -> C)
      (l1 : list A) (l2 : list B) :
  map f (zip_with g l1 l2) = zip_with (fun u v => f (g u v)) l1 l2.
Proof.
  revert l2. induction l1 as [|u l1 IH]; intros [|v l2]; simpl;
    try reflexivity.
  f_equal. apply IH.
Qed.

Lemma zip_with_map {A B C : Type} (g : B -> B -> C) (f : A -> B)
      (l1 l2 : list A) :
  zip_with g (map f l1) (map f l2)
  = zip_with (fun u v => g (f u) (f v)) l1 l2.
Proof.
  revert l2. induction l1 as [|u l1 IH]; intros [|v l2]; simpl;
    try reflexivity.
  f_equal. apply IH.
Qed.

Lemma zip_with_ext {A B C : Type} (g h : A -> B -> C) l1 l2 :
  (forall u v, g u v = h u v) -> zip_with g l1 l2 = zip_with h l1 l2.
Proof.
  intros E. revert l2. induction l1 as [|u l1 IH]; intros [|v l2]; simpl;
    try reflexivity.
  rewrite E. f_equal. apply IH.
Qed.

Lemma times_plus_distr w s u v :
  times w (plus w u v) s = plus w (times w u s) (times w v s).
Proof.
  unfold times, plus.
  rewrite to_signed_mul_l, to_signed_add_l, to_signed_add_r.
  f_equal. ring.
Qed.

(** Scaling distributes over the pairwise sum, wrap-around included:
    [mul(s, add(x, y))] and [add(mul(s, x), mul(s, y))] agree on their
    [n] elements. *)
Theorem mul_scalar_distributes (w s : Z) (x y t u v r r' : list Z)
        (n : nat) :
  (n <= length x)%nat -> (n <= length y)%nat -> (n <= length t)%nat ->
  (n <= length u)%nat -> (n <= length v)%nat ->
  (n <= length r)%nat -> (n <= length r')%nat ->
  exists t1 r1 u1 v1 r2,
    add w x y t n = Some t1 /\ mul_scalar w s t1 r n = Some r1 /\
    mul_scalar w s x u n = Some u1 /\ mul_scalar w s y v n = Some v1 /\
    add w u1 v1 r' n = Some r2 /\
    firstn n r1 = firstn n r2.
Proof.
  intros Hx Hy Ht Hu Hv Hr Hr'.
  set (z := zip_with (plus w) (firstn n x) (firstn n y)).
  assert (Lz : length z = n).
  { unfold z. rewrite zip_with_length, !length_firstn. lia. }
  set (mx := map (fun e => times w e s) (firstn n x)).
  set (my := map (fun e => times w e s) (firstn n y)).
  assert (Lmx : length mx = n)
    by (unfold mx; rewrite length_map, length_firstn; lia).
  assert (Lmy : length my = n)
    by (unfold my; rewrite length_map, length_firstn; lia).
  exists (z ++ skipn n t).
  exists (map (fun e => times w e s) z ++ skipn n r).
  exists (mx ++ skipn n u), (my ++ skipn n v).
  exists (zip_with (plus w) mx my ++ skipn n r').
  split; [unfold add; apply binary_transform_some; assumption|].
  split.
  { unfold mul_scalar. rewrite unary_transform_some.
    - rewrite firstn_prefix by exact Lz. reflexivity.
    - rewrite length_app, length_skipn. lia.
    - exact Hr. }
  split; [unfold mul_scalar; apply unary_transform_some; assumption|].
  split; [unfold mul_scalar; apply unary_transform_some; assumption|].
  split.
  { unfold add. rewrite binary_transform_some.
    - rewrite !firstn_prefix by assumption. reflexivity.
    - rewrite length_app, length_skipn. lia.
    - rewrite length_app, length_skipn. lia.
    - exact Hr'. }
  rewrite !firstn_prefix.
  - unfold z, mx, my. rewrite map_zip_with, zip_with_map.
    apply zip_with_ext. intros a b. apply times_plus_distr.
  - rewrite zip_with_length. lia.
  - rewrite length_map. exact Lz.
Qed.

Lemma mul_scalar_distributes_witness :
  exists t1 r1 u1 v1 r2,
    add 8 [100; 3] [100; 4] [0; 0] 2 = Some t1 /\
    mul_scalar 8 3 t1 [0; 0] 2 = Some r1 /\
    mul_scalar 8 3 [100; 3] [0; 0] 2 = Some u1 /\
    mul_scalar 8 3 [100; 4] [0; 0] 2 = Some v1 /\
    add 8 u1 v1 [0; 0] 2 = Some r2 /\
    firstn 2 r1 = firstn 2 r2.
Proof.
  apply (@mul_scalar_distributes 8 3 [100; 3] [100; 4] [0; 0] [0; 0]
           [0; 0] [0; 0] [0; 0] 2); simpl; lia.
Defined.

End Arithmetic.

(** ** Maximum, its position, and more on top-k *)

Module Selection.
Import Machine Buffers Device.

Section Ordered.
Variable T : Type.
Variable sizeof_T : Z.
(** [thrust::greater<T>]; [a < b] of the source is [greater b a]. *)
Variable greater : T -> T -> bool.
Variable uninit : T.
Variable uninit_index : Z.

(** The scan of [thrust::max_element]: the position kept is replaced only
    by a strictly greater element, so the first largest one is found. *)
Fixpoint argmax_from (best : nat) (best_value : T) (i : nat) (l : list T)
  : nat :=
  match l with
  | [] => best
  | v :: l' =>
      if greater v best_value then argmax_from i v (S i) l'
      else argmax_from best best_value (S i) l'
  end.

(** [primitives<Device::CUDA>::max_element(array, size)]: the offset of
    the iterator [thrust::max_element] returns, [0] on an empty range. *)
Definition max_element (array : list T) (size : nat) : option nat :=
  if size <=? length array
  then Some match firstn size array with
            | [] => 0
            | v :: l => argmax_from 0 v 1 l
            end
  else None.

(** [primitives<Device::CUDA>::max(array, size)]: the element the
    iterator points to. *)
Definition max (array : list T) (size : nat) : option T :=
  m <- max_element array size ;; nth_error array m.

Hypothesis greater_irrefl : forall a, greater a a = false.
Hypothesis greater_trans :
  forall a b c, greater a b = true -> greater b c = true ->
                greater a c = true.
Hypothesis greater_neg_trans :
  forall a b c, greater a b = false -> greater b c = false ->
                greater a c = false.

Lemma argmax_from_spec (l : list T) : forall pre best bv,
  nth_error pre best = Some bv ->
  (forall e, In e pre -> greater e bv = false) ->
  (forall j e, j < best -> nth_error pre j = Some e ->
               greater bv e = true) ->
  exists v,
    nth_error (pre ++ l) (argmax_from best bv (length pre) l) = Some v /\
    argmax_from best bv (length pre) l < length (pre ++ l) /\
    (forall e, In e (pre ++ l) -> greater e v = false) /\
    (forall j e, j < argmax_from best bv (length pre) l ->
                 nth_error (pre ++ l) j = Some e -> greater v e = true).
Proof.
  induction l as [|v l IH]; intros pre best bv Hbest Hmax Hfirst.
  - simpl. rewrite app_nil_r. exists bv. repeat split; try assumption.
    apply nth_error_Some. congruence.
  - assert (Hb : best < length pre)
      by (apply nth_error_Some; congruence).
    replace (pre ++ v :: l) with ((pre ++ [v]) ++ l)
      by (rewrite <- app_assoc; reflexivity).
    simpl. destruct (greater v bv) eqn:G.
    + replace (S (length pre)) with (length (pre ++ [v]))
        by (rewrite length_app; simpl; lia).
      apply IH.
      * rewrite nth_error_app2, Nat.sub_diag by lia. reflexivity.
      * intros e He. apply in_app_or in He as [He|[<-|[]]].
        -- destruct (greater e v) eqn:F; [|reflexivity].
           rewrite <- (Hmax e He). symmetry. eauto.
        -- apply greater_irrefl.
      * intros j e Hj He. rewrite nth_error_app1 in He by exact Hj.
        destruct (greater v e) eqn:F; [reflexivity|].
        rewrite <- G. symmetry. apply (@greater_neg_trans v e bv).
        -- exact F.
        -- apply Hmax. eapply nth_error_In. exact He.
    + replace (S (length pre)) with (length (pre ++ [v]))
        by (rewrite length_app; simpl; lia).
      apply IH.
      * rewrite nth_error_app1 by exact Hb. exact Hbest.
      * intros e He. apply in_app_or in He as [He|[<-|[]]];
          [apply Hmax; exact He | exact G].
      * intros j e Hj He. rewrite nth_error_app1 in He by lia.
        apply (Hfirst j e Hj He).
Qed.

Lemma max_element_scan (array : list T) (size : nat) :
  0 < size -> size <= length array ->
  exists m v,
    max_element array size = Some m /\ max array size = Some v /\
    m < size /\ nth_error array m = Some v /\
    (forall j e, j < size -> nth_error array j = Some e ->
                 greater e v = false) /\
    (forall j e, j < m -> nth_error array j = Some e ->
                 greater v e = true).
Proof.
  intros Hpos Hlen. unfold max, max_element.
  apply Nat.leb_le in Hlen as Hlen'. rewrite Hlen'.
  assert (Lf : length (firstn size array) = size)
    by (rewrite length_firstn; lia).
  destruct (firstn size array) as [|v0 l] eqn:E; [simpl in Lf; lia|].
  destruct (@argmax_from_spec l [v0] 0 v0 eq_refl)
    as (v & Hv & Hm & Hall & Hfst).
  { intros e [<-|[]]. apply greater_irrefl. }
  { intros j e Hj. lia. }
  change ([v0] ++ l) with (v0 :: l) in *. change (length [v0]) with 1 in *.
  set (m := argmax_from 0 v0 1 l) in *.
  rewrite Lf in Hm.
  assert (Hpre : forall j, j < size ->
                   nth_error array j = nth_error (v0 :: l) j).
  { intros j Hj. rewrite <- E, nth_error_firstn.
    apply Nat.ltb_lt in Hj. rewrite Hj. reflexivity. }
  exists m, v. simpl. rewrite (Hpre m Hm), Hv.
  repeat split; try assumption.
  - intros j e Hj He. rewrite (Hpre j Hj) in He.
    apply Hall. eapply nth_error_In. exact He.
  - intros j e Hj He. rewrite (Hpre j ltac:(lia)) in He.
    apply (Hfst j e Hj He).
Qed.

(** On a range of at least one element [max_element] returns the first
    position of a largest element, and [max] the element there: no
    element of the range is greater, and every earlier one is strictly
    smaller. *)
Theorem max_element_first_largest (array : list T) (size : nat) :
  0 < size -> size <= length array ->
  exists m v,
    max_element array size = Some m /\ max array size = Some v /\
    m < size /\ nth_error array m = Some v /\
    (forall j e, j < size -> nth_error array j = Some e ->
                 greater e v = false) /\
    (forall j e, j < m -> nth_error array j = Some e ->
                 greater v e = true).
Proof. apply max_element_scan. Qed.

(** *** More on [topk] *)

Hypothesis sizeof_T_pos : (0 < sizeof_T)%Z.

Lemma map_fst_combine {A B : Type} (l1 : list A) (l2 : list B) :
  length l1 <= length l2 -> map fst (combine l1 l2) = l1.
Proof.
  revert l2. induction l1 as [|a l1 IH]; intros [|b l2] H; simpl in *;
    try reflexivity; try lia.
  f_equal. apply IH. lia.
Qed.

Lemma positions_length start n : length (TopK.positions start n) = n.
Proof. unfold TopK.positions. rewrite length_map. apply length_seq. Qed.

Lemma sorted_values_perm x size :
  (Z.of_nat size <= INT_MAX + 1)%Z ->
  Permutation (map fst (TopK.sorted_pairs greater x size)) (firstn size x).
Proof.
  intros Hint.
  eapply Permutation_trans;
    [apply Permutation_map, TopK.sorted_pairs_perm; exact Hint|].
  rewrite map_fst_combine; [apply Permutation_refl|].
  rewrite positions_length, length_firstn. lia.
Qed.

Lemma sorted_indices_perm x size :
  (Z.of_nat size <= INT_MAX + 1)%Z -> size <= length x ->
  Permutation (map snd (TopK.sorted_pairs greater x size))
              (TopK.positions 0 size).
Proof.
  intros Hint Hx.
  eapply Permutation_trans;
    [apply Permutation_map, TopK.sorted_pairs_perm; exact Hint|].
  rewrite TopK.map_snd_combine; [apply Permutation_refl|].
  rewrite positions_length, length_firstn. lia.
Qed.

Lemma sorted_values_descending (s : list (T * Z)) :
  StronglySorted (TopK.before greater) s ->
  StronglySorted (fun a b => greater b a = false) (map fst s).
Proof.
  induction 1 as [|kv s Hs IH Hall]; simpl; constructor;
    [exact IH|].
  apply Forall_map. eapply Forall_impl; [|exact Hall].
  intros kv' Hb.
  apply (@TopK.before_not_greater T greater greater_irrefl greater_trans
           kv kv' Hb).
Qed.

(** With [k = size] the values returned are the whole of [x] rearranged
    in descending order, and the indices are a rearrangement of
    [0 .. size-1]. *)
Theorem topk_full_sort st x val ind size :
  TopK.wf st -> TopK.allocatable sizeof_T size ->
  (Z.of_nat size <= INT_MAX + 1)%Z ->
  size <= length x -> size <= length val -> size <= length ind ->
  exists r,
    TopK.topk sizeof_T greater uninit uninit_index st x val ind size size
    = Some r /\
    Permutation (firstn size (TopK.val_after r)) (firstn size x) /\
    Permutation (firstn size (TopK.ind_after r)) (TopK.positions 0 size) /\
    StronglySorted (fun a b => greater b a = false)
                   (firstn size (TopK.val_after r)).
Proof.
  intros Hwf Halloc Hint Hx Hval Hind.
  destruct (@TopK.topk_outputs T sizeof_T greater uninit uninit_index
              sizeof_T_pos st x val ind size size Hwf Halloc
              (le_n size) Hx Hval Hind)
    as (r & Hr & Hv & Hi & _).
  pose proof (@TopK.sorted_pairs_length T greater x size Hx) as Hs.
  rewrite (@firstn_all2 _ size (TopK.sorted_pairs greater x size))
    in Hv, Hi by lia.
  exists r. split; [exact Hr|]. rewrite Hv, Hi.
  split; [apply sorted_values_perm; exact Hint|].
  split; [apply sorted_indices_perm; assumption|].
  apply sorted_values_descending.
  apply (@TopK.sorted_pairs_sorted T greater greater_trans
           greater_neg_trans x size Hint).
Qed.

(** With [k = 0] both output buffers are left as they were, yet the call
    still copies [x] in and sorts it in the scratch buffers, and issues
    two copies of zero bytes.  When [size] is within the cached capacity
    it issues nothing else; when [size] exceeds it, the call first frees
    and reallocates both scratch buffers, at [size] elements each, and
    the cached capacity becomes [size]. *)
Theorem topk_zero_still_sorts st x val ind size :
  TopK.wf st -> TopK.allocatable sizeof_T size -> size <= length x ->
  exists r,
    TopK.topk sizeof_T greater uninit uninit_index st x val ind 0 size
    = Some r /\
    TopK.val_after r = val /\ TopK.ind_after r = ind /\
    firstn size (TopK.keys (TopK.statics_after r))
    = map fst (TopK.sorted_pairs greater x size) /\
    firstn size (TopK.values (TopK.statics_after r))
    = map snd (TopK.sorted_pairs greater x size) /\
    TopK.alloc_size (TopK.statics_after r)
    = Nat.max (TopK.alloc_size st) size /\
    (size <= TopK.alloc_size st ->
     TopK.issued r
     = [cudaMemcpyAsync (Z.of_nat size * sizeof_T)%Z;
        thrust_sequence size; thrust_sort_by_key size;
        cudaMemcpyAsync 0%Z; cudaMemcpyAsync 0%Z] /\
     skipn size (TopK.keys (TopK.statics_after r))
     = skipn size (TopK.keys st) /\
     skipn size (TopK.values (TopK.statics_after r))
     = skipn size (TopK.values st)) /\
    (TopK.alloc_size st < size ->
     TopK.issued r
     = [cudaFree; cudaMalloc (Z.of_nat size * sizeof_T)%Z;
        cudaFree; cudaMalloc (Z.of_nat size * sizeof_int)%Z;
        cudaMemcpyAsync (Z.of_nat size * sizeof_T)%Z;
        thrust_sequence size; thrust_sort_by_key size;
        cudaMemcpyAsync 0%Z; cudaMemcpyAsync 0%Z] /\
     length (TopK.keys (TopK.statics_after r)) = size /\
     length (TopK.values (TopK.statics_after r)) = size).
Proof.
  intros Hwf Halloc Hx.
  destruct (@TopK.reserve_bounds T sizeof_T uninit uninit_index
              sizeof_T_pos st size Hwf Halloc) as [Bk Bv].
  pose proof (@TopK.sorted_pairs_length T greater x size Hx) as Hs.
  destruct Halloc as [Fk Fv].
  eexists. split.
  { apply TopK.topk_eval; (assumption || apply Nat.le_0_l). }
  cbn [TopK.statics_after TopK.val_after TopK.ind_after TopK.issued
       TopK.keys TopK.values TopK.alloc_size firstn skipn app].
  rewrite (@TopK.size_mul_small (Z.of_nat size) sizeof_T Fk).
  change (size_mul (Z.of_nat 0) sizeof_T) with (to_size_t 0).
  change (size_mul (Z.of_nat 0) sizeof_int) with (to_size_t 0).
  change (to_size_t 0) with 0%Z.
  split; [reflexivity|]. split; [reflexivity|].
  split; [apply firstn_prefix; rewrite length_map; exact Hs|].
  split; [apply firstn_prefix; rewrite length_map; exact Hs|].
  rewrite !skipn_prefix by (rewrite length_map; exact Hs).
  rewrite !length_app, !length_map, !length_skipn, Hs.
  split.
  { unfold TopK.reserve.
    destruct (Nat.ltb_spec (TopK.alloc_size st) size);
      cbn [fst TopK.alloc_size]; lia. }
  split.
  - intros Hle.
    rewrite (@TopK.reserve_reuse T sizeof_T uninit uninit_index st size
               Hle).
    cbn [fst snd app]. repeat split; reflexivity.
  - intros Hlt.
    rewrite (@TopK.reserve_grow T sizeof_T uninit uninit_index st size
               Hlt) in *.
    cbn [fst snd app TopK.keys TopK.values] in *.
    rewrite (@TopK.size_mul_small (Z.of_nat size) sizeof_int Fv) at 1.
    rewrite (@TopK.size_mul_small (Z.of_nat size) sizeof_T Fk) at 1.
    split; [reflexivity|].
    rewrite !TopK.device_alloc_length;
      try assumption; try (unfold sizeof_int; lia).
Qed.

(** The first [k1] outputs of a call with [k2 >= k1] are the outputs of
    the call with [k1], whatever the two states of the scratch cache. *)
Theorem topk_prefix st1 st2 x val1 ind1 val2 ind2 k1 k2 size :
  TopK.wf st1 -> TopK.wf st2 -> TopK.allocatable sizeof_T size ->
  k1 <= k2 -> k2 <= size -> size <= length x ->
  k1 <= length val1 -> k1 <= length ind1 ->
  k2 <= length val2 -> k2 <= length ind2 ->
  exists r1 r2,
    TopK.topk sizeof_T greater uninit uninit_index st1 x val1 ind1 k1 size
    = Some r1 /\
    TopK.topk sizeof_T greater uninit uninit_index st2 x val2 ind2 k2 size
    = Some r2 /\
    firstn k1 (TopK.val_after r2) = firstn k1 (TopK.val_after r1) /\
    firstn k1 (TopK.ind_after r2) = firstn k1 (TopK.ind_after r1).
Proof.
  intros W1 W2 Halloc H12 H2 Hx Hv1 Hi1 Hv2 Hi2.
  destruct (@TopK.topk_outputs T sizeof_T greater uninit uninit_index
              sizeof_T_pos st1 x val1 ind1 k1 size W1 Halloc
              ltac:(lia) Hx Hv1 Hi1)
    as (r1 & Hr1 & V1 & I1 & _).
  destruct (@TopK.topk_outputs T sizeof_T greater uninit uninit_index
              sizeof_T_pos st2 x val2 ind2 k2 size W2 Halloc
              H2 Hx Hv2 Hi2)
    as (r2 & Hr2 & V2 & I2 & _).
  exists r1, r2. split; [exact Hr1|]. split; [exact Hr2|].
  rewrite V1, I1.
  replace k1 with (Nat.min k1 k2) at 1 3 by lia.
  rewrite <- !firstn_firstn, V2, I2, !firstn_map, !firstn_firstn.
  replace (Nat.min k1 k2) with k1 by lia. auto.
Qed.

Lemma stable_sort_sorted_id (l : list (T * Z)) :
  StronglySorted (TopK.before greater) l -> TopK.stable_sort greater l = l.
Proof.
  induction 1 as [|kv l Hl IH Hall]; simpl; [reflexivity|].
  rewrite IH. destruct l as [|kv' l']; simpl; [reflexivity|].
  inversion Hall as [|? ? Hb _]; subst.
  rewrite (@TopK.before_not_greater T greater greater_irrefl greater_trans
             kv kv' Hb).
  reflexivity.
Qed.

Lemma firstn_seq_min k : forall start n,
  firstn k (seq start n) = seq start (Nat.min k n).
Proof.
  induction k as [|k IH]; intros start [|n]; simpl; try reflexivity.
  f_equal. apply IH.
Qed.

Lemma combine_descending (xs : list T) :
  StronglySorted (fun a b => greater b a = false) xs ->
  forall start n,
    StronglySorted (TopK.before greater)
                   (combine xs (TopK.positions start n)).
Proof.
  induction 1 as [|v xs Hxs IH Hall]; intros start [|n];
    try (simpl; constructor).
  - apply (IH (S start) n).
  - apply Forall_forall. intros [v' i] Hin.
    apply (TopK.In_combine_positions xs (S start) n) in Hin.
    destruct Hin as (p & _ & -> & Hp).
    right. simpl. split; [|lia].
    rewrite Forall_forall in Hall. apply Hall.
    eapply nth_error_In. exact Hp.
Qed.

(** On an input already in descending order the call returns its first
    [k] elements with the indices [0 .. k-1]: elements that tie keep
    their positions. *)
Theorem topk_of_descending st x val ind k size :
  TopK.wf st -> TopK.allocatable sizeof_T size ->
  (Z.of_nat size <= INT_MAX + 1)%Z ->
  k <= size -> size <= length x -> k <= length val -> k <= length ind ->
  StronglySorted (fun a b => greater b a = false) (firstn size x) ->
  exists r,
    TopK.topk sizeof_T greater uninit uninit_index st x val ind k size
    = Some r /\
    firstn k (TopK.val_after r) = firstn k x /\
    firstn k (TopK.ind_after r) = TopK.positions 0 k.
Proof.
  intros Hwf Halloc Hint Hk Hx Hval Hind Hsorted.
  destruct (@TopK.topk_outputs T sizeof_T greater uninit uninit_index
              sizeof_T_pos st x val ind k size Hwf Halloc Hk Hx Hval Hind)
    as (r & Hr & Hv & Hi & _).
  exists r. split; [exact Hr|]. rewrite Hv, Hi.
  unfold TopK.sorted_pairs. rewrite TopK.sequence_positions by exact Hint.
  rewrite stable_sort_sorted_id by (apply combine_descending; exact Hsorted).
  rewrite combine_firstn, firstn_firstn.
  replace (Nat.min k size) with k by lia.
  assert (Hp : firstn k (TopK.positions 0 size) = TopK.positions 0 k).
  { unfold TopK.positions. rewrite firstn_map, firstn_seq_min.
    replace (Nat.min k size) with k by lia. reflexivity. }
  rewrite Hp. split.
  - apply map_fst_combine. rewrite positions_length, length_firstn. lia.
  - apply TopK.map_snd_combine.
    rewrite positions_length, length_firstn. lia.
Qed.

(** The call with [k = 1] returns the value of [max] and the position of
    [max_element]. *)
Theorem topk_one_is_max st x val ind size :
  TopK.wf st -> TopK.allocatable sizeof_T size ->
  (Z.of_nat size <= INT_MAX + 1)%Z ->
  0 < size -> size <= length x -> 1 <= length val -> 1 <= length ind ->
  exists r m v,
    TopK.topk sizeof_T greater uninit uninit_index st x val ind 1 size
    = Some r /\
    max_element x size = Some m /\ max x size = Some v /\
    firstn 1 (TopK.val_after r) = [v] /\
    firstn 1 (TopK.ind_after r) = [Z.of_nat m].
Proof.
  intros Hwf Halloc Hint Hpos Hx Hval Hind.
  destruct (@TopK.topk_outputs T sizeof_T greater uninit uninit_index
              sizeof_T_pos st x val ind 1 size Hwf Halloc Hpos Hx Hval Hind)
    as (r & Hr & Hv & Hi & _).
  destruct (@max_element_scan x size Hpos Hx)
    as (m & v & Hm & Hmax & Hmlt & Hmv & Hall & Hfirst).
  exists r, m, v. split; [exact Hr|]. split; [exact Hm|].
  split; [exact Hmax|]. rewrite Hv, Hi.
  pose proof (@TopK.sorted_pairs_length T greater x size Hx) as Hs.
  pose proof (@TopK.sorted_pairs_sorted T greater greater_trans
                greater_neg_trans x size Hint) as Hsorted.
  assert (Hin : In (v, Z.of_nat m) (TopK.sorted_pairs greater x size)).
  { apply (@TopK.sorted_pairs_In T greater x size v (Z.of_nat m) Hint Hx).
    exists m. auto. }
  assert (Hsub : forall kv, In kv (TopK.sorted_pairs greater x size) ->
                   exists p, p < size /\ snd kv = Z.of_nat p /\
                             nth_error x p = Some (fst kv)).
  { intros [v' i'] Hkv.
    apply (@TopK.sorted_pairs_In T greater x size v' i' Hint Hx) in Hkv.
    exact Hkv. }
  destruct (TopK.sorted_pairs greater x size) as [|[v0 i0] s'];
    [simpl in Hs; lia|].
  simpl. apply StronglySorted_inv in Hsorted as [_ Hfst].
  destruct Hin as [E|Hin]; [injection E as -> ->; auto|].
  exfalso. rewrite Forall_forall in Hfst.
  destruct (Hsub (v0, i0) (or_introl eq_refl)) as (p0 & Hp0 & Ei & Hx0).
  simpl in Ei, Hx0.
  destruct (Hfst _ Hin) as [G|[_ Hlt]]; simpl in *.
  - rewrite (Hall p0 v0 Hp0 Hx0) in G. discriminate.
  - assert (Hpm : p0 < m) by lia.
    pose proof (Hfirst p0 v0 Hpm Hx0) as G'.
    pose proof (Hall p0 v0 Hp0 Hx0) as G0.
    destruct (Hfst _ Hin) as [G|[G _]]; simpl in G; congruence.
Qed.

End Ordered.

Lemma max_element_first_largest_witness :
  exists m v,
    max_element TopK.int_greater [3; 9; 4; 9; 1]%Z 5 = Some m /\
    max TopK.int_greater [3; 9; 4; 9; 1]%Z 5 = Some v /\
    m = 1 /\ v = 9%Z.
Proof.
  destruct (@max_element_first_largest Z TopK.int_greater
              TopK.int_greater_irrefl TopK.int_greater_trans
              TopK.int_greater_neg_trans [3; 9; 4; 9; 1]%Z 5)
    as (m & v & Hm & Hv & _).
  - lia.
  - simpl; lia.
  - exists m, v. split; [exact Hm|]. split; [exact Hv|].
    vm_compute in Hm, Hv. injection Hm as <-. injection Hv as <-.
    split; reflexivity.
Defined.

Ltac small_topk_side :=
  first [ apply TopK.initial_wf
        | apply TopK.allocatable_small; lia
        | unfold INT_MAX; simpl; lia
        | simpl; lia ].

Lemma topk_full_sort_witness :
  exists r,
    TopK.topk 4 TopK.int_greater 0%Z 0%Z (TopK.initial Z)
              [2; 7; 2]%Z [0; 0; 0]%Z [0; 0; 0]%Z 3 3 = Some r /\
    Permutation (firstn 3 (TopK.val_after r)) (firstn 3 [2; 7; 2]%Z) /\
    Permutation (firstn 3 (TopK.ind_after r)) (TopK.positions 0 3) /\
    StronglySorted (fun a b => TopK.int_greater b a = false)
                   (firstn 3 (TopK.val_after r)).
Proof.
  apply (@topk_full_sort Z 4%Z TopK.int_greater 0%Z 0%Z
           TopK.int_greater_irrefl TopK.int_greater_trans
           TopK.int_greater_neg_trans ltac:(lia) (TopK.initial Z)
           [2; 7; 2]%Z [0; 0; 0]%Z [0; 0; 0]%Z 3); small_topk_side.
Defined.

Lemma topk_zero_still_sorts_witness :
  exists r,
    TopK.topk 4 TopK.int_greater 0%Z 0%Z (TopK.initial Z)
              [2; 7; 2]%Z [5; 5]%Z [6; 6]%Z 0 3 = Some r /\
    TopK.val_after r = [5; 5]%Z /\ TopK.ind_after r = [6; 6]%Z /\
    firstn 3 (TopK.keys (TopK.statics_after r))
    = map fst (TopK.sorted_pairs TopK.int_greater [2; 7; 2]%Z 3) /\
    firstn 3 (TopK.values (TopK.statics_after r))
    = map snd (TopK.sorted_pairs TopK.int_greater [2; 7; 2]%Z 3) /\
    TopK.alloc_size (TopK.statics_after r)
    = Nat.max (TopK.alloc_size (TopK.initial Z)) 3 /\
    (3 <= TopK.alloc_size (TopK.initial Z) ->
     TopK.issued r
     = [cudaMemcpyAsync (Z.of_nat 3 * 4)%Z;
        thrust_sequence 3; thrust_sort_by_key 3;
        cudaMemcpyAsync 0%Z; cudaMemcpyAsync 0%Z] /\
     skipn 3 (TopK.keys (TopK.statics_after r))
     = skipn 3 (TopK.keys (TopK.initial Z)) /\
     skipn 3 (TopK.values (TopK.statics_after r))
     = skipn 3 (TopK.values (TopK.initial Z))) /\
    (TopK.alloc_size (TopK.initial Z) < 3 ->
     TopK.issued r
     = [cudaFree; cudaMalloc (Z.of_nat 3 * 4)%Z;
        cudaFree; cudaMalloc (Z.of_nat 3 * sizeof_int)%Z;
        cudaMemcpyAsync (Z.of_nat 3 * 4)%Z;
        thrust_sequence 3; thrust_sort_by_key 3;
        cudaMemcpyAsync 0%Z; cudaMemcpyAsync 0%Z] /\
     length (TopK.keys (TopK.statics_after r)) = 3 /\
     length (TopK.values (TopK.statics_after r)) = 3).
Proof.
  apply (@topk_zero_still_sorts Z 4%Z TopK.int_greater 0%Z 0%Z
           ltac:(lia) (TopK.initial Z) [2; 7; 2]%Z [5; 5]%Z [6; 6]%Z 3);
    small_topk_side.
Defined.

Lemma topk_prefix_witness :
  exists r1 r2,
    TopK.topk 4 TopK.int_greater 0%Z 0%Z (TopK.initial Z)
              [2; 7; 2; 9]%Z [0]%Z [0]%Z 1 4 = Some r1 /\
    TopK.topk 4 TopK.int_greater 0%Z 0%Z TopK.after_987
              [2; 7; 2; 9]%Z [0; 0; 0]%Z [0; 0; 0]%Z 3 4 = Some r2 /\
    firstn 1 (TopK.val_after r2) = firstn 1 (TopK.val_after r1) /\
    firstn 1 (TopK.ind_after r2) = firstn 1 (TopK.ind_after r1).
Proof.
  apply (@topk_prefix Z 4%Z TopK.int_greater 0%Z 0%Z ltac:(lia)
           (TopK.initial Z) TopK.after_987 [2; 7; 2; 9]%Z
           [0]%Z [0]%Z [0; 0; 0]%Z [0; 0; 0]%Z 1 3 4);
    try small_topk_side.
  split; simpl; lia.
Defined.

Lemma topk_of_descending_witness :
  exists r,
    TopK.topk 4 TopK.int_greater 0%Z 0%Z (TopK.initial Z)
              [9; 7; 7; 2]%Z [0; 0; 0]%Z [0; 0; 0]%Z 3 4 = Some r /\
    firstn 3 (TopK.val_after r) = firstn 3 [9; 7; 7; 2]%Z /\
    firstn 3 (TopK.ind_after r) = TopK.positions 0 3.
Proof.
  apply (@topk_of_descending Z 4%Z TopK.int_greater 0%Z 0%Z
           TopK.int_greater_irrefl TopK.int_greater_trans ltac:(lia)
           (TopK.initial Z) [9; 7; 7; 2]%Z [0; 0; 0]%Z [0; 0; 0]%Z 3 4);
    try small_topk_side.
  simpl. repeat constructor.
Defined.

Lemma topk_one_is_max_witness :
  exists r m v,
    TopK.topk 4 TopK.int_greater 0%Z 0%Z (TopK.initial Z)
              [3; 9; 4; 9; 1]%Z [0]%Z [0]%Z 1 5 = Some r /\
    max_element TopK.int_greater [3; 9; 4; 9; 1]%Z 5 = Some m /\
    max TopK.int_greater [3; 9; 4; 9; 1]%Z 5 = Some v /\
    firstn 1 (TopK.val_after r) = [v] /\
    firstn 1 (TopK.ind_after r) = [Z.of_nat m].
Proof.
  apply (@topk_one_is_max Z 4%Z TopK.int_greater 0%Z 0%Z
           TopK.int_greater_irrefl TopK.int_greater_trans
           TopK.int_greater_neg_trans ltac:(lia) (TopK.initial Z)
           [3; 9; 4; 9; 1]%Z [0]%Z [0]%Z 5); small_topk_side.
Defined.

End Selection.

(** ** What the transpositions write *)

Module TransposeLaws.
Import Machine Transpose.
Local Open Scope Z_scope.

Lemma gather_inv {T : Type} (x : list T) (idx : list Z) : forall vs,
  gather x idx = Some vs ->
  length vs = length idx /\
  forall j, (j < length idx)%nat ->
            nth_error vs j = nth_error x (Z.to_nat (nth j idx 0)).
Proof.
  induction idx as [|i idx IH]; intros vs H; simpl in H.
  - injection H as <-. split; [reflexivity|]. intros j Hj. simpl in Hj. lia.
  - apply bind_some in H as (v & Hv & H).
    apply bind_some in H as (vs' & Hvs & H). injection H as <-.
    destruct (IH vs' Hvs) as [Hlen Hnth]. split; [simpl; lia|].
    intros [|j] Hj; simpl in *; [symmetry; exact Hv | apply Hnth; lia].
Qed.

(** A permuting pass that returns has read, for every [j < size], the
    element at [perm_fun j], and has left the rest of the output. *)
Lemma permute_inv {T : Type} (x y y1 : list T) (size : Z) (f : Z -> Z) :
  permute x y size f = Some y1 ->
  (Z.to_nat size <= length y)%nat /\ length y1 = length y /\
  skipn (Z.to_nat size) y1 = skipn (Z.to_nat size) y /\
  forall j, (j < Z.to_nat size)%nat ->
            nth_error y1 j = nth_error x (Z.to_nat (f (Z.of_nat j))).
Proof.
  unfold permute.
  destruct (Nat.leb_spec (Z.to_nat size) (length y)) as [Hy|Hy];
    [|discriminate].
  intros H. apply bind_some in H as (vs & Hvs & H). injection H as <-.
  apply gather_inv in Hvs as [Hlen Hnth].
  rewrite length_map, length_seq in Hlen, Hnth.
  split; [exact Hy|].
  split; [rewrite length_app, length_skipn; lia|].
  split; [apply Buffers.skipn_prefix; exact Hlen|].
  intros j Hj. rewrite nth_error_app1 by lia.
  rewrite (Hnth j Hj). f_equal. f_equal.
  rewrite (nth_indep _ 0 (f (Z.of_nat 0)))
    by (rewrite length_map, length_seq; exact Hj).
  rewrite (map_nth (fun i => f (Z.of_nat i))), seq_nth by exact Hj.
  reflexivity.
Qed.

(** [transpose_2d] writes the transposed matrix: entry [(j, i)] of the
    [cols] by [rows] output is entry [(i, j)] of the [rows] by [cols]
    input, and the output past the matrix is untouched. *)
Theorem transpose_2d_elements {T : Type} (a b : list T) (rows cols : Z) :
  0 < rows -> 0 < cols -> rows * cols <= SIZE_MAX ->
  rows * cols <= Z.of_nat (length a) ->
  rows * cols <= Z.of_nat (length b) ->
  exists b1,
    transpose_2d a [rows; cols] b = Some b1 /\
    length b1 = length b /\
    skipn (Z.to_nat (rows * cols)) b1 = skipn (Z.to_nat (rows * cols)) b /\
    forall i j, 0 <= i < rows -> 0 <= j < cols ->
      nth_error b1 (Z.to_nat (j * rows + i))
      = nth_error a (Z.to_nat (i * cols + j)).
Proof.
  intros Hr Hc Hfit La Lb. unfold transpose_2d.
  change (at_index [rows; cols] 0) with rows.
  change (at_index [rows; cols] 1) with cols.
  unfold size_mul. rewrite to_size_t_small by nia.
  destruct (@permute_some T a b (rows * cols) (perm_indices_2d rows cols))
    as (vs & Hb1 & _); [lia | |].
  { intros i Hi.
    destruct (@perm_indices_2d_exact rows cols i Hr Hc Hfit Hi) as [-> Hb].
    lia. }
  eexists. split; [exact Hb1|].
  apply permute_inv in Hb1 as (_ & Hlen & Hskip & Hnth).
  split; [exact Hlen|]. split; [exact Hskip|].
  intros i j Hi Hj.
  assert (Ho : 0 <= j * rows + i < rows * cols) by nia.
  rewrite Hnth by lia. rewrite Z2Nat.id by lia.
  destruct (@perm_indices_2d_exact rows cols (j * rows + i) Hr Hc Hfit Ho)
    as [-> _].
  destruct (@div_mod_pair j i rows Hi) as [-> ->]. reflexivity.
Qed.

Lemma transpose_2d_elements_witness :
  exists b1,
    transpose_2d [1; 2; 3; 4; 5; 6] [2; 3] [0; 0; 0; 0; 0; 0; 7] = Some b1 /\
    length b1 = length [0; 0; 0; 0; 0; 0; 7] /\
    skipn (Z.to_nat (2 * 3)) b1
    = skipn (Z.to_nat (2 * 3)) [0; 0; 0; 0; 0; 0; 7] /\
    forall i j, 0 <= i < 2 -> 0 <= j < 3 ->
      nth_error b1 (Z.to_nat (j * 2 + i))
      = nth_error [1; 2; 3; 4; 5; 6] (Z.to_nat (i * 3 + j)).
Proof.
  apply (@transpose_2d_elements Z [1; 2; 3; 4; 5; 6]
           [0; 0; 0; 0; 0; 0; 7] 2 3);
    unfold SIZE_MAX; simpl; lia.
Defined.

(** [transpose_3d] writes the transposed tensor, for each of the six
    permutations: the output entry whose coordinates are those of an
    input entry rearranged by [perm] (output axis [k] carries input axis
    [perm[k]]) is that input entry. *)
Theorem transpose_3d_elements {T : Type} (a b : list T) (d0 d1 d2 : Z)
        (perm : list Z) :
  0 < d0 -> 0 < d1 -> 0 < d2 -> d0 * d1 * d2 <= SIZE_MAX ->
  In perm permutations_3 ->
  d0 * d1 * d2 <= Z.of_nat (length a) ->
  d0 * d1 * d2 <= Z.of_nat (length b) ->
  exists b1,
    transpose_3d a [d0; d1; d2] perm b = Some b1 /\
    length b1 = length b /\
    skipn (Z.to_nat (d0 * d1 * d2)) b1
    = skipn (Z.to_nat (d0 * d1 * d2)) b /\
    forall x0 x1 x2, 0 <= x0 < d0 -> 0 <= x1 < d1 -> 0 <= x2 < d2 ->
      nth_error b1
        (Z.to_nat
           (ravel (at_index (permuted_dims [d0; d1; d2] perm) 1)
                  (at_index (permuted_dims [d0; d1; d2] perm) 2)
                  (at_index [x0; x1; x2] (at_index perm 0))
                  (at_index [x0; x1; x2] (at_index perm 1))
                  (at_index [x0; x1; x2] (at_index perm 2))))
      = nth_error a (Z.to_nat (ravel d1 d2 x0 x1 x2)).
Proof.
  intros H0 H1 H2 Hfit Hperm La Lb. unfold transpose_3d.
  destruct (@transpose_3d_sizes d0 d1 d2 perm H0 H1 H2 Hfit Hperm)
    as [-> _].
  destruct (@perm_indices_3d_inverse d0 d1 d2 perm H0 H1 H2 Hfit Hperm)
    as (Hf & _ & _).
  destruct (@permute_some T a b (d0 * d1 * d2)
              (apply_perm_indices_3d
                 (make_perm_indices_3d [d0; d1; d2] perm)))
    as (vs & Hb1 & _);
    [lia | intros i Hi; specialize (Hf i Hi); lia |].
  eexists. split; [exact Hb1|].
  apply permute_inv in Hb1 as (_ & Hlen & Hskip & Hnth).
  split; [exact Hlen|]. split; [exact Hskip|].
  intros x0 x1 x2 B0 B1 B2. clear Hf.
  unfold permutations_3 in Hperm. simpl In in Hperm.
  repeat (destruct Hperm as [<- | Hperm]); [.. | contradiction];
    unfold permuted_dims; cbn [map];
    repeat (rewrite at3_0 || rewrite at3_1 || rewrite at3_2);
    match goal with
    | |- nth_error _ (Z.to_nat (ravel ?D1 ?D2 ?y0 ?y1 ?y2)) = _ =>
        first
          [ pose proof (@ravel_bound d0 D1 D2 y0 y1 y2
                          ltac:(lia) ltac:(lia) ltac:(lia)) as RB
          | pose proof (@ravel_bound d1 D1 D2 y0 y1 y2
                          ltac:(lia) ltac:(lia) ltac:(lia)) as RB
          | pose proof (@ravel_bound d2 D1 D2 y0 y1 y2
                          ltac:(lia) ltac:(lia) ltac:(lia)) as RB ];
        rewrite Hnth by lia; rewrite Z2Nat.id by lia;
        reduce_descriptors;
        match goal with
        | |- context [apply_perm_indices_3d
                        (Build_perm_indices_3d ?S0 ?S1 ?S2 ?D0 _ _ _ _ _)
                        _] =>
            rewrite (@descriptor_at_ravel D0 D1 D2 S0 S1 S2
                       (d0 * d1 * d2));
            [ f_equal; f_equal; unfold ravel; ring
            | lia | lia | lia | lia | weights_in_range ]
        end
    end.
Qed.

Lemma transpose_3d_elements_witness :
  exists b1,
    transpose_3d [1; 2; 3; 4; 5; 6] [1; 2; 3] [2; 0; 1] (repeat 0 6)
    = Some b1 /\
    length b1 = length (repeat 0 6) /\
    skipn (Z.to_nat (1 * 2 * 3)) b1
    = skipn (Z.to_nat (1 * 2 * 3)) (repeat 0 6) /\
    forall x0 x1 x2, 0 <= x0 < 1 -> 0 <= x1 < 2 -> 0 <= x2 < 3 ->
      nth_error b1
        (Z.to_nat
           (ravel (at_index (permuted_dims [1; 2; 3] [2; 0; 1]) 1)
                  (at_index (permuted_dims [1; 2; 3] [2; 0; 1]) 2)
                  (at_index [x0; x1; x2] (at_index [2; 0; 1] 0))
                  (at_index [x0; x1; x2] (at_index [2; 0; 1] 1))
                  (at_index [x0; x1; x2] (at_index [2; 0; 1] 2))))
      = nth_error [1; 2; 3; 4; 5; 6] (Z.to_nat (ravel 2 3 x0 x1 x2)).
Proof.
  apply (@transpose_3d_elements Z [1; 2; 3; 4; 5; 6] (repeat 0 6)
           1 2 3 [2; 0; 1]);
    try (unfold SIZE_MAX; simpl; lia).
  unfold permutations_3. simpl.
  repeat (first [left; reflexivity | right]).
Defined.

Lemma transpose_2d_roundtrip_witness :
  exists b1 a1,
    transpose_2d [1; 2; 3; 4; 5; 6] [2; 3] (repeat 0 6) = Some b1 /\
    transpose_2d b1 [3; 2] (repeat 0 6) = Some a1 /\
    firstn (Z.to_nat (2 * 3)) a1
    = firstn (Z.to_nat (2 * 3)) [1; 2; 3; 4; 5; 6].
Proof.
  apply (@Transpose.transpose_2d_roundtrip Z [1; 2; 3; 4; 5; 6]
           (repeat 0 6) (repeat 0 6) 2 3);
    unfold SIZE_MAX; simpl; lia.
Defined.

Lemma transpose_3d_roundtrip_witness :
  exists b1 a1,
    transpose_3d [1; 2; 3; 4; 5; 6; 7; 8; 9; 10; 11; 12] [2; 2; 3]
                 [1; 2; 0] (repeat 0 12) = Some b1 /\
    transpose_3d b1 (permuted_dims [2; 2; 3] [1; 2; 0])
                 (inverse [1; 2; 0]) (repeat 0 12) = Some a1 /\
    firstn (Z.to_nat (2 * 2 * 3)) a1
    = firstn (Z.to_nat (2 * 2 * 3)) [1; 2; 3; 4; 5; 6; 7; 8; 9; 10; 11; 12].
Proof.
  apply (@Transpose.transpose_3d_roundtrip Z
           [1; 2; 3; 4; 5; 6; 7; 8; 9; 10; 11; 12]
           (repeat 0 12) (repeat 0 12) 2 2 3 [1; 2; 0]);
    try (unfold SIZE_MAX; simpl; lia).
  unfold permutations_3. simpl. auto.
Defined.

Lemma perm_indices_4d_at_0 (f : perm_indices_4d) :
  apply_perm_indices_4d f 0 = 0.
Proof.
  reflexivity.
Qed.

Lemma perm_indices_4d_at_1 (f : perm_indices_4d) :
  1 <= b4_d1 f -> 1 <= b4_d2 f -> 2 <= b4_d3 f ->
  2 <= b4_s0 f -> 2 <= b4_s1 f -> b4_s2 f = b4_d3 f ->
  apply_perm_indices_4d f 1 = 0.
Proof.
  intros H1 H2 H3 Hs0 Hs1 Hs2. unfold apply_perm_indices_4d.
  rewrite Hs2.
  rewrite (Z.div_small 1 (b4_s0 f)), (Z.div_small 1 (b4_s1 f)),
    (Z.div_small 1 (b4_d3 f)) by lia.
  reflexivity.
Qed.

(** In [transpose_4d] the second output element is always the first
    input element, as the first output element is, whenever the last
    axis of the output has at least two entries: the term of the last
    axis is multiplied by the term of the third, which is zero there.  A
    transposition reads the input element at the stride of the last
    output axis instead. *)
Theorem transpose_4d_second_output {T : Type} (a b b1 : list T)
        (dims perm : list Z) :
  1 <= at_index dims (at_index perm 1) ->
  1 <= at_index dims (at_index perm 2) ->
  2 <= at_index dims (at_index perm 3) ->
  at_index dims (at_index perm 1) * at_index dims (at_index perm 2)
  * at_index dims (at_index perm 3) <= SIZE_MAX ->
  2 <= size_mul (size_mul (size_mul (at_index dims 0) (at_index dims 1))
                          (at_index dims 2)) (at_index dims 3) ->
  transpose_4d a dims perm b = Some b1 ->
  apply_perm_indices_4d (make_perm_indices_4d dims perm) 1 = 0 /\
  nth_error b1 1 = nth_error a 0 /\
  nth_error b1 0 = nth_error a 0.
Proof.
  intros H1 H2 H3 Hfit Hsize Hb1.
  assert (E1 : apply_perm_indices_4d (make_perm_indices_4d dims perm) 1
               = 0).
  { set (D1 := at_index dims (at_index perm 1)) in *.
    set (D2 := at_index dims (at_index perm 2)) in *.
    set (D3 := at_index dims (at_index perm 3)) in *.
    apply perm_indices_4d_at_1; unfold make_perm_indices_4d;
      cbn [b4_d1 b4_d2 b4_d3 b4_s0 b4_s1 b4_s2];
      fold D1 D2 D3; try assumption; try reflexivity.
    - unfold size_mul. rewrite (@to_size_t_small (D1 * D2)) by nia.
      rewrite (@to_size_t_small (D1 * D2 * D3)) by nia. nia.
    - unfold size_mul. rewrite (@to_size_t_small (D2 * D3)) by nia. nia. }
  split; [exact E1|].
  unfold transpose_4d in Hb1.
  apply permute_inv in Hb1 as (_ & _ & _ & Hnth).
  split.
  - rewrite (Hnth 1%nat) by lia.
    change (Z.of_nat 1) with 1. rewrite E1. reflexivity.
  - rewrite (Hnth 0%nat) by lia.
    change (Z.of_nat 0) with 0. rewrite perm_indices_4d_at_0. reflexivity.
Qed.

Lemma transpose_4d_second_output_witness :
  apply_perm_indices_4d
    (make_perm_indices_4d [1; 1; 2; 2] [1; 0; 3; 2]) 1 = 0 /\
  nth_error [10; 10; 10; 30] 1 = nth_error [10; 20; 30; 40] 0 /\
  nth_error [10; 10; 10; 30] 0 = nth_error [10; 20; 30; 40] 0.
Proof.
  apply (@transpose_4d_second_output Z [10; 20; 30; 40] (repeat 0 4)
           [10; 10; 10; 30] [1; 1; 2; 2] [1; 0; 3; 2]);
    first [reflexivity | vm_compute; discriminate].
Defined.

End TransposeLaws.

(** ** What the matrix products read and write *)

Module GemmLaws.
Import Machine Device Gemm.
Local Open Scope Z_scope.

Section Scalars.
Variable R : Type.
Variable zero : R.
Variables fadd fmul : R -> R -> R.

(** Memory after [gemm] on each of the first [count] batch entries in
    turn. *)
Definition after_entries (a b : Z) (transpose_a transpose_b : bool)
           (m n k : Z) (alpha beta : R) (c : Z) (mem : memory R)
           (count : nat) : memory R :=
  fold_left
    (fun mem i =>
       gemm zero fadd fmul (a + Z.of_nat i * m * k) (b + Z.of_nat i * k * n)
            transpose_a transpose_b m n k alpha beta
            (c + Z.of_nat i * m * n) mem)
    (seq 0 count) mem.

Lemma gemm_outside a b transpose_a transpose_b m n k alpha beta c
      (mem : memory R) p :
  fits_int m -> fits_int n -> fits_int k ->
  p < c \/ c + m * n <= p ->
  gemm zero fadd fmul a b transpose_a transpose_b m n k alpha beta c mem p
  = mem p.
Proof.
  intros Hm Hn Hk Hp. unfold gemm, cublasSgemm.
  rewrite !(to_int_small Hn), !(to_int_small Hm).
  unfold fits_int in *.
  destruct (Z.leb_spec 0 (p - c)) as [Hoff|Hoff]; simpl; [|reflexivity].
  destruct (Z.eq_dec n 0) as [->|Hn0].
  { rewrite Z.mod_0_r. destruct (Z.ltb_spec (p - c) 0); [lia|reflexivity]. }
  destruct (Z.ltb_spec ((p - c) mod n) n); simpl; [|reflexivity].
  destruct (Z.ltb_spec ((p - c) / n) m) as [Hj|Hj]; [|reflexivity].
  exfalso. pose proof (Z.div_mod (p - c) n Hn0). nia.
Qed.

Lemma gemm_local a b transpose_a transpose_b m n k alpha beta c
      (mem1 mem2 : memory R) p :
  fits_int m -> fits_int n -> fits_int k ->
  (forall q, a <= q < a + m * k -> mem1 q = mem2 q) ->
  (forall q, b <= q < b + k * n -> mem1 q = mem2 q) ->
  mem1 p = mem2 p ->
  gemm zero fadd fmul a b transpose_a transpose_b m n k alpha beta c mem1 p
  = gemm zero fadd fmul a b transpose_a transpose_b m n k alpha beta c
         mem2 p.
Proof.
  intros Hm Hn Hk Ha Hb Hp. unfold gemm, cublasSgemm.
  assert (Hlda : to_int (if transpose_a then m else k)
                 = if transpose_a then m else k)
    by (destruct transpose_a; apply to_int_small; assumption).
  assert (Hldb : to_int (if transpose_b then k else n)
                 = if transpose_b then k else n)
    by (destruct transpose_b; apply to_int_small; assumption).
  rewrite Hlda, Hldb, !(to_int_small Hn), !(to_int_small Hm),
    !(to_int_small Hk).
  unfold fits_int in *. rewrite Hp.
  destruct (Z.leb_spec 0 (p - c)) as [Hoff|Hoff]; simpl; [|reflexivity].
  destruct (Z.ltb_spec ((p - c) mod n) n) as [Hi|Hi]; simpl;
    [|reflexivity].
  destruct (Z.ltb_spec ((p - c) / n) m) as [Hj|Hj]; [|reflexivity].
  assert (Hn0 : 0 < n).
  { destruct (Z.eq_dec n 0) as [E|E]; [|lia].
    rewrite E, Z.mod_0_r in Hi. lia. }
  pose proof (Z.mod_pos_bound (p - c) n Hn0) as Bi.
  assert (Bj : 0 <= (p - c) / n) by (apply Z.div_pos; lia).
  f_equal. f_equal. apply dot_ext. intros l Hl. unfold op_elem.
  f_equal.
  - destruct transpose_b; apply Hb; nia.
  - destruct transpose_a; apply Ha; nia.
Qed.

(** [gemm] writes nothing outside the [m] by [n] output at [c]. *)
Theorem gemm_writes_only_output a b transpose_a transpose_b m n k alpha
        beta c (mem : memory R) p :
  fits_int m -> fits_int n -> fits_int k ->
  p < c \/ c + m * n <= p ->
  gemm zero fadd fmul a b transpose_a transpose_b m n k alpha beta c mem p
  = mem p.
Proof. apply gemm_outside. Qed.

(** The value [gemm] leaves at an output position depends on memory only
    through the [m * k] elements at [a], the [k * n] elements at [b] and
    that position itself. *)
Theorem gemm_reads_only_operands a b transpose_a transpose_b m n k alpha
        beta c (mem1 mem2 : memory R) p :
  fits_int m -> fits_int n -> fits_int k ->
  (forall q, a <= q < a + m * k -> mem1 q = mem2 q) ->
  (forall q, b <= q < b + k * n -> mem1 q = mem2 q) ->
  mem1 p = mem2 p ->
  gemm zero fadd fmul a b transpose_a transpose_b m n k alpha beta c mem1 p
  = gemm zero fadd fmul a b transpose_a transpose_b m n k alpha beta c
         mem2 p.
Proof. apply gemm_local. Qed.

Lemma after_entries_S a b transpose_a transpose_b m n k alpha beta c
      (mem : memory R) count :
  after_entries a b transpose_a transpose_b m n k alpha beta c mem
                (S count)
  = gemm zero fadd fmul (a + Z.of_nat count * m * k)
         (b + Z.of_nat count * k * n) transpose_a transpose_b m n k
         alpha beta (c + Z.of_nat count * m * n)
         (after_entries a b transpose_a transpose_b m n k alpha beta c
                        mem count).
Proof.
  unfold after_entries. rewrite seq_S, fold_left_app. reflexivity.
Qed.

Lemma after_entries_outside a b transpose_a transpose_b m n k alpha beta c
      (mem : memory R) :
  fits_int m -> fits_int n -> fits_int k ->
  forall count p,
    p < c \/ c + Z.of_nat count * m * n <= p ->
    after_entries a b transpose_a transpose_b m n k alpha beta c mem
                  count p
    = mem p.
Proof.
  intros Hm Hn Hk. induction count as [|j IH]; intros p Hp.
  - reflexivity.
  - rewrite after_entries_S.
    assert (0 <= m /\ 0 <= n) as [Pm Pn] by (unfold fits_int in *; lia).
    assert (0 <= Z.of_nat j * m * n)
      by (apply Z.mul_nonneg_nonneg; [apply Z.mul_nonneg_nonneg|]; lia).
    assert (0 <= m * n) by (apply Z.mul_nonneg_nonneg; lia).
    rewrite gemm_outside; try assumption.
    + apply IH. nia.
    + nia.
Qed.

Lemma after_entries_slice a b transpose_a transpose_b m n k alpha beta c
      (mem : memory R) batch_size :
  fits_int m -> fits_int n -> fits_int k ->
  a + Z.of_nat batch_size * m * k <= c \/
  c + Z.of_nat batch_size * m * n <= a ->
  b + Z.of_nat batch_size * k * n <= c \/
  c + Z.of_nat batch_size * m * n <= b ->
  forall count, (count <= batch_size)%nat ->
  forall i p,
    (i < count)%nat ->
    c + Z.of_nat i * m * n <= p < c + Z.of_nat i * m * n + m * n ->
    after_entries a b transpose_a transpose_b m n k alpha beta c mem
                  count p
    = gemm zero fadd fmul (a + Z.of_nat i * m * k)
           (b + Z.of_nat i * k * n) transpose_a transpose_b m n k
           alpha beta (c + Z.of_nat i * m * n) mem p.
Proof.
  intros Hm Hn Hk Da Db.
  assert (0 <= m /\ 0 <= n /\ 0 <= k) as (Pm & Pn & Pk)
    by (unfold fits_int in *; lia).
  assert (Pmn : 0 <= m * n) by (apply Z.mul_nonneg_nonneg; lia).
  assert (Pmk : 0 <= m * k) by (apply Z.mul_nonneg_nonneg; lia).
  assert (Pkn : 0 <= k * n) by (apply Z.mul_nonneg_nonneg; lia).
  assert (Mono : forall (x y : nat) w, (x <= y)%nat -> 0 <= w ->
                   Z.of_nat x * w <= Z.of_nat y * w).
  { intros x y w Hxy Hw. apply Z.mul_le_mono_nonneg_r; lia. }
  induction count as [|j IH]; intros Hc i p Hi Hp; [lia|].
  rewrite after_entries_S.
  pose proof (@Mono j batch_size (m * n) ltac:(lia) Pmn) as Mc.
  pose proof (@Mono (S j) batch_size (m * k) ltac:(lia) Pmk) as Ma.
  pose proof (@Mono (S j) batch_size (k * n) ltac:(lia) Pkn) as Mb.
  pose proof (@Mono 0%nat j (m * k) ltac:(lia) Pmk) as Ma0.
  pose proof (@Mono 0%nat j (k * n) ltac:(lia) Pkn) as Mb0.
  pose proof (@Mono 0%nat j (m * n) ltac:(lia) Pmn) as Mc0.
  rewrite Nat2Z.inj_succ in Ma, Mb.
  destruct (Nat.eq_dec i j) as [->|Hne].
  - apply gemm_local; try assumption.
    + intros q Hq. apply after_entries_outside; try assumption. lia.
    + intros q Hq. apply after_entries_outside; try assumption. lia.
    + apply after_entries_outside; try assumption. lia.
  - pose proof (@Mono (S i) j (m * n) ltac:(lia) Pmn) as Mi.
    rewrite Nat2Z.inj_succ in Mi.
    rewrite gemm_outside; try assumption; [|lia].
    apply IH; [lia|lia|exact Hp].
Qed.

Lemma gemm_batch_memory st a b transpose_a transpose_b batch_size m n k
      alpha beta c (mem : memory R) :
  wf st ->
  fits_int (Z.of_nat batch_size) ->
  fits_int m -> fits_int n -> fits_int k ->
  fits_size_t (Z.of_nat batch_size * m * k) ->
  fits_size_t (Z.of_nat batch_size * k * n) ->
  fits_size_t (Z.of_nat batch_size * m * n) ->
  exists r,
    gemm_batch zero fadd fmul st a b transpose_a transpose_b batch_size
               m n k alpha beta c mem = Some r /\
    memory_after r
    = after_entries a b transpose_a transpose_b m n k alpha beta c mem
                    batch_size.
Proof.
  intros Hwf Hint Hm Hn Hk Fa Fb Fc.
  assert (0 <= m /\ 0 <= n /\ 0 <= k) as (Pm & Pn & Pk)
    by (unfold fits_int in *; lia).
  assert (Hfit : fits_size_t (Z.of_nat batch_size * sizeof_pointer)).
  { unfold fits_size_t, SIZE_MAX, fits_int, INT_MAX, sizeof_pointer
      in *.
    change (2 ^ 31) with 2147483648 in Hint.
    change (2 ^ 64) with 18446744073709551616. lia. }
  destruct (@gemm_batch_eval R zero fadd fmul st a b transpose_a
              transpose_b batch_size m n k alpha beta c mem Hwf Hfit Hint)
    as (r & Hr & Hmem & _).
  exists r. split; [exact Hr|]. rewrite Hmem. unfold after_entries.
  apply fold_left_ext_in. intros acc i Hi. apply in_seq in Hi.
  assert (B : forall x y, 0 <= x -> 0 <= y ->
                fits_size_t (Z.of_nat batch_size * x * y) ->
                fits_size_t (Z.of_nat i * x * y)).
  { unfold fits_size_t. intros x y Hx Hy [_ Hb]. split; [nia|].
    assert (Z.of_nat i * x * y <= Z.of_nat batch_size * x * y); [|lia].
    apply Z.mul_le_mono_nonneg_r; [assumption|].
    apply Z.mul_le_mono_nonneg_r; [assumption|]. lia. }
  rewrite !size_mul_mul by (apply B; assumption).
  reflexivity.
Qed.

(** [gemm_batch] runs and leaves every element outside the
    [batch_size * m * n] outputs at [c] as it was. *)
Theorem gemm_batch_writes_only_outputs st a b transpose_a transpose_b
        batch_size m n k alpha beta c (mem : memory R) :
  wf st ->
  fits_int (Z.of_nat batch_size) ->
  fits_int m -> fits_int n -> fits_int k ->
  fits_size_t (Z.of_nat batch_size * m * k) ->
  fits_size_t (Z.of_nat batch_size * k * n) ->
  fits_size_t (Z.of_nat batch_size * m * n) ->
  exists r,
    gemm_batch zero fadd fmul st a b transpose_a transpose_b batch_size
               m n k alpha beta c mem = Some r /\
    forall p, p < c \/ c + Z.of_nat batch_size * m * n <= p ->
              memory_after r p = mem p.
Proof.
  intros Hwf Hint Hm Hn Hk Fa Fb Fc.
  destruct (@gemm_batch_memory st a b transpose_a transpose_b batch_size
              m n k alpha beta c mem Hwf Hint Hm Hn Hk Fa Fb Fc)
    as (r & Hr & Hmem).
  exists r. split; [exact Hr|]. intros p Hp. rewrite Hmem.
  apply after_entries_outside; assumption.
Qed.

(** When neither input overlaps the outputs, every entry of the batch is
    the product of its own two input matrices as they were before the
    call: no entry sees what another entry wrote. *)
Theorem gemm_batch_entries_independent st a b transpose_a transpose_b
        batch_size m n k alpha beta c (mem : memory R) :
  wf st ->
  fits_int (Z.of_nat batch_size) ->
  fits_int m -> fits_int n -> fits_int k ->
  fits_size_t (Z.of_nat batch_size * m * k) ->
  fits_size_t (Z.of_nat batch_size * k * n) ->
  fits_size_t (Z.of_nat batch_size * m * n) ->
  a + Z.of_nat batch_size * m * k <= c \/
  c + Z.of_nat batch_size * m * n <= a ->
  b + Z.of_nat batch_size * k * n <= c \/
  c + Z.of_nat batch_size * m * n <= b ->
  exists r,
    gemm_batch zero fadd fmul st a b transpose_a transpose_b batch_size
               m n k alpha beta c mem = Some r /\
    forall i p,
      (i < batch_size)%nat ->
      c + Z.of_nat i * m * n <= p < c + Z.of_nat i * m * n + m * n ->
      memory_after r p
      = gemm zero fadd fmul (a + Z.of_nat i * m * k)
             (b + Z.of_nat i * k * n) transpose_a transpose_b m n k
             alpha beta (c + Z.of_nat i * m * n) mem p.
Proof.
  intros Hwf Hint Hm Hn Hk Fa Fb Fc Da Db.
  destruct (@gemm_batch_memory st a b transpose_a transpose_b batch_size
              m n k alpha beta c mem Hwf Hint Hm Hn Hk Fa Fb Fc)
    as (r & Hr & Hmem).
  exists r. split; [exact Hr|]. intros i p Hi Hp. rewrite Hmem.
  apply (@after_entries_slice a b transpose_a transpose_b m n k alpha
           beta c mem batch_size Hm Hn Hk Da Db batch_size (le_n _)
           i p Hi Hp).
Qed.

End Scalars.

Lemma gemm_writes_only_output_witness :
  gemm 0 Z.add Z.mul 0 10 false false 2 2 2 1 0 20 example_memory 24
  = example_memory 24.
Proof.
  apply (@gemm_writes_only_output Z 0 Z.add Z.mul 0 10 false false
           2 2 2 1 0 20 example_memory 24).
  - apply fits_int_small; lia.
  - apply fits_int_small; lia.
  - apply fits_int_small; lia.
  - right; lia.
Defined.

Lemma gemm_reads_only_operands_witness :
  gemm 0 Z.add Z.mul 0 10 false false 2 2 2 1 0 20 example_memory 21
  = gemm 0 Z.add Z.mul 0 10 false false 2 2 2 1 0 20
         (fun p => if p =? 30 then 9 else example_memory p) 21.
Proof.
  apply (@gemm_reads_only_operands Z 0 Z.add Z.mul 0 10 false false
           2 2 2 1 0 20 example_memory
           (fun p => if p =? 30 then 9 else example_memory p) 21).
  - apply fits_int_small; lia.
  - apply fits_int_small; lia.
  - apply fits_int_small; lia.
  - intros q Hq. destruct (Z.eqb_spec q 30); [lia|reflexivity].
  - intros q Hq. destruct (Z.eqb_spec q 30); [lia|reflexivity].
  - reflexivity.
Defined.

Lemma gemm_batch_writes_only_outputs_witness :
  exists r,
    gemm_batch 0 Z.add Z.mul initial 0 10 false false 2 1 1 2 1 0 20
               example_memory = Some r /\
    forall p, p < 20 \/ 20 + Z.of_nat 2 * 1 * 1 <= p ->
              memory_after r p = example_memory p.
Proof.
  apply (@gemm_batch_writes_only_outputs Z 0 Z.add Z.mul initial 0 10
           false false 2 1 1 2 1 0 20 example_memory).
  - apply batch_initial_wf.
  - apply fits_int_small; simpl; lia.
  - apply fits_int_small; lia.
  - apply fits_int_small; lia.
  - apply fits_int_small; lia.
  - apply fits_size_t_small; simpl; lia.
  - apply fits_size_t_small; simpl; lia.
  - apply fits_size_t_small; simpl; lia.
Defined.

Lemma gemm_batch_entries_independent_witness :
  exists r,
    gemm_batch 0 Z.add Z.mul initial 0 10 false false 2 1 1 2 1 0 20
               example_memory = Some r /\
    forall i p,
      (i < 2)%nat ->
      20 + Z.of_nat i * 1 * 1 <= p < 20 + Z.of_nat i * 1 * 1 + 1 * 1 ->
      memory_after r p
      = gemm 0 Z.add Z.mul (0 + Z.of_nat i * 1 * 2)
             (10 + Z.of_nat i * 2 * 1) false false 1 1 2 1 0
             (20 + Z.of_nat i * 1 * 1) example_memory p.
Proof.
  apply (@gemm_batch_entries_independent Z 0 Z.add Z.mul initial 0 10
           false false 2 1 1 2 1 0 20 example_memory).
  - apply batch_initial_wf.
  - apply fits_int_small; simpl; lia.
  - apply fits_int_small; lia.
  - apply fits_int_small; lia.
  - apply fits_int_small; lia.
  - apply fits_size_t_small; simpl; lia.
  - apply fits_size_t_small; simpl; lia.
  - apply fits_size_t_small; simpl; lia.
  - left; simpl; lia.
  - left; simpl; lia.
Defined.

End GemmLaws.

(** ** Scalar and pairwise forms of the elementwise primitives *)

Module ElementwiseLaws.
Import Machine Buffers Elementwise Arithmetic.

Lemma zip_with_repeat {A B C : Type} (op : A -> B -> C) (l : list A)
      (a : B) :
  zip_with op l (repeat a (length l)) = map (fun v => op v a) l.
Proof.
  induction l as [|v l IH]; simpl; [reflexivity|]. rewrite IH.
  reflexivity.
Qed.

Lemma binary_with_filled {T : Type} (op : T -> T -> T) (x s y : list T)
      (a : T) (n : nat) :
  n <= length x -> n <= length s -> n <= length y ->
  exists s1,
    fill s a n = Some s1 /\
    binary_transform x s1 y n op
    = unary_transform x y n (fun v => op v a).
Proof.
  intros Hx Hs Hy. exists (repeat a n ++ skipn n s).
  split; [apply fill_some; assumption|].
  rewrite binary_transform_some; try assumption.
  - rewrite (@unary_transform_some T x y n (fun v => op v a) Hx Hy).
    rewrite firstn_prefix by apply repeat_length.
    rewrite <- (@firstn_length_le T n x Hx) at 2.
    rewrite zip_with_repeat. reflexivity.
  - rewrite length_app, repeat_length, length_skipn. lia.
Qed.

(** Adding a buffer filled with [a] is adding the scalar [a]. *)
Theorem add_filled_is_add_scalar (w a : Z) (x s y : list Z) (n : nat) :
  n <= length x -> n <= length s -> n <= length y ->
  exists s1 y1,
    fill s a n = Some s1 /\
    add w x s1 y n = Some y1 /\
    add_scalar w a x y n = Some y1.
Proof.
  intros Hx Hs Hy.
  destruct (@binary_with_filled Z (plus w) x s y a n Hx Hs Hy)
    as (s1 & Hs1 & E).
  exists s1, (map (fun v => plus w v a) (firstn n x) ++ skipn n y).
  split; [exact Hs1|]. unfold add, add_scalar. rewrite E.
  split; apply unary_transform_some; assumption.
Qed.

Lemma add_filled_is_add_scalar_witness :
  exists s1 y1,
    fill [0; 0; 0]%Z 100%Z 2 = Some s1 /\
    add 8 [100; -3; 7]%Z s1 [0; 0; 5]%Z 2 = Some y1 /\
    add_scalar 8 100 [100; -3; 7]%Z [0; 0; 5]%Z 2 = Some y1.
Proof.
  apply (@add_filled_is_add_scalar 8%Z 100%Z [100; -3; 7]%Z [0; 0; 0]%Z
           [0; 0; 5]%Z 2); simpl; lia.
Defined.

(** Multiplying by a buffer filled with [a] is multiplying by the scalar
    [a]. *)
Theorem mul_filled_is_mul_scalar (w a : Z) (x s y : list Z) (n : nat) :
  n <= length x -> n <= length s -> n <= length y ->
  exists s1 y1,
    fill s a n = Some s1 /\
    mul w x s1 y n = Some y1 /\
    mul_scalar w a x y n = Some y1.
Proof.
  intros Hx Hs Hy.
  destruct (@binary_with_filled Z (times w) x s y a n Hx Hs Hy)
    as (s1 & Hs1 & E).
  exists s1, (map (fun v => times w v a) (firstn n x) ++ skipn n y).
  split; [exact Hs1|]. unfold mul, mul_scalar. rewrite E.
  split; apply unary_transform_some; assumption.
Qed.

Lemma mul_filled_is_mul_scalar_witness :
  exists s1 y1,
    fill [0; 0; 0]%Z 3%Z 2 = Some s1 /\
    mul 8 [100; -3; 7]%Z s1 [0; 0; 5]%Z 2 = Some y1 /\
    mul_scalar 8 3 [100; -3; 7]%Z [0; 0; 5]%Z 2 = Some y1.
Proof.
  apply (@mul_filled_is_mul_scalar 8%Z 3%Z [100; -3; 7]%Z [0; 0; 0]%Z
           [0; 0; 5]%Z 2); simpl; lia.
Defined.

Local Open Scope Z_scope.

Lemma plus_plus w v a b :
  0 < w -> plus w (plus w v a) b = plus w v (plus w a b).
Proof.
  intros Hw. unfold plus.
  rewrite to_signed_add_l, to_signed_add_r by assumption.
  f_equal. lia.
Qed.

(** Adding the scalar [a] and then, in place, the scalar [b] is adding
    their wrapped sum once. *)
Theorem add_scalar_twice (w a b : Z) (x y : list Z) (n : nat) :
  0 < w -> (n <= length x)%nat -> (n <= length y)%nat ->
  exists y1 y2,
    add_scalar w a x y n = Some y1 /\
    add_scalar w b y1 y1 n = Some y2 /\
    add_scalar w (plus w a b) x y n = Some y2.
Proof.
  intros Hw Hx Hy.
  set (p := map (fun v => plus w v a) (firstn n x)).
  assert (Hp : length p = n)
    by (unfold p; rewrite length_map; apply firstn_length_le; assumption).
  assert (Hl : length (p ++ skipn n y) = length y)
    by (rewrite length_app, Hp, length_skipn; lia).
  exists (p ++ skipn n y).
  exists (map (fun v => plus w v (plus w a b)) (firstn n x) ++ skipn n y).
  split; [apply unary_transform_some; assumption|].
  split; [|apply unary_transform_some; assumption].
  unfold add_scalar. rewrite unary_transform_some by lia.
  rewrite firstn_prefix, skipn_prefix by assumption.
  unfold p. rewrite map_map. do 2 f_equal.
  apply map_ext. intros v. apply plus_plus. assumption.
Qed.

Lemma add_scalar_twice_witness :
  exists y1 y2,
    add_scalar 8 100 [100; -3; 7] [0; 0; 5] 2 = Some y1 /\
    add_scalar 8 90 y1 y1 2 = Some y2 /\
    add_scalar 8 (plus 8 100 90) [100; -3; 7] [0; 0; 5] 2 = Some y2.
Proof.
  apply (@add_scalar_twice 8 100 90 [100; -3; 7] [0; 0; 5] 2);
    simpl; lia.
Defined.

End ElementwiseLaws.

(** ** Copies between the host and the device *)

Module Transfer.
Import Machine Buffers.
Local Open Scope Z_scope.

Section Element.
Variable T : Type.
Variable sizeof_T : Z.

(** The elements covered by the [size * sizeof (T)] bytes that
    [cudaMemcpyAsync] is asked to move; the product is a [size_t]. *)
Definition elements_moved (size : Z) : nat :=
  Z.to_nat (size_mul size sizeof_T / sizeof_T).

(** [cross_device_primitives<Device::CPU, Device::CUDA>::copy(x, y, size)]:
    [x] is on the host, [y] on the device. *)
Definition copy_cpu_to_cuda (x y : list T) (size : Z) : option (list T) :=
  copy x y (elements_moved size).

(** [cross_device_primitives<Device::CUDA, Device::CPU>::copy(x, y, size)]:
    [x] is on the device, [y] on the host. *)
Definition copy_cuda_to_cpu (x y : list T) (size : Z) : option (list T) :=
  copy x y (elements_moved size).

Lemma elements_moved_exact size :
  0 < sizeof_T -> fits_size_t (size * sizeof_T) ->
  elements_moved size = Z.to_nat size.
Proof.
  intros Hs Hfit. unfold elements_moved, size_mul, to_size_t.
  unfold fits_size_t, SIZE_MAX in Hfit.
  rewrite Z.mod_small by lia. rewrite Z.div_mul by lia. reflexivity.
Qed.

(** A buffer of [size] elements sent to the device and read back arrives
    on the host as it left; what lies past [size] in the device and host
    destinations is not touched. *)
Theorem host_device_roundtrip (x d h : list T) (size : Z) :
  0 < sizeof_T -> fits_size_t (size * sizeof_T) ->
  (Z.to_nat size <= length x)%nat ->
  (Z.to_nat size <= length d)%nat ->
  (Z.to_nat size <= length h)%nat ->
  exists d1 h1,
    copy_cpu_to_cuda x d size = Some d1 /\
    copy_cuda_to_cpu d1 h size = Some h1 /\
    firstn (Z.to_nat size) h1 = firstn (Z.to_nat size) x /\
    skipn (Z.to_nat size) h1 = skipn (Z.to_nat size) h /\
    skipn (Z.to_nat size) d1 = skipn (Z.to_nat size) d.
Proof.
  intros Hs Hfit Hx Hd Hh.
  unfold copy_cpu_to_cuda, copy_cuda_to_cpu.
  rewrite (@elements_moved_exact size Hs Hfit).
  set (n := Z.to_nat size) in *.
  assert (Hp : length (firstn n x) = n)
    by (apply firstn_length_le; assumption).
  exists (firstn n x ++ skipn n d).
  exists (firstn n x ++ skipn n h).
  split; [apply copy_some; assumption|].
  split.
  { rewrite copy_some.
    - rewrite firstn_prefix by assumption. reflexivity.
    - rewrite length_app, Hp, length_skipn. lia.
    - assumption. }
  split; [apply firstn_prefix; assumption|].
  split; apply skipn_prefix; assumption.
Qed.

End Element.

Lemma host_device_roundtrip_witness :
  exists d1 h1,
    copy_cpu_to_cuda 4 [1; 2; 3] [0; 0; 0; 0] 2 = Some d1 /\
    copy_cuda_to_cpu 4 d1 [7; 7; 7] 2 = Some h1 /\
    firstn (Z.to_nat 2) h1 = firstn (Z.to_nat 2) [1; 2; 3] /\
    skipn (Z.to_nat 2) h1 = skipn (Z.to_nat 2) [7; 7; 7] /\
    skipn (Z.to_nat 2) d1 = skipn (Z.to_nat 2) [0; 0; 0; 0].
Proof.
  apply (@host_device_roundtrip Z 4 [1; 2; 3] [0; 0; 0; 0] [7; 7; 7] 2).
  - lia.
  - unfold fits_size_t, SIZE_MAX. simpl. lia.
  - simpl; lia.
  - simpl; lia.
  - simpl; lia.
Defined.

End Transfer.
